(** * solarspatialtools.cloudfield: a shallow embedding and its properties

    The module [cloudfield.py] synthesises a random "clear-sky index" field:
    [_random_at_scale] draws a coarse uniform grid and interpolates it
    bilinearly, [stacked_field] adds weighted layers and min-max normalises,
    [_clip_field] thresholds by quantile, [_find_edges] runs a Sobel filter,
    and [shift_mean_lave] / [lave_scaling_exact] remap the distribution.

    Numbers.  numpy works on IEEE doubles.  Here a finite double is an exact
    rational ([Q]); rounding is not modelled.  Where the source divides by a
    quantity that can be zero, values are taken in [xval], the rationals
    extended with [+inf], [-inf] and [NaN], with the IEEE rules for the
    special values (zero is unsigned: a zero divisor counts as [+0]).
    Rationals are compared with [==]; two arrays are compared entry by
    entry with it ([mat_eq], [mat_xeq]).

    Effects.  [np.random.rand] reads and advances the global generator; the
    generator state is threaded explicitly.  A Python exception is a
    [Raises] outcome.  Every function is taken with [plot=False]; the
    diagnostic [print] calls are left out.

    Libraries.  [np.quantile], [np.linspace], [np.isclose],
    [RegularGridInterpolator], [sobel] and [uniform_filter] are written out
    from their documented behaviour (for the interpolator: the cell search
    [find_interval_ascending] and the length-one axis of current scipy). *)

From Stdlib Require Import QArith Qminmax Qabs Qround List Lia Lqa Bool ZArith.
From Stdlib Require Import Permutation Sorted.
Import ListNotations.
Open Scope Q_scope.

(** ** Outcomes of a call *)

Inductive exn : Type :=
| AssertionError
| IndexError
| ValueError
| TypeError.

Inductive outcome (A : Type) : Type :=
| Ok (a : A)
| Raises (e : exn).
Arguments Ok {A} a.
Arguments Raises {A} e.

Definition bind {A B : Type} (m : outcome A) (k : A -> outcome B) : outcome B :=
  match m with
  | Ok a => k a
  | Raises e => Raises e
  end.

Notation "x <- m ;; k" := (bind m (fun x => k))
  (at level 61, m at next level, right associativity).
Notation "' p <- m ;; k" := (bind m (fun x => let p := x in k))
  (at level 61, p pattern, m at next level, right associativity).

(** [assert c] of Python. *)
Definition assert (c : bool) : outcome unit :=
  if c then Ok tt else Raises AssertionError.

(** ** Rationals: boolean tests *)

Definition Qltb (x y : Q) : bool := negb (Qle_bool y x).

(** A count or an index as a number. *)
Definition of_nat (n : nat) : Q := inject_Z (Z.of_nat n).

(** ** Arrays

    A 2-D array is a list of rows.  [flat] is [ndarray.ravel], [size] is
    [ndarray.size], [pix] reads one element. *)

Definition matrix (A : Type) : Type := list (list A).

Definition flat {A : Type} (m : matrix A) : list A := concat m.
Definition size {A : Type} (m : matrix A) : nat := length (flat m).
Definition mmap {A B : Type} (f : A -> B) (m : matrix A) : matrix B :=
  map (map f) m.
Definition pix {A : Type} (d : A) (m : matrix A) (i j : nat) : A :=
  nth j (nth i m []) d.

(** [np.ones_like] / [np.zeros]. *)
Definition zeros (rows cols : nat) : matrix Q := repeat (repeat 0 cols) rows.

(** Elementwise combination of two arrays of one shape. *)
Fixpoint zipw {A B C : Type} (f : A -> B -> C) (l : list A) (l' : list B)
  : list C :=
  match l, l' with
  | a :: t, b :: t' => f a b :: zipw f t t'
  | _, _ => []
  end.

Definition mzip {A B C : Type} (f : A -> B -> C) (m : matrix A) (m' : matrix B)
  : matrix C :=
  zipw (zipw f) m m'.

Fixpoint same_len {A B : Type} (l : list A) (l' : list B) : bool :=
  match l, l' with
  | [], [] => true
  | _ :: t, _ :: t' => same_len t t'
  | _, _ => false
  end.

Fixpoint same_shape {A B : Type} (m : matrix A) (m' : matrix B) : bool :=
  match m, m' with
  | [], [] => true
  | r :: t, r' :: t' => same_len r r' && same_shape t t'
  | _, _ => false
  end.

Definition Qsum (l : list Q) : Q := fold_right Qplus 0 l.

(** [np.min] and [np.max] of a non-empty array; on an empty one numpy raises
    [ValueError]. *)
Definition list_min (l : list Q) : outcome Q :=
  match l with
  | [] => Raises ValueError
  | x :: t => Ok (fold_left Qmin t x)
  end.

Definition list_max (l : list Q) : outcome Q :=
  match l with
  | [] => Raises ValueError
  | x :: t => Ok (fold_left Qmax t x)
  end.

(** ** np.quantile (method "linear")

    The data are sorted; the virtual index of level [q] among [n] values is
    [(n-1)*q]; the result interpolates linearly between the two neighbours.
    A level outside [0,1] raises [ValueError], an empty array [IndexError]. *)

Fixpoint insert (x : Q) (l : list Q) : list Q :=
  match l with
  | [] => [x]
  | y :: t => if Qle_bool x y then x :: l else y :: insert x t
  end.

Fixpoint sort (l : list Q) : list Q :=
  match l with
  | [] => []
  | x :: t => insert x (sort t)
  end.

Definition lerp (a b t : Q) : Q := a + (b - a) * t.

Definition quantile_sorted (a : list Q) (q : Q) : Q :=
  let n := length a in
  let h := of_nat (n - 1) * q in
  if Qle_bool (of_nat (n - 1)) h
  then nth (n - 1) a 0
  else
    let k := Z.to_nat (Qfloor h) in
    lerp (nth k a 0) (nth (S k) a 0) (h - inject_Z (Qfloor h)).

Definition quantile (a : list Q) (q : Q) : outcome Q :=
  if negb (Qle_bool 0 q && Qle_bool q 1) then Raises ValueError
  else match a with
       | [] => Raises IndexError
       | _ => Ok (quantile_sorted (sort a) q)
       end.

(** [np.isclose(a, b, rtol=1e-3)]: [|a - b| <= atol + rtol * |b|] with the
    default [atol = 1e-8]. *)
Definition atol : Q := 1 # 100000000.
Definition rtol : Q := 1 # 1000.

Definition isclose (a b : Q) : bool :=
  Qle_bool (Qabs (a - b)) (atol + rtol * Qabs b).

(** ** _clip_field *)

Definition clip_pixel (quant x : Q) : Q :=
  if Qltb quant x then 0 else 1.

Definition _clip_field (field : matrix Q) (clear_frac : Q)
  : outcome (matrix Q) :=
  quant <- quantile (flat field) clear_frac ;;
  let field_out := mmap (clip_pixel quant) field in
  _ <- assert (isclose clear_frac
                 (Qsum (flat field_out) / of_nat (size field))) ;;
  Ok field_out.

(** ** Extended values

    [xval] carries what a double can hold besides a finite number.  The
    operations follow IEEE 754 on the special values: [x/0] is an infinity
    of the sign of [x], [0/0] and [inf*0] and [inf-inf] are [NaN], every
    comparison with [NaN] is false. *)

Inductive xval : Type :=
| Fin (q : Q)
| PInf
| NInf
| NaN.

Definition sgn (x : xval) : Z :=
  match x with
  | Fin q => Z.sgn (Qnum q)
  | PInf => 1%Z
  | NInf => (-1)%Z
  | NaN => 0%Z
  end.

Definition inf_of_sign (s : Z) : xval :=
  match s with
  | Zpos _ => PInf
  | Zneg _ => NInf
  | Z0 => NaN
  end.

Definition xopp (x : xval) : xval :=
  match x with
  | Fin q => Fin (- q)
  | PInf => NInf
  | NInf => PInf
  | NaN => NaN
  end.

Definition xadd (x y : xval) : xval :=
  match x, y with
  | Fin a, Fin b => Fin (a + b)
  | NaN, _ | _, NaN => NaN
  | PInf, NInf | NInf, PInf => NaN
  | PInf, _ | _, PInf => PInf
  | NInf, _ | _, NInf => NInf
  end.

Definition xsub (x y : xval) : xval := xadd x (xopp y).

Definition xmul (x y : xval) : xval :=
  match x, y with
  | Fin a, Fin b => Fin (a * b)
  | NaN, _ | _, NaN => NaN
  | _, _ => inf_of_sign (sgn x * sgn y)
  end.

Definition xdiv (x y : xval) : xval :=
  match x, y with
  | NaN, _ | _, NaN => NaN
  | Fin a, Fin b => if Qeq_bool b 0 then inf_of_sign (sgn x) else Fin (a / b)
  | Fin _, _ => Fin 0
  | _, Fin b => if Qeq_bool b 0 then x else inf_of_sign (sgn x * sgn y)
  | _, _ => NaN
  end.

Definition xltb (x y : xval) : bool :=
  match x, y with
  | NaN, _ | _, NaN => false
  | Fin a, Fin b => Qltb a b
  | _, NInf => false
  | PInf, _ => false
  | _, _ => true
  end.

Definition xeqb (x y : xval) : bool :=
  match x, y with
  | Fin a, Fin b => Qeq_bool a b
  | PInf, PInf | NInf, NInf => true
  | _, _ => false
  end.

(** Equality of values up to the representation of a rational. *)
Definition xeq (x y : xval) : Prop :=
  match x, y with
  | Fin a, Fin b => a == b
  | PInf, PInf | NInf, NInf | NaN, NaN => True
  | _, _ => False
  end.

Definition xsum (l : list xval) : xval := fold_left xadd l (Fin 0).

(** [np.mean]: the sum over the count ([NaN] on an empty selection). *)
Definition xmean (l : list xval) : xval :=
  xdiv (xsum l) (Fin (of_nat (length l))).

(** [np.min] / [np.max] propagate [NaN]. *)
Definition xmin2 (a b : xval) : xval :=
  match a, b with
  | NaN, _ | _, NaN => NaN
  | _, _ => if xltb b a then b else a
  end.

Definition xmax2 (a b : xval) : xval :=
  match a, b with
  | NaN, _ | _, NaN => NaN
  | _, _ => if xltb a b then b else a
  end.

Definition xlist_min (l : list xval) : outcome xval :=
  match l with
  | [] => Raises ValueError
  | x :: t => Ok (fold_left xmin2 t x)
  end.

Definition xlist_max (l : list xval) : outcome xval :=
  match l with
  | [] => Raises ValueError
  | x :: t => Ok (fold_left xmax2 t x)
  end.

(** Boolean-mask selection [a[mask]] on arrays of one shape. *)
Definition select {A : Type} (mask : matrix bool) (a : matrix A) : list A :=
  map snd (filter fst (combine (flat mask) (flat a))).

(** Boolean-mask assignment [a[mask] = b[mask]]. *)
Definition assign {A : Type} (mask : matrix bool) (b a : matrix A)
  : matrix A :=
  mzip (fun (k : bool) (p : A * A) => if k then fst p else snd p)
       mask (mzip pair b a).

Definition count_true (l : list bool) : nat := length (filter (fun b => b) l).

(** ** The random generator

    [np.random.rand] draws from the module-level generator; a state of type
    [G] stands for it and [random_sample] is one draw of a double in
    [[0, 1)].  [RandomRange] records that range. *)

Class RandomState (G : Type) : Type :=
  random_sample : G -> Q * G.

Class RandomRange (G : Type) {RS : RandomState G} : Prop :=
  sample_range : forall s : G, 0 <= fst (random_sample s) < 1.

Section Generator.
Context {G : Type} {RS : RandomState G}.

Fixpoint rand_row (cols : nat) (s : G) : list Q * G :=
  match cols with
  | O => ([], s)
  | S c =>
      let (x, s1) := random_sample s in
      let (r, s2) := rand_row c s1 in
      (x :: r, s2)
  end.

(** [np.random.rand(rows, cols)], filled in row-major order. *)
Fixpoint rand (rows cols : nat) (s : G) : matrix Q * G :=
  match rows with
  | O => ([], s)
  | S r =>
      let (row, s1) := rand_row cols s in
      let (m, s2) := rand r cols s1 in
      (row :: m, s2)
  end.
End Generator.

(** ** np.linspace(0, 1, n)

    [n] evenly spaced samples [i/(n-1)]; for [n = 1] the single sample is the
    start [0] (the quotient [0/0] of [Q] is [0]). *)
Definition linspace (n : nat) : list Q :=
  map (fun i => of_nat i / of_nat (n - 1)) (seq 0 n).

(** ** scipy.interpolate.RegularGridInterpolator, method "linear"

    [leading_le grid x] counts the leading entries of [grid] that are not
    above [x]. *)
Fixpoint leading_le (grid : list Q) (x : Q) : nat :=
  match grid with
  | [] => 0
  | g :: t => if Qle_bool g x then S (leading_le t x) else 0
  end.

(** [find_interval_ascending] of scipy on an ascending grid: the index [i]
    of the cell with [grid[i] <= x < grid[i+1]], the last cell being closed
    on the right; below the grid the first cell, above it the last one. *)
Definition find_interval_ascending (grid : list Q) (x : Q) : nat :=
  Nat.min (leading_le grid x - 1) (length grid - 2).

(** [find_indices] on one axis: lower index, upper index and normalised
    distance of [x] in its cell.  An axis of length one has the single cell
    [0, 0] with distance 0. *)
Definition find_indices (grid : list Q) (x : Q) : nat * nat * Q :=
  match length grid with
  | 1%nat => (0%nat, 0%nat, 0)
  | _ =>
      let i := find_interval_ascending grid x in
      let denom := nth (S i) grid 0 - nth i grid 0 in
      (i, S i, (x - nth i grid 0) / denom)
  end.

(** The grids the interpolator is built on are strictly ascending. *)
Definition ascending (grid : list Q) : Prop :=
  forall i j, (i < j)%nat -> (j < length grid)%nat ->
              nth i grid 0 < nth j grid 0.

(** [bounds_error=True]: a query outside [grid[0], grid[-1]] is refused. *)
Definition in_bounds (grid : list Q) (x : Q) : bool :=
  Qle_bool (hd 0 grid) x && Qle_bool x (last grid 0).

(** The weighted sum over the four corners of the cell. *)
Definition evaluate_linear (gx gy : list Q) (values : matrix Q) (xq yq : Q)
  : Q :=
  let '(i0, i1, tx) := find_indices gx xq in
  let '(j0, j1, ty) := find_indices gy yq in
  pix 0 values i0 j0 * ((1 - tx) * (1 - ty))
  + pix 0 values i0 j1 * ((1 - tx) * ty)
  + pix 0 values i1 j0 * (tx * (1 - ty))
  + pix 0 values i1 j1 * (tx * ty).

(** [interp_f((Xnew, Ynew))] on the mesh of [xnew] and [ynew]
    ([indexing='ij']). *)
Definition interpolate (gx gy : list Q) (values : matrix Q)
           (xnew ynew : list Q) : outcome (matrix Q) :=
  match gx, gy with
  | [], _ | _, [] => Raises IndexError
  | _, _ =>
      if forallb (fun p => in_bounds gx (fst p) && in_bounds gy (snd p))
                 (list_prod xnew ynew)
      then Ok (map (fun xq => map (evaluate_linear gx gy values xq) ynew) xnew)
      else Raises ValueError
  end.

(** ** _random_at_scale *)

Definition _random_at_scale {G : Type} {RS : RandomState G}
           (rand_size final_size : nat * nat) (s : G)
  : outcome (matrix Q * matrix Q * G) :=
  let (random, s') := rand (fst rand_size) (snd rand_size) s in
  let x := linspace (fst rand_size) in
  let y := linspace (snd rand_size) in
  let xnew := linspace (fst final_size) in
  let ynew := linspace (snd final_size) in
  random_new <- interpolate x y random xnew ynew ;;
  Ok (random, random_new, s').

(** Sizes on which the interpolator accepts every query: an axis of at
    least two points spans [0,1]; an axis of one point only holds the query
    [0], so the target axis has at most one point. *)
Definition valid_axis (n N : nat) : Prop :=
  (2 <= n)%nat \/ (n = 1%nat /\ (N <= 1)%nat).

Definition valid_sizes (rand_size final_size : nat * nat) : Prop :=
  valid_axis (fst rand_size) (fst final_size)
  /\ valid_axis (snd rand_size) (snd final_size).

(** Two arrays with the same entries, up to the representation of a
    rational. *)
Definition mat_eq (m m' : matrix Q) : Prop := Forall2 (Forall2 Qeq) m m'.

Definition mat_xeq (m m' : matrix xval) : Prop := Forall2 (Forall2 xeq) m m'.

(** ** _calc_vs_weights

    The weights are [scales ** (1/VS1)] with [VS1 = -log(1 - vs/180)/0.6],
    normalised by their sum.  Logarithm and real power have no rational
    value, so the function is a parameter of the model. *)
Class VsWeights : Type :=
  _calc_vs_weights : list Z -> Q -> outcome (list Q).

(** ** stacked_field *)

(** [int(n * prop)] for a non-negative product. *)
Definition int_scaled (n : nat) (prop : Q) : nat :=
  Z.to_nat (Qfloor (of_nat n * prop)).

Section Stacked.
Context {G : Type} {RS : RandomState G} {VW : VsWeights}.

(** The loop [for scale, weight in zip(scales, weights)]. *)
Fixpoint stack_layers (sz : nat * nat) (sw : list (Z * Q))
         (field : matrix Q) (s : G) : outcome (matrix Q * G) :=
  match sw with
  | [] => Ok (field, s)
  | (scale, weight) :: rest =>
      let prop := Qpower 2 (- scale + 1) in
      r <- _random_at_scale
             (int_scaled (fst sz) prop, int_scaled (snd sz) prop) sz s ;;
      let '(_, i_field, s') := r in
      stack_layers sz rest
                   (mzip (fun f i => f + i * weight) field i_field) s'
  end.

(** The sum of the weighted layers, before normalisation. *)
Definition stacked_sum (vs : Q) (sz : nat * nat) (weights : option (list Q))
           (scales : list Z) (s : G) : outcome (matrix Q * G) :=
  let field := zeros (fst sz) (snd sz) in
  weights <- match weights with
             | None => _calc_vs_weights scales vs
             | Some w =>
                 _ <- assert (length w =? length scales)%nat ;;
                 Ok w
             end ;;
  stack_layers sz (combine scales weights) field s.

(** The min-max rescale and its two assertions.  When the shifted field
    has maximum [0] every quotient is [0/0 = NaN] and the assertion
    [np.min(field) == 0] fails. *)
Definition normalize (field : matrix Q) : outcome (matrix Q) :=
  mn <- list_min (flat field) ;;
  let field := mmap (fun x => x - mn) field in
  mx <- list_max (flat field) ;;
  if Qeq_bool mx 0 then Raises AssertionError
  else
    let field := mmap (fun x => x / mx) field in
    mn' <- list_min (flat field) ;;
    _ <- assert (Qeq_bool mn' 0) ;;
    mx' <- list_max (flat field) ;;
    _ <- assert (Qeq_bool mx' 1) ;;
    Ok field.

Definition stacked_field (vs : Q) (sz : nat * nat)
           (weights : option (list Q)) (scales : list Z) (s : G)
  : outcome (matrix Q * G) :=
  r <- stacked_sum vs sz weights scales s ;;
  field <- normalize (fst r) ;;
  Ok (field, snd r).
End Stacked.

(** Every scale leaves a coarse grid of at least two points per axis (or one
    point for a target axis of at most one point). *)
Definition scales_fit (sz : nat * nat) (sw : list (Z * Q)) : Prop :=
  Forall (fun p : Z * Q =>
            let prop := Qpower 2 (- fst p + 1) in
            valid_sizes (int_scaled (fst sz) prop, int_scaled (snd sz) prop)
                        sz)
         sw.

(** ** scipy.ndimage filters (mode "reflect")

    The boundary mode [reflect] continues a line [a b c d] as
    [d c b a | a b c d | d c b a]. *)
Definition reflect (n : nat) (k : Z) : nat :=
  let r := (k mod (2 * Z.of_nat n))%Z in
  Z.to_nat (if (r <? Z.of_nat n)%Z then r else (2 * Z.of_nat n - 1 - r)%Z).

(** [correlate1d(line, weights)]: the weights are centred on the pixel. *)
Definition correlate1d (weights line : list Q) : list Q :=
  let n := length line in
  let c := Z.of_nat (length weights / 2) in
  map (fun i =>
         Qsum (map (fun j =>
                      nth j weights 0
                      * nth (reflect n (Z.of_nat i + Z.of_nat j - c)) line 0)
                   (seq 0 (length weights))))
      (seq 0 n).

(** [uniform_filter1d(line, size)]: the mean over the centred window. *)
Definition uniform_filter1d (width : nat) (line : list Q) : list Q :=
  let n := length line in
  let c := Z.of_nat (width / 2) in
  map (fun i =>
         Qsum (map (fun t => nth (reflect n (Z.of_nat i - c + Z.of_nat t)) line 0)
                   (seq 0 width))
         / of_nat width)
      (seq 0 n).

Definition transpose (m : matrix Q) : matrix Q :=
  map (fun j => map (fun row => nth j row 0) m) (seq 0 (length (hd [] m))).

(** A line filter along the last axis (within rows) and along axis 0. *)
Definition along_rows (f : list Q -> list Q) (m : matrix Q) : matrix Q :=
  map f m.
Definition along_cols (f : list Q -> list Q) (m : matrix Q) : matrix Q :=
  transpose (map f (transpose m)).

(** [sobel(input)] with its default [axis=-1]: the derivative [-1 0 1] along
    the last axis, then the smoothing [1 2 1] along every other axis. *)
Definition sobel (input : matrix Q) : matrix Q :=
  along_cols (correlate1d [1; 2; 1])
             (along_rows (correlate1d [-1; 0; 1]) input).

(** [uniform_filter(input, size)]: one pass per axis of size above one. *)
Definition uniform_filter (input : matrix Q) (width : nat) : matrix Q :=
  if (width <=? 1)%nat then input
  else along_rows (uniform_filter1d width)
                  (along_cols (uniform_filter1d width) input).

(** ** _find_edges *)

Definition _find_edges (base_mask : matrix Q) (width : nat)
  : outcome (matrix Q * matrix bool) :=
  let edges := mmap Qabs (sobel base_mask) in
  let smoothed := uniform_filter edges width in
  let smoothed :=
    mmap (fun x => if Qltb x (1 # 100000) then 0 else x) smoothed in
  baseline <- quantile (filter (Qltb 0) (flat smoothed)) (1 # 2) ;;
  let smoothed_binary := mmap (Qltb baseline) smoothed in
  Ok (edges, smoothed_binary).

(** The derivative along axis 0, [sobel(input, axis=0)]: what a
    two-axis gradient would use besides [sobel]. *)
Definition sobel_axis0 (input : matrix Q) : matrix Q :=
  along_rows (correlate1d [1; 2; 1])
             (along_cols (correlate1d [-1; 0; 1]) input).

(** Following the spec's words: the squared gradient magnitude that
    combines the derivatives along both axes. *)
Definition spec_gradient_magnitude_sq (input : matrix Q) (i j : nat) : Q :=
  pix 0 (sobel input) i j * pix 0 (sobel input) i j
  + pix 0 (sobel_axis0 input) i j * pix 0 (sobel_axis0 input) i j.

(** The 3x3 Sobel kernel for the derivative along the last axis, applied at
    one pixel of a [rows] x [cols] array with reflected borders. *)
Definition sobel_last_axis_at (input : matrix Q) (rows cols i j : nat) : Q :=
  let d := fun k : nat =>
    pix 0 input k (reflect cols (Z.of_nat j + 1))
    - pix 0 input k (reflect cols (Z.of_nat j - 1)) in
  d (reflect rows (Z.of_nat i - 1)) + 2 * d i
  + d (reflect rows (Z.of_nat i + 1)).

(** Maps that preserve the order of the rationals, strictly. *)
Definition increasing (f : Q -> Q) : Prop :=
  forall a b, (a <= b -> f a <= f b) /\ (a < b -> f a < f b).

(** What [clip01] can return: a number of [0,1] or [NaN]. *)
Definition unit_or_nan (v : xval) : Prop :=
  match v with
  | Fin c => 0 <= c <= 1
  | NaN => True
  | _ => False
  end.

(** What a mean of such values can be: a non-negative number or [NaN]. *)
Definition nonneg_or_nan (v : xval) : Prop :=
  match v with
  | Fin c => 0 <= c
  | NaN => True
  | _ => False
  end.

(** A [rows] x [cols] array. *)
Definition rect {A : Type} (rows cols : nat) (m : matrix A) : Prop :=
  length m = rows /\ Forall (fun r => length r = cols) m.

(** ** shift_mean_lave *)

(** [a[a > 1] = 1] then [a[a < 0] = 0]. *)
Definition clip01 (v : xval) : xval :=
  let v := if xltb (Fin 1) v then Fin 1 else v in
  if xltb v (Fin 0) then Fin 0 else v.

(** One pixel of [(field - field_min) / (field_max - field_min) * (1-ktmin)
    + ktmin]. *)
Definition rescaled (field_min field_max ktmin x : Q) : xval :=
  xadd (xmul (xdiv (Fin (x - field_min)) (Fin (field_max - field_min)))
             (Fin (1 - ktmin)))
       (Fin ktmin).

Definition shift_mean_lave (field : matrix Q)
           (ktmean ktmin min_quant max_quant : Q) : outcome (matrix xval) :=
  let cloudy := filter (fun x => Qltb x 1) (flat field) in
  field_max <- quantile cloudy max_quant ;;
  field_min <- quantile cloudy min_quant ;;
  let field_out := mmap (rescaled field_min field_max ktmin) field in
  let field_out := mmap clip01 field_out in
  let tgtsum := of_nat (size field_out) * ktmean in
  let diff_sum :=
    tgtsum
    - of_nat (count_true (map (fun v => xeqb v (Fin 1)) (flat field_out))) in
  let below := filter (fun v => xltb v (Fin 1)) (flat field_out) in
  let tgt_mean := xdiv (Fin diff_sum) (Fin (of_nat (length below))) in
  let current_cloud_mean := xmean below in
  let field_out :=
    if Qltb 0 diff_sum
    then mmap (fun v =>
                 if negb (xeqb v (Fin 1))
                 then xmul (xdiv tgt_mean current_cloud_mean) v
                 else v)
              field_out
    else field_out in
  Ok field_out.

(** The defaults of the keyword arguments. *)
Definition default_ktmin : Q := 2 # 10.
Definition default_min_quant : Q := 5 # 1000.
Definition default_max_quant : Q := 995 # 1000.

(** ** lave_scaling_exact

    [clear_mask] is a numeric 0/1 array, [edge_mask] a boolean one.  Arrays
    of different shapes make numpy refuse the mask indexing. *)

Record lave_stages : Type := {
  clouds3 : matrix xval;
  ce : matrix xval;
  diff_sum : xval;
  tgt_cloud_mean : xval;
  current_cloud_mean : xval;
  clouds4 : matrix xval;
  clouds5 : matrix xval
}.

(** [np.bitwise_or(clear_mask > 0, edge_mask) == 0]: neither clear nor
    edge. *)
Definition plain_cloud (clear_mask : matrix Q) (edge_mask : matrix bool)
  : matrix bool :=
  mmap negb (mzip orb (mmap (Qltb 0) clear_mask) edge_mask).

Definition lave_trace (field clear_mask : matrix Q) (edge_mask : matrix bool)
           (ktmean ktmax kt1pct max_quant : Q) : outcome lave_stages :=
  if negb (same_shape field clear_mask && same_shape field edge_mask)
  then Raises IndexError
  else
    let is_clear := mmap (Qltb 0) clear_mask in
    let not_clear := mmap (fun c => Qeq_bool c 0) clear_mask in
    field_max <- quantile (select not_clear field) max_quant ;;
    let c3 :=
      mmap (fun x =>
              xsub (Fin 1) (xdiv (Fin (x * (1 - kt1pct))) (Fin field_max)))
           field in
    let c3 := mmap clip01 c3 in
    let mean_c3 := xmean (flat c3) in
    mn <- xlist_min (flat c3) ;;
    let nmin_c3 := xdiv mn mean_c3 in
    mx <- xlist_max (flat c3) ;;
    let nrange_c3 := xsub (xdiv mx mean_c3) nmin_c3 in
    let enh :=
      mmap (fun c =>
              xadd (Fin 1)
                   (xmul (xdiv (xsub (xdiv c mean_c3) nmin_c3) nrange_c3)
                         (Fin (ktmax - 1))))
           c3 in
    let cloud_mask := plain_cloud clear_mask edge_mask in
    let tgtsum := of_nat (size field) * ktmean in
    let dsum :=
      xsub (Fin (tgtsum - Qsum (flat clear_mask)))
           (xsum (select (mzip andb edge_mask not_clear) enh)) in
    let tgt := xdiv dsum (Fin (of_nat (count_true (flat cloud_mask)))) in
    let cur := xmean (select cloud_mask c3) in
    let c4 :=
      if xltb (Fin 0) dsum then mmap (xmul (xdiv tgt cur)) c3 else c3 in
    let c5 := assign edge_mask enh c4 in
    let c5 := assign is_clear (mmap (fun _ => Fin 1) c5) c5 in
    Ok {| clouds3 := c3; ce := enh; diff_sum := dsum;
          tgt_cloud_mean := tgt; current_cloud_mean := cur;
          clouds4 := c4; clouds5 := c5 |}.

Definition lave_scaling_exact (field clear_mask : matrix Q)
           (edge_mask : matrix bool) (ktmean ktmax kt1pct max_quant : Q)
  : outcome (matrix xval) :=
  t <- lave_trace field clear_mask edge_mask ktmean ktmax kt1pct max_quant ;;
  Ok (clouds5 t).

(** ** A concrete generator

    A linear congruential generator on 31 bits; it stands for the seeded
    numpy generator wherever a property is evaluated on an example. *)
Definition lcg_sample (s : Z) : Q * Z :=
  let s' := ((1103515245 * s + 12345) mod 2147483648)%Z in
  (Qmake s' 2147483648, s').

#[export] Instance lcg : RandomState Z := lcg_sample.

(** A weight rule that refuses every call: what [scales ** x] does when
    [scales] is the default tuple rather than an array. *)
Definition vs_weights_on_tuple : VsWeights := fun _ _ => Raises TypeError.

(** The realised clear fraction of a mask: count of 1s over total pixels. *)
Definition clear_fraction (mask : matrix Q) : Q :=
  of_nat (count_true (map (fun x => Qeq_bool x 1) (flat mask)))
  / of_nat (size mask).

(** Positions of an array. *)
Definition inside {A : Type} (m : matrix A) (i j : nat) : Prop :=
  (i < length m)%nat /\ (j < length (nth i m []))%nat.

(** * Notions used by the further properties *)

(** A 0/1 array. *)
Definition binary (m : matrix Q) : Prop :=
  Forall (Forall (fun x => x = 0 \/ x = 1)) m.

(** The number of 1s of a mask. *)
Definition clear_count (mask : matrix Q) : nat :=
  count_true (map (fun x => Qeq_bool x 1) (flat mask)).

(** The generator after [n] draws. *)
Fixpoint draws {G : Type} {RS : RandomState G} (n : nat) (s : G) : G :=
  match n with
  | O => s
  | S k => draws k (snd (random_sample s))
  end.

(** The default [scales=(1, 2, 3, 4, 5, 6, 7)] of [stacked_field]. *)
Definition default_scales : list Z := [1; 2; 3; 4; 5; 6; 7]%Z.

(** An array whose rows are each constant: no variation along the last
    axis. *)
Definition constant_rows (m : matrix Q) : Prop :=
  Forall (fun r => exists c, Forall (fun x => x == c) r) m.

(** An array of zeros, up to the representation of a rational. *)
Definition zero_array (m : matrix Q) : Prop :=
  Forall (Forall (fun x => x == 0)) m.




(** The number held by a finite value. *)
Definition fin_part (v : xval) : Q :=
  match v with
  | Fin q => q
  | _ => 0
  end.

(** ** _calc_wavelet_weights

    [waves] holds one wavelet mode per row.  [np.nanmean(., axis=1)] sums
    each row with its [NaN] entries replaced by 0 and divides by the number
    of entries that are not [NaN]; a row without such an entry gives
    [0/0 = NaN]. *)
Definition is_nan (v : xval) : bool :=
  match v with
  | NaN => true
  | _ => false
  end.

Definition nanmean (row : list xval) : xval :=
  let tot := xsum (map (fun v => if is_nan v then Fin 0 else v) row) in
  let cnt := length (filter (fun v => negb (is_nan v)) row) in
  xdiv tot (Fin (of_nat cnt)).

Definition _calc_wavelet_weights (waves : matrix xval) : list xval :=
  let scales := map (fun row => nanmean (map (fun v => xmul v v) row)) waves in
  let total := xsum scales in
  map (fun s => xdiv s total) scales.

(** A value that is zero or not a number. *)
Definition zero_or_nan (v : xval) : Prop :=
  match v with
  | Fin q => q == 0
  | NaN => True
  | _ => False
  end.

(** ** get_settings_from_timeseries

    The series [kt_ts] is a 1-D array of finite values.  Two callees lie
    outside this module and are parameters: [variability_score_kt] is the
    outcome of [variability_score(kt)] (the argument is the module-level
    name [kt], not [kt_ts]) and [_compute_wavelet] stands for
    [pvlib.scaling._compute_wavelet], which returns the wavelet modes and
    their time scales.  [np.std] cannot raise and its result is not used. *)
Section Settings.
Variable variability_score_kt : outcome Q.
Variable _compute_wavelet : list Q -> outcome (matrix xval * list Q).

End Settings.

(** The number of draws the layers of [stacked_field] take: one per point
    of each coarse grid. *)
Fixpoint layer_draws (sz : nat * nat) (scales : list Z) : nat :=
  match scales with
  | [] => 0
  | scale :: rest =>
      let prop := Qpower 2 (- scale + 1) in
      (int_scaled (fst sz) prop * int_scaled (snd sz) prop
       + layer_draws sz rest)%nat
  end.

(** Two arrays related entry by entry. *)
Definition mat_rel (R : Q -> Q -> Prop) (m m' : matrix Q) : Prop :=
  Forall2 (Forall2 R) m m'.

(** * Properties *)

(** ** Rationals and arrays *)

Lemma Qltb_lt (x y : Q) : Qltb x y = true <-> x < y.
Proof.
  unfold Qltb. rewrite negb_true_iff. split; intro L.
  - apply Qnot_le_lt. intro G. apply Qle_bool_iff in G. congruence.
  - destruct (Qle_bool y x) eqn:E; [|reflexivity].
    apply Qle_bool_iff in E. exfalso. apply (Qlt_not_le _ _ L E).
Qed.

Lemma Qltb_ge (x y : Q) : Qltb x y = false <-> y <= x.
Proof. unfold Qltb. rewrite negb_false_iff. apply Qle_bool_iff. Qed.

#[global] Instance Qltb_proper : Proper (Qeq ==> Qeq ==> eq) Qltb.
Proof. intros a b E c d F. unfold Qltb. now rewrite E, F. Qed.

Lemma pix_mmap {A B : Type} (f : A -> B) (da : A) (db : B) (m : matrix A)
      (i j : nat) :
  inside m i j -> pix db (mmap f m) i j = f (pix da m i j).
Proof.
  intros [Hi Hj]. unfold pix, mmap.
  rewrite (nth_indep _ [] (map f []))
    by (rewrite length_map; exact Hi).
  rewrite map_nth. rewrite (nth_indep _ db (f da)).
  - apply map_nth.
  - rewrite length_map. exact Hj.
Qed.

Lemma inside_mmap {A B : Type} (f : A -> B) (m : matrix A) (i j : nat) :
  inside (mmap f m) i j <-> inside m i j.
Proof.
  unfold inside, mmap. rewrite length_map. split; intros [Hi Hj]; split; auto.
  - rewrite (nth_indep _ [] (map f [])) in Hj by (rewrite length_map; exact Hi).
    rewrite map_nth, length_map in Hj. exact Hj.
  - rewrite (nth_indep _ [] (map f [])) by (rewrite length_map; exact Hi).
    rewrite map_nth, length_map. exact Hj.
Qed.

Lemma flat_mmap {A B : Type} (f : A -> B) (m : matrix A) :
  flat (mmap f m) = map f (flat m).
Proof. unfold flat, mmap. symmetry. apply concat_map. Qed.

Lemma size_mmap {A B : Type} (f : A -> B) (m : matrix A) :
  size (mmap f m) = size m.
Proof. unfold size. rewrite flat_mmap. apply length_map. Qed.

Lemma of_nat_S (n : nat) : of_nat (S n) == of_nat n + 1.
Proof.
  unfold of_nat. rewrite Nat2Z.inj_succ. unfold Z.succ.
  rewrite inject_Z_plus. reflexivity.
Qed.

Lemma of_nat_nonneg (n : nat) : 0 <= of_nat n.
Proof.
  unfold of_nat. change 0 with (inject_Z 0). rewrite <- Zle_Qle. lia.
Qed.

Lemma of_nat_pos (n : nat) : (0 < n)%nat -> 0 < of_nat n.
Proof.
  intro P. unfold of_nat. change 0 with (inject_Z 0). rewrite <- Zlt_Qlt. lia.
Qed.

Lemma of_nat_le (n m : nat) : (n <= m)%nat -> of_nat n <= of_nat m.
Proof. intro L. unfold of_nat. rewrite <- Zle_Qle. lia. Qed.

Lemma of_nat_lt (n m : nat) : (n < m)%nat -> of_nat n < of_nat m.
Proof. intro L. unfold of_nat. rewrite <- Zlt_Qlt. lia. Qed.

(** ** _clip_field *)

Lemma clip_pixel_cases (q x : Q) :
  (q < x /\ clip_pixel q x = 0) \/ (x <= q /\ clip_pixel q x = 1).
Proof.
  unfold clip_pixel. destruct (Qltb q x) eqn:E.
  - left. split; [apply Qltb_lt, E | reflexivity].
  - right. split; [apply Qltb_ge, E | reflexivity].
Qed.

Lemma Qsum_clip_count (q : Q) (l : list Q) :
  Qsum (map (clip_pixel q) l)
  == of_nat (count_true (map (fun x => Qeq_bool x 1) (map (clip_pixel q) l))).
Proof.
  induction l as [|x l IH]; [reflexivity|].
  cbn [map Qsum fold_right]. fold (Qsum (map (clip_pixel q) l)). rewrite IH.
  unfold count_true. cbn [map filter].
  destruct (clip_pixel_cases q x) as [[_ E]|[_ E]]; rewrite E.
  - change (Qeq_bool 0 1) with false. cbn iota. ring.
  - change (Qeq_bool 1 1) with true. cbn iota. cbn [length].
    rewrite of_nat_S. ring.
Qed.

Lemma quantile_ok (a : list Q) (q : Q) :
  a <> [] -> 0 <= q <= 1 -> quantile a q = Ok (quantile_sorted (sort a) q).
Proof.
  intros N [L U]. unfold quantile.
  apply Qle_bool_iff in L. apply Qle_bool_iff in U. rewrite L, U. cbn.
  destruct a; [congruence | reflexivity].
Qed.

#[global] Instance isclose_proper : Proper (Qeq ==> Qeq ==> eq) isclose.
Proof.
  intros a b E c d F. unfold isclose.
  apply Qleb_comp; [rewrite E, F | rewrite F]; reflexivity.
Qed.

Lemma clip_field_run (field : matrix Q) (f : Q) :
  flat field <> [] -> 0 <= f <= 1 ->
  let q := quantile_sorted (sort (flat field)) f in
  let mask := mmap (clip_pixel q) field in
  (isclose f (clear_fraction mask) = true /\ _clip_field field f = Ok mask)
  \/ (isclose f (clear_fraction mask) = false
      /\ _clip_field field f = Raises AssertionError).
Proof.
  intros N R q mask. unfold _clip_field.
  rewrite (quantile_ok _ _ N R). cbn [bind]. fold q. fold mask.
  assert (E : Qsum (flat mask) / of_nat (size field)
              == clear_fraction mask).
  { unfold clear_fraction, mask. rewrite size_mmap, flat_mmap.
    rewrite Qsum_clip_count. reflexivity. }
  rewrite (isclose_proper f f (Qeq_refl f) _ _ E).
  destruct (isclose f (clear_fraction mask)); cbn; auto.
Qed.

(** C1 (as amended).  For a non-empty field and a clear fraction [f] in
    (0,1), [_clip_field] takes [q], the [f]-quantile of the pixel values;
    unless its closeness assertion fails, it returns a mask in which exactly
    the pixels with value strictly greater than [q] are 0 (cloudy) and all
    other pixels are 1 (clear). *)
Theorem clip_field_above_quantile_is_cloudy (field : matrix Q) (f : Q) :
  flat field <> [] -> 0 < f < 1 ->
  exists q,
    quantile (flat field) f = Ok q
    /\ (_clip_field field f = Raises AssertionError
        \/ exists mask,
            _clip_field field f = Ok mask
            /\ forall i j, inside field i j ->
                 inside mask i j
                 /\ (q < pix 0 field i j -> pix 0 mask i j = 0)
                 /\ (pix 0 field i j <= q -> pix 0 mask i j = 1)).
Proof.
  intros N [F0 F1].
  assert (R : 0 <= f <= 1) by (split; apply Qlt_le_weak; assumption).
  exists (quantile_sorted (sort (flat field)) f). split.
  - apply quantile_ok; assumption.
  - destruct (clip_field_run field f N R) as [[_ E]|[_ E]]; [right | left; exact E].
    eexists. split; [exact E|]. intros i j I.
    split; [apply inside_mmap; exact I|].
    rewrite (pix_mmap _ 0 0 _ _ _ I).
    destruct (clip_pixel_cases (quantile_sorted (sort (flat field)) f)
                               (pix 0 field i j)) as [[L E']|[L E']];
      split; intro G; try exact E'.
    + exfalso. apply (Qlt_not_le _ _ L G).
    + exfalso. apply (Qlt_not_le _ _ G L).
Qed.

Lemma clip_field_above_quantile_is_cloudy_witness :
  exists q,
    quantile (flat [[0; 1]]) (1 # 2) = Ok q
    /\ (_clip_field [[0; 1]] (1 # 2) = Raises AssertionError
        \/ exists mask,
            _clip_field [[0; 1]] (1 # 2) = Ok mask
            /\ forall i j, inside [[0; 1]] i j ->
                 inside mask i j
                 /\ (q < pix 0 [[0; 1]] i j -> pix 0 mask i j = 0)
                 /\ (pix 0 [[0; 1]] i j <= q -> pix 0 mask i j = 1)).
Proof.
  apply (clip_field_above_quantile_is_cloudy [[0; 1]] (1 # 2)).
  - discriminate.
  - split; reflexivity.
Defined.

(** C1 (as stated) fails: on the field [0 1] with [f = 1/2] the quantile is
    [1/2]; the pixel of value 1 lies strictly above it and is marked 0. *)
Lemma clip_field_above_quantile_not_clear :
  quantile (flat [[0; 1]]) (1 # 2) = Ok (1 # 2)
  /\ _clip_field [[0; 1]] (1 # 2) = Ok [[1; 0]]
  /\ (1 # 2) < pix 0 [[0; 1]] 0 1
  /\ ~ pix 0 [[1; 0]] 0 1 == 1.
Proof.
  split; [vm_compute; reflexivity|].
  split; [vm_compute; reflexivity|].
  split; [reflexivity|].
  cbn. intro E. discriminate E.
Qed.

(** C7 (as amended).  For a non-empty field and [f] in (0,1),
    [_clip_field] either fails (its assertion raises) or returns a mask whose
    realised clear fraction [r] satisfies the test of [np.isclose]:
    [|f - r| <= 1e-8 + 1e-3 * |r|], a tolerance relative to [r] with an
    absolute term. *)
Theorem clip_field_fraction_is_close (field : matrix Q) (f : Q) :
  flat field <> [] -> 0 < f < 1 ->
  _clip_field field f = Raises AssertionError
  \/ exists mask,
      _clip_field field f = Ok mask
      /\ Qabs (f - clear_fraction mask)
         <= atol + rtol * Qabs (clear_fraction mask).
Proof.
  intros N [F0 F1].
  assert (R : 0 <= f <= 1) by (split; apply Qlt_le_weak; assumption).
  destruct (clip_field_run field f N R) as [[C E]|[_ E]]; [right | left; exact E].
  eexists. split; [exact E|]. apply Qle_bool_iff. exact C.
Qed.

Lemma clip_field_fraction_is_close_witness :
  _clip_field [[0; 1]] (1 # 2) = Raises AssertionError
  \/ exists mask,
      _clip_field [[0; 1]] (1 # 2) = Ok mask
      /\ Qabs ((1 # 2) - clear_fraction mask)
         <= atol + rtol * Qabs (clear_fraction mask).
Proof.
  apply (clip_field_fraction_is_close [[0; 1]] (1 # 2)).
  - discriminate.
  - split; reflexivity.
Defined.

(** C7 (as stated) fails: with [f = 0.4995] the field [0 1] yields a mask
    of clear fraction [0.5], returned without error although
    [|0.5 - f| = 0.0005] exceeds [1e-3 * f = 0.0004995]. *)
Lemma clip_field_returns_outside_relative_tolerance :
  _clip_field [[0; 1]] (999 # 2000) = Ok [[1; 0]]
  /\ clear_fraction [[1; 0]] == 1 # 2
  /\ ~ Qabs (clear_fraction [[1; 0]] - (999 # 2000)) <= rtol * (999 # 2000).
Proof.
  split; [vm_compute; reflexivity|].
  split; [reflexivity|].
  intro L. vm_compute in L. apply L. reflexivity.
Qed.

(** ** Minimum and maximum under an increasing map *)

Lemma Qmin_increasing (f : Q -> Q) (a b : Q) :
  increasing f -> f (Qmin a b) = Qmin (f a) (f b).
Proof.
  intro I. unfold Qmin, GenericMinMax.gmin.
  destruct (a ?= b) eqn:C.
  - apply Qeq_alt in C.
    assert (L : f a <= f b) by (apply I; rewrite C; apply Qle_refl).
    pose proof (proj1 (Qle_alt _ _) L) as L'.
    destruct (f a ?= f b); try reflexivity.
    exfalso. apply L'. reflexivity.
  - apply Qlt_alt in C. apply I in C.
    now rewrite (proj1 (Qlt_alt _ _) C).
  - apply Qgt_alt in C. apply I in C.
    now rewrite (proj1 (Qgt_alt _ _) C).
Qed.

Lemma Qmax_increasing (f : Q -> Q) (a b : Q) :
  increasing f -> f (Qmax a b) = Qmax (f a) (f b).
Proof.
  intro I. unfold Qmax, GenericMinMax.gmax.
  destruct (a ?= b) eqn:C.
  - apply Qeq_alt in C.
    assert (L : f b <= f a) by (apply I; rewrite C; apply Qle_refl).
    assert (L' : f a <= f b) by (apply I; rewrite C; apply Qle_refl).
    destruct (f a ?= f b) eqn:D; try reflexivity.
    + apply Qlt_alt in D. exfalso. apply (Qlt_not_le _ _ D L).
  - apply Qlt_alt in C. apply I in C.
    now rewrite (proj1 (Qlt_alt _ _) C).
  - apply Qgt_alt in C. apply I in C.
    now rewrite (proj1 (Qgt_alt _ _) C).
Qed.

Lemma fold_min_increasing (f : Q -> Q) (l : list Q) (x : Q) :
  increasing f -> fold_left Qmin (map f l) (f x) = f (fold_left Qmin l x).
Proof.
  intro I. revert x. induction l as [|y l IH]; intro x; [reflexivity|].
  cbn. rewrite <- (Qmin_increasing f x y I). apply IH.
Qed.

Lemma fold_max_increasing (f : Q -> Q) (l : list Q) (x : Q) :
  increasing f -> fold_left Qmax (map f l) (f x) = f (fold_left Qmax l x).
Proof.
  intro I. revert x. induction l as [|y l IH]; intro x; [reflexivity|].
  cbn. rewrite <- (Qmax_increasing f x y I). apply IH.
Qed.

Lemma list_min_map (f : Q -> Q) (l : list Q) (m : Q) :
  increasing f -> list_min l = Ok m -> list_min (map f l) = Ok (f m).
Proof.
  intros I E. destruct l as [|x t]; [discriminate|].
  cbn in *. injection E as <-. now rewrite fold_min_increasing.
Qed.

Lemma list_max_map (f : Q -> Q) (l : list Q) (m : Q) :
  increasing f -> list_max l = Ok m -> list_max (map f l) = Ok (f m).
Proof.
  intros I E. destruct l as [|x t]; [discriminate|].
  cbn in *. injection E as <-. now rewrite fold_max_increasing.
Qed.

Lemma increasing_shift (c : Q) : increasing (fun x => x - c).
Proof. intros a b. split; intro L; lra. Qed.

Lemma increasing_scale (c : Q) : 0 < c -> increasing (fun x => x / c).
Proof.
  intros P a b. unfold Qdiv.
  assert (Pi : 0 < / c) by (apply Qinv_lt_0_compat; exact P).
  split; intro L.
  - apply Qmult_le_compat_r; [exact L | apply Qlt_le_weak; exact Pi].
  - apply Qmult_lt_compat_r; assumption.
Qed.

(** ** stacked_field *)

Lemma normalize_spread (field : matrix Q) (lo hi : Q) :
  list_min (flat field) = Ok lo -> list_max (flat field) = Ok hi -> lo < hi ->
  exists out lo' hi',
    normalize field = Ok out
    /\ list_min (flat out) = Ok lo' /\ lo' == 0
    /\ list_max (flat out) = Ok hi' /\ hi' == 1.
Proof.
  intros Emin Emax Lt.
  set (sh := fun x : Q => x - lo).
  set (sc := fun x : Q => x / sh hi).
  assert (P : 0 < sh hi) by (unfold sh; lra).
  assert (Ish : increasing sh) by apply increasing_shift.
  assert (Isc : increasing sc) by (apply increasing_scale; exact P).
  assert (Z0 : sc (sh lo) == 0).
  { unfold sc, sh in *. field. lra. }
  assert (Z1 : sc (sh hi) == 1).
  { unfold sc, sh in *. field. lra. }
  exists (mmap sc (mmap sh field)), (sc (sh lo)), (sc (sh hi)).
  assert (M1 : list_min (flat (mmap sc (mmap sh field))) = Ok (sc (sh lo))).
  { rewrite !flat_mmap. now apply list_min_map, list_min_map. }
  assert (M2 : list_max (flat (mmap sc (mmap sh field))) = Ok (sc (sh hi))).
  { rewrite !flat_mmap. now apply list_max_map, list_max_map. }
  repeat split; try assumption.
  unfold normalize. rewrite Emin. cbn [bind]. fold sh.
  rewrite flat_mmap, (list_max_map sh _ hi Ish Emax). cbn [bind].
  destruct (Qeq_bool (sh hi) 0) eqn:D.
  - apply Qeq_bool_iff in D. rewrite D in P. exfalso. exact (Qlt_irrefl _ P).
  - fold sc. rewrite M1. cbn [bind].
    rewrite (Qeq_eq_bool _ _ Z0). cbn [assert bind].
    rewrite M2. cbn [bind]. rewrite (Qeq_eq_bool _ _ Z1). reflexivity.
Qed.

(** C2.  Whenever the layers are generated and their weighted sum is not
    constant (its minimum lies strictly below its maximum), [stacked_field]
    returns a field whose minimum is 0 and whose maximum is 1: both
    assertions after the min-max normalisation pass. *)
Theorem stacked_field_min_0_max_1 {G : Type} {RS : RandomState G}
        {VW : VsWeights}
        (vs : Q) (sz : nat * nat) (weights : option (list Q))
        (scales : list Z) (s s' : G) (acc : matrix Q) :
  stacked_sum vs sz weights scales s = Ok (acc, s') ->
  (exists lo hi,
      list_min (flat acc) = Ok lo /\ list_max (flat acc) = Ok hi /\ lo < hi) ->
  exists field lo' hi',
    stacked_field vs sz weights scales s = Ok (field, s')
    /\ list_min (flat field) = Ok lo' /\ lo' == 0
    /\ list_max (flat field) = Ok hi' /\ hi' == 1.
Proof.
  intros E (lo & hi & Emin & Emax & Lt).
  destruct (normalize_spread acc lo hi Emin Emax Lt)
    as (out & lo' & hi' & N & A & A0 & B & B1).
  exists out, lo', hi'. repeat split; try assumption.
  unfold stacked_field. rewrite E. cbn [bind fst snd]. rewrite N. reflexivity.
Qed.

Lemma stacked_field_min_0_max_1_witness :
  exists s' field lo' hi',
    stacked_field (VW := vs_weights_on_tuple)
                  40 (4, 4)%nat (Some [1 # 2; 1 # 2]) [1; 2]%Z 42%Z
    = Ok (field, s')
    /\ list_min (flat field) = Ok lo' /\ lo' == 0
    /\ list_max (flat field) = Ok hi' /\ hi' == 1.
Proof.
  eexists.
  eapply (stacked_field_min_0_max_1 (VW := vs_weights_on_tuple)
            40 (4, 4)%nat (Some [1 # 2; 1 # 2]) [1; 2]%Z 42%Z).
  - vm_compute. reflexivity.
  - eexists. eexists. split; [vm_compute; reflexivity|].
    split; [vm_compute; reflexivity|]. vm_compute. reflexivity.
Defined.

(** ** The random grid *)

Section GeneratorFacts.
Context {G : Type} {RS : RandomState G}.

Lemma rand_row_length (c : nat) (s : G) : length (fst (rand_row c s)) = c.
Proof.
  revert s. induction c as [|c IH]; intro s; [reflexivity|].
  cbn. destruct (random_sample s) as [x s1].
  specialize (IH s1). destruct (rand_row c s1) as [row s2].
  cbn in *. now rewrite IH.
Qed.

Lemma rand_shape (r c : nat) (s : G) :
  length (fst (rand r c s)) = r
  /\ Forall (fun row => length row = c) (fst (rand r c s)).
Proof.
  revert s. induction r as [|r IH]; intro s; [split; constructor|].
  cbn. pose proof (rand_row_length c s) as L.
  destruct (rand_row c s) as [row s1].
  specialize (IH s1). destruct (rand r c s1) as [m s2].
  cbn in *. destruct IH as [IH1 IH2]. split; [now rewrite IH1|].
  constructor; assumption.
Qed.

Lemma rand_row_range {RR : RandomRange G} (c : nat) (s : G) :
  Forall (fun x => 0 <= x < 1) (fst (rand_row c s)).
Proof.
  revert s. induction c as [|c IH]; intro s; [constructor|].
  cbn. pose proof (sample_range s) as R.
  destruct (random_sample s) as [x s1].
  specialize (IH s1). destruct (rand_row c s1) as [row s2].
  cbn in *. constructor; assumption.
Qed.

Lemma rand_range {RR : RandomRange G} (r c : nat) (s : G) :
  Forall (Forall (fun x => 0 <= x < 1)) (fst (rand r c s)).
Proof.
  revert s. induction r as [|r IH]; intro s; [constructor|].
  cbn. pose proof (rand_row_range c s) as R.
  destruct (rand_row c s) as [row s1].
  specialize (IH s1). destruct (rand r c s1) as [m s2].
  cbn in *. constructor; assumption.
Qed.
End GeneratorFacts.

(** ** linspace *)

Lemma linspace_length (n : nat) : length (linspace n) = n.
Proof. unfold linspace. now rewrite length_map, length_seq. Qed.

Lemma linspace_nth (n k : nat) :
  (k < n)%nat -> nth k (linspace n) 0 = of_nat k / of_nat (n - 1).
Proof.
  intro L. unfold linspace.
  set (f := fun i : nat => of_nat i / of_nat (n - 1)).
  rewrite (nth_indep _ 0 (f 0%nat)) by (now rewrite length_map, length_seq).
  rewrite map_nth, seq_nth by exact L. reflexivity.
Qed.

Lemma linspace_ascending (n : nat) : ascending (linspace n).
Proof.
  intros i j L H. rewrite linspace_length in H.
  rewrite !linspace_nth by lia.
  assert (P : 0 < of_nat (n - 1)) by (apply of_nat_pos; lia).
  unfold Qdiv. apply Qmult_lt_compat_r.
  - apply Qinv_lt_0_compat, P.
  - apply of_nat_lt, L.
Qed.

Lemma linspace_head (n : nat) : hd 0 (linspace n) == 0.
Proof.
  destruct n as [|n]; [reflexivity|].
  change (hd 0 (linspace (S n))) with (nth 0 (linspace (S n)) 0).
  rewrite linspace_nth by lia. unfold Qdiv. change (of_nat 0) with 0. ring.
Qed.

Lemma last_nth_pred {A : Type} (l : list A) (d : A) :
  last l d = nth (length l - 1) l d.
Proof.
  induction l as [|a [|b t] IH]; try reflexivity.
  change (last (a :: b :: t) d) with (last (b :: t) d). rewrite IH.
  cbn [length]. replace (S (S (length t)) - 1)%nat with (S (length t)) by lia.
  cbn [nth]. now replace (S (length t) - 1)%nat with (length t) by lia.
Qed.

Lemma linspace_last (n : nat) : (2 <= n)%nat -> last (linspace n) 0 == 1.
Proof.
  intro N. rewrite last_nth_pred, linspace_length, linspace_nth by lia.
  field. intro Z. pose proof (of_nat_pos (n - 1) ltac:(lia)) as P.
  rewrite Z in P. exact (Qlt_irrefl _ P).
Qed.

Lemma linspace_unit (n k : nat) :
  (k < n)%nat -> 0 <= nth k (linspace n) 0 <= 1.
Proof.
  intro L. rewrite linspace_nth by exact L.
  destruct (Nat.eq_dec n 1) as [->|N].
  - replace k with 0%nat by lia. cbn. split; discriminate.
  - assert (P : 0 < of_nat (n - 1)) by (apply of_nat_pos; lia).
    split.
    + apply Qle_shift_div_l; [exact P|]. rewrite Qmult_0_l. apply of_nat_nonneg.
    + apply Qle_shift_div_r; [exact P|]. rewrite Qmult_1_l.
      apply of_nat_le. lia.
Qed.

(** ** Cells of the interpolator *)

Lemma leading_le_length (grid : list Q) (x : Q) :
  (leading_le grid x <= length grid)%nat.
Proof.
  induction grid as [|g t IH]; cbn; [lia|].
  destruct (Qle_bool g x); lia.
Qed.

Lemma leading_le_below (grid : list Q) (x : Q) (i : nat) :
  (i < leading_le grid x)%nat -> nth i grid 0 <= x.
Proof.
  revert i. induction grid as [|g t IH]; intros i L; cbn in L; [lia|].
  destruct (Qle_bool g x) eqn:E; [|lia].
  destruct i as [|i]; cbn.
  - apply Qle_bool_iff, E.
  - apply IH. lia.
Qed.

Lemma leading_le_above (grid : list Q) (x : Q) :
  (leading_le grid x < length grid)%nat ->
  x < nth (leading_le grid x) grid 0.
Proof.
  induction grid as [|g t IH]; cbn; [lia|].
  destruct (Qle_bool g x) eqn:E; intro L.
  - apply IH. lia.
  - apply Qltb_lt. unfold Qltb. now rewrite E.
Qed.

Lemma in_bounds_spec (grid : list Q) (x : Q) :
  in_bounds grid x = true ->
  nth 0 grid 0 <= x /\ x <= nth (length grid - 1) grid 0.
Proof.
  unfold in_bounds. rewrite andb_true_iff, !Qle_bool_iff.
  rewrite last_nth_pred. intros [A B]. split; [|exact B].
  destruct grid; exact A.
Qed.

Lemma find_indices_cell (grid : list Q) (x : Q) :
  grid <> [] -> ascending grid -> in_bounds grid x = true ->
  exists i0 i1 t,
    find_indices grid x = (i0, i1, t)
    /\ (i0 < length grid)%nat /\ (i1 < length grid)%nat /\ 0 <= t <= 1.
Proof.
  intros N Asc B. apply in_bounds_spec in B. destruct B as [B0 B1].
  unfold find_indices, find_interval_ascending.
  destruct (length grid) as [|[|m]] eqn:Len.
  - destruct grid; [congruence | discriminate].
  - exists 0%nat, 0%nat, 0. repeat split; try lia; discriminate.
  - set (n := S (S m)) in *.
    set (cnt := leading_le grid x).
    set (i := Nat.min (cnt - 1) (n - 2)).
    exists i, (S i), ((x - nth i grid 0) / (nth (S i) grid 0 - nth i grid 0)).
    assert (Hc : (cnt <= n)%nat)
      by (unfold cnt; rewrite <- Len; apply leading_le_length).
    split; [reflexivity|]. split; [unfold i, n; lia|].
    split; [unfold i, n; lia|].
    assert (P : 0 < nth (S i) grid 0 - nth i grid 0).
    { assert (A : nth i grid 0 < nth (S i) grid 0)
        by (apply Asc; [lia | rewrite Len; unfold i, n; lia]).
      lra. }
    assert (Lo : nth i grid 0 <= x).
    { destruct (Nat.eq_dec cnt 0) as [Z|NZ].
      - exfalso. pose proof (leading_le_above grid x) as A. fold cnt in A.
        rewrite Z in A. specialize (A ltac:(lia)).
        apply (Qlt_not_le _ _ A B0).
      - apply leading_le_below. fold cnt. unfold i, n. lia. }
    assert (Hi : x <= nth (S i) grid 0).
    { destruct (Nat.eq_dec cnt n) as [F|NF].
      - replace (S i) with (n - 1)%nat by (unfold i, n; lia). exact B1.
      - apply Qlt_le_weak.
        destruct (Nat.eq_dec cnt 0) as [Z|NZ].
        + exfalso. pose proof (leading_le_above grid x) as A. fold cnt in A.
          rewrite Z in A. specialize (A ltac:(lia)).
          apply (Qlt_not_le _ _ A B0).
        + replace (S i) with cnt by (unfold i, n; lia).
          apply leading_le_above. fold cnt. lia. }
    split.
    + apply Qle_shift_div_l; [exact P | lra].
    + apply Qle_shift_div_r; [exact P | lra].
Qed.

Lemma bilinear_bounds (a b c d tx ty lo hi : Q) :
  lo <= a <= hi -> lo <= b <= hi -> lo <= c <= hi -> lo <= d <= hi ->
  0 <= tx <= 1 -> 0 <= ty <= 1 ->
  lo <= a * ((1 - tx) * (1 - ty)) + b * ((1 - tx) * ty)
        + c * (tx * (1 - ty)) + d * (tx * ty) <= hi.
Proof.
  intros [A0 A1] [B0 B1] [C0 C1] [D0 D1] [X0 X1] [Y0 Y1].
  assert (W1 : 0 <= (1 - tx) * (1 - ty)) by (apply Qmult_le_0_compat; lra).
  assert (W2 : 0 <= (1 - tx) * ty) by (apply Qmult_le_0_compat; lra).
  assert (W3 : 0 <= tx * (1 - ty)) by (apply Qmult_le_0_compat; lra).
  assert (W4 : 0 <= tx * ty) by (apply Qmult_le_0_compat; lra).
  assert (Sum : (1 - tx) * (1 - ty) + (1 - tx) * ty + tx * (1 - ty) + tx * ty
                == 1) by ring.
  set (w1 := (1 - tx) * (1 - ty)) in *. set (w2 := (1 - tx) * ty) in *.
  set (w3 := tx * (1 - ty)) in *. set (w4 := tx * ty) in *.
  split; nra.
Qed.

Lemma evaluate_linear_bounds (gx gy : list Q) (values : matrix Q)
      (xq yq lo hi : Q) :
  gx <> [] -> gy <> [] -> ascending gx -> ascending gy ->
  in_bounds gx xq = true -> in_bounds gy yq = true ->
  (forall i j, (i < length gx)%nat -> (j < length gy)%nat ->
               lo <= pix 0 values i j <= hi) ->
  lo <= evaluate_linear gx gy values xq yq <= hi.
Proof.
  intros Nx Ny Ax Ay Bx By V. unfold evaluate_linear.
  destruct (find_indices_cell gx xq Nx Ax Bx)
    as (i0 & i1 & tx & -> & I0 & I1 & Tx).
  destruct (find_indices_cell gy yq Ny Ay By)
    as (j0 & j1 & ty & -> & J0 & J1 & Ty).
  apply bilinear_bounds; auto.
Qed.

Lemma mesh_pix (g : Q -> Q -> Q) (xnew ynew : list Q) (i j : nat) :
  (i < length xnew)%nat -> (j < length ynew)%nat ->
  pix 0 (map (fun xq => map (g xq) ynew) xnew) i j
  = g (nth i xnew 0) (nth j ynew 0).
Proof.
  intros Hi Hj. unfold pix.
  set (row := fun xq => map (g xq) ynew).
  rewrite (nth_indep _ [] (row 0)) by (now rewrite length_map).
  rewrite map_nth. unfold row.
  rewrite (nth_indep _ 0 (g (nth i xnew 0) 0)) by (now rewrite length_map).
  apply map_nth.
Qed.

Lemma mesh_inside (g : Q -> Q -> Q) (xnew ynew : list Q) (i j : nat) :
  inside (map (fun xq => map (g xq) ynew) xnew) i j <->
  (i < length xnew)%nat /\ (j < length ynew)%nat.
Proof.
  unfold inside. rewrite length_map.
  set (row := fun xq => map (g xq) ynew).
  split; intros [Hi Hj]; split; auto.
  - rewrite (nth_indep _ [] (row 0)) in Hj by (now rewrite length_map).
    rewrite map_nth in Hj. unfold row in Hj. now rewrite length_map in Hj.
  - rewrite (nth_indep _ [] (row 0)) by (now rewrite length_map).
    rewrite map_nth. unfold row. now rewrite length_map.
Qed.

Lemma interpolate_bounds (gx gy : list Q) (values out : matrix Q)
      (xnew ynew : list Q) (lo hi : Q) :
  ascending gx -> ascending gy ->
  interpolate gx gy values xnew ynew = Ok out ->
  (forall i j, (i < length gx)%nat -> (j < length gy)%nat ->
               lo <= pix 0 values i j <= hi) ->
  forall i j, inside out i j -> lo <= pix 0 out i j <= hi.
Proof.
  intros Ax Ay E V i j I. unfold interpolate in E.
  destruct gx as [|x0 gx']; [discriminate|].
  destruct gy as [|y0 gy']; [discriminate|].
  set (gx := x0 :: gx') in *. set (gy := y0 :: gy') in *.
  destruct (forallb _ _) eqn:B in E; [|discriminate].
  injection E as <-. apply mesh_inside in I. destruct I as [Hi Hj].
  rewrite mesh_pix by assumption.
  rewrite forallb_forall in B.
  specialize (B (nth i xnew 0, nth j ynew 0)).
  rewrite in_prod_iff in B. cbn [fst snd] in B.
  rewrite andb_true_iff in B.
  destruct B as [Bx By]; [split; apply nth_In; assumption|].
  apply evaluate_linear_bounds; auto; discriminate.
Qed.

(** ** Bounds from the minimum and the maximum *)

Lemma fold_min_le (l : list Q) (x : Q) :
  fold_left Qmin l x <= x /\ Forall (fun y => fold_left Qmin l x <= y) l.
Proof.
  revert x. induction l as [|y l IH]; intro x; cbn.
  - split; [apply Qle_refl | constructor].
  - destruct (IH (Qmin x y)) as [A B]. split.
    + eapply Qle_trans; [exact A | apply Q.le_min_l].
    + constructor; [|exact B].
      eapply Qle_trans; [exact A | apply Q.le_min_r].
Qed.

Lemma fold_max_ge (l : list Q) (x : Q) :
  x <= fold_left Qmax l x /\ Forall (fun y => y <= fold_left Qmax l x) l.
Proof.
  revert x. induction l as [|y l IH]; intro x; cbn.
  - split; [apply Qle_refl | constructor].
  - destruct (IH (Qmax x y)) as [A B]. split.
    + eapply Qle_trans; [apply Q.le_max_l | exact A].
    + constructor; [|exact B].
      eapply Qle_trans; [apply Q.le_max_r | exact A].
Qed.

Lemma fold_min_in (l : list Q) (x : Q) : In (fold_left Qmin l x) (x :: l).
Proof.
  revert x. induction l as [|y l IH]; intro x; cbn; [auto|].
  destruct (IH (Qmin x y)) as [E|I]; [|right; right; exact I].
  rewrite <- E. unfold Qmin, GenericMinMax.gmin.
  destruct (x ?= y); auto.
Qed.

Lemma fold_max_in (l : list Q) (x : Q) : In (fold_left Qmax l x) (x :: l).
Proof.
  revert x. induction l as [|y l IH]; intro x; cbn; [auto|].
  destruct (IH (Qmax x y)) as [E|I]; [|right; right; exact I].
  rewrite <- E. unfold Qmax, GenericMinMax.gmax.
  destruct (x ?= y); auto.
Qed.

Lemma list_min_spec (l : list Q) :
  l <> [] ->
  exists m, list_min l = Ok m /\ In m l /\ forall y, In y l -> m <= y.
Proof.
  destruct l as [|x t]; [congruence|]. intros _.
  exists (fold_left Qmin t x). split; [reflexivity|].
  split; [apply fold_min_in|].
  destruct (fold_min_le t x) as [A B]. intros y [<-|I]; [exact A|].
  rewrite Forall_forall in B. apply B, I.
Qed.

Lemma list_max_spec (l : list Q) :
  l <> [] ->
  exists m, list_max l = Ok m /\ In m l /\ forall y, In y l -> y <= m.
Proof.
  destruct l as [|x t]; [congruence|]. intros _.
  exists (fold_left Qmax t x). split; [reflexivity|].
  split; [apply fold_max_in|].
  destruct (fold_max_ge t x) as [A B]. intros y [<-|I]; [exact A|].
  rewrite Forall_forall in B. apply B, I.
Qed.

Lemma pix_in_flat {A : Type} (d : A) (m : matrix A) (i j : nat) :
  inside m i j -> In (pix d m i j) (flat m).
Proof.
  intros [Hi Hj]. unfold pix, flat. apply in_concat.
  exists (nth i m []). split; apply nth_In; assumption.
Qed.

(** ** _random_at_scale *)

Lemma valid_axis_pos (n N : nat) : valid_axis n N -> (1 <= n)%nat.
Proof. intros [A|[A _]]; lia. Qed.

Lemma linspace_nonempty (n : nat) : (1 <= n)%nat -> linspace n <> [].
Proof.
  intros P E. apply (f_equal (@length Q)) in E.
  rewrite linspace_length in E. cbn in E. lia.
Qed.

Lemma linspace_in_bounds (n N : nat) (x : Q) :
  valid_axis n N -> In x (linspace N) -> in_bounds (linspace n) x = true.
Proof.
  intros V I. destruct (In_nth _ _ 0 I) as (k & L & <-).
  rewrite linspace_length in L.
  destruct V as [V|[-> V]].
  - unfold in_bounds. apply andb_true_iff. rewrite !Qle_bool_iff.
    rewrite linspace_head, (linspace_last n V). apply linspace_unit, L.
  - assert (N = 1%nat) by lia. subst N.
    replace k with 0%nat by lia. reflexivity.
Qed.

Lemma interpolate_ok (rs fs : nat * nat) (values : matrix Q) :
  valid_sizes rs fs ->
  interpolate (linspace (fst rs)) (linspace (snd rs)) values
              (linspace (fst fs)) (linspace (snd fs))
  = Ok (map (fun xq =>
               map (evaluate_linear (linspace (fst rs)) (linspace (snd rs))
                                    values xq)
                   (linspace (snd fs)))
            (linspace (fst fs))).
Proof.
  intros [Vx Vy]. unfold interpolate.
  pose proof (linspace_nonempty _ (valid_axis_pos _ _ Vx)) as Nx.
  pose proof (linspace_nonempty _ (valid_axis_pos _ _ Vy)) as Ny.
  destruct (linspace (fst rs)) as [|x0 gx] eqn:Ex; [congruence|].
  destruct (linspace (snd rs)) as [|y0 gy] eqn:Ey; [congruence|].
  rewrite <- Ex, <- Ey.
  replace (forallb _ _) with true; [reflexivity|].
  symmetry. apply forallb_forall. intros [xq yq] I.
  apply in_prod_iff in I. destruct I as [Ix Iy]. cbn [fst snd].
  apply andb_true_iff. split; eapply linspace_in_bounds; eauto.
Qed.

Lemma random_at_scale_ok {G : Type} {RS : RandomState G}
      (rs fs : nat * nat) (s : G) :
  valid_sizes rs fs ->
  _random_at_scale rs fs s
  = Ok (fst (rand (fst rs) (snd rs) s),
        map (fun xq =>
               map (evaluate_linear (linspace (fst rs)) (linspace (snd rs))
                                    (fst (rand (fst rs) (snd rs) s)) xq)
                   (linspace (snd fs)))
            (linspace (fst fs)),
        snd (rand (fst rs) (snd rs) s)).
Proof.
  intro V. unfold _random_at_scale.
  destruct (rand (fst rs) (snd rs) s) as [random s'].
  rewrite (interpolate_ok rs fs random V). reflexivity.
Qed.

Lemma rand_inside {G : Type} {RS : RandomState G} (r c : nat) (s : G)
      (i j : nat) :
  (i < r)%nat -> (j < c)%nat -> inside (fst (rand r c s)) i j.
Proof.
  intros Hi Hj. destruct (rand_shape r c s) as [L F].
  split; [now rewrite L|].
  rewrite Forall_forall in F. rewrite (F (nth i (fst (rand r c s)) [])).
  - exact Hj.
  - apply nth_In. now rewrite L.
Qed.

(** C10.  On valid sizes [_random_at_scale] returns, and every element of
    the interpolated field lies between the minimum and the maximum of the
    coarse random grid; as the draws lie in [[0,1)], so does every element
    of the layer. *)
Theorem random_at_scale_within_grid_range
        {G : Type} {RS : RandomState G} {RR : RandomRange G}
        (rand_size final_size : nat * nat) (s : G) :
  valid_sizes rand_size final_size ->
  exists random random_new s' lo hi,
    _random_at_scale rand_size final_size s = Ok (random, random_new, s')
    /\ list_min (flat random) = Ok lo
    /\ list_max (flat random) = Ok hi
    /\ 0 <= lo /\ hi < 1
    /\ forall i j, inside random_new i j ->
         lo <= pix 0 random_new i j <= hi
         /\ 0 <= pix 0 random_new i j < 1.
Proof.
  intro V. pose proof (random_at_scale_ok rand_size final_size s V) as E.
  destruct rand_size as [r c]. cbn [fst snd] in *.
  set (random := fst (rand r c s)) in *.
  assert (P : (1 <= r)%nat /\ (1 <= c)%nat).
  { destruct V as [Vx Vy]. split; eapply valid_axis_pos; eauto. }
  assert (I00 : inside random 0 0) by (apply rand_inside; lia).
  assert (NE : flat random <> []).
  { intro Z. pose proof (pix_in_flat 0 random 0 0 I00) as I.
    rewrite Z in I. exact I. }
  destruct (list_min_spec _ NE) as (lo & Elo & Ilo & Hlo).
  destruct (list_max_spec _ NE) as (hi & Ehi & Ihi & Hhi).
  assert (R : forall y, In y (flat random) -> 0 <= y < 1).
  { intros y I. unfold flat in I. apply in_concat in I.
    destruct I as (row & Ir & Iy).
    pose proof (rand_range r c s) as F. fold random in F.
    rewrite Forall_forall in F. specialize (F row Ir).
    rewrite Forall_forall in F. apply F, Iy. }
  eexists random, _, _, lo, hi. split; [exact E|].
  split; [exact Elo|]. split; [exact Ehi|].
  split; [apply R, Ilo|]. split; [apply R, Ihi|].
  intros i j I.
  assert (B : lo <= pix 0 (map (fun xq =>
               map (evaluate_linear (linspace r) (linspace c) random xq)
                   (linspace (snd final_size)))
            (linspace (fst final_size))) i j <= hi).
  { eapply interpolate_bounds;
      [apply linspace_ascending | apply linspace_ascending
       | apply (interpolate_ok (r, c) final_size _ V) | | exact I].
    intros a b Ha Hb. rewrite linspace_length in Ha, Hb.
    pose proof (pix_in_flat 0 random a b (rand_inside r c s a b Ha Hb)) as In'.
    split; [apply Hlo | apply Hhi]; exact In'. }
  split; [exact B|].
  pose proof (R lo Ilo) as [L0 _]. pose proof (R hi Ihi) as [_ H1].
  destruct B as [B0 B1]. split.
  - eapply Qle_trans; eassumption.
  - eapply Qle_lt_trans; eassumption.
Qed.

Lemma lcg_range : RandomRange Z.
Proof.
  intro s. unfold random_sample, lcg, lcg_sample. cbn [fst].
  pose proof (Z.mod_pos_bound (1103515245 * s + 12345) 2147483648
                              ltac:(reflexivity)) as [A B].
  unfold Qle, Qlt. cbn [Qnum Qden]. split; lia.
Qed.

Lemma random_at_scale_within_grid_range_witness :
  exists random random_new s' lo hi,
    _random_at_scale (2, 2)%nat (3, 3)%nat 42%Z = Ok (random, random_new, s')
    /\ list_min (flat random) = Ok lo
    /\ list_max (flat random) = Ok hi
    /\ 0 <= lo /\ hi < 1
    /\ forall i j, inside random_new i j ->
         lo <= pix 0 random_new i j <= hi
         /\ 0 <= pix 0 random_new i j < 1.
Proof.
  apply (random_at_scale_within_grid_range (RR := lcg_range)
           (2, 2)%nat (3, 3)%nat 42%Z).
  split; left; cbn; lia.
Defined.

(** ** Interpolation at the grid points *)

Lemma leading_le_knot (n k : nat) :
  (k < n)%nat -> leading_le (linspace n) (nth k (linspace n) 0) = S k.
Proof.
  intro L. set (x := nth k (linspace n) 0).
  set (cnt := leading_le (linspace n) x).
  pose proof (leading_le_length (linspace n) x) as Hc. fold cnt in Hc.
  rewrite linspace_length in Hc.
  destruct (Nat.lt_trichotomy cnt (S k)) as [A|[A|A]]; [|exact A|].
  - exfalso.
    pose proof (leading_le_above (linspace n) x) as B. fold cnt in B.
    rewrite linspace_length in B. specialize (B ltac:(lia)).
    destruct (Nat.eq_dec cnt k) as [E|NE].
    + rewrite E in B. exact (Qlt_irrefl _ B).
    + pose proof (linspace_ascending n cnt k ltac:(lia)
                    ltac:(rewrite linspace_length; lia)) as C.
      fold x in C. apply (Qlt_irrefl x). eapply Qlt_trans; eassumption.
  - exfalso.
    pose proof (leading_le_below (linspace n) x (S k) A) as B.
    pose proof (linspace_ascending n k (S k) ltac:(lia)
                  ltac:(rewrite linspace_length; lia)) as C.
    fold x in C. apply (Qlt_not_le _ _ C B).
Qed.

Lemma find_indices_knot (n k : nat) :
  (k < n)%nat ->
  exists i0 i1 t,
    find_indices (linspace n) (nth k (linspace n) 0) = (i0, i1, t)
    /\ ((i0 = k /\ t == 0) \/ (i1 = k /\ t == 1)).
Proof.
  intro L. unfold find_indices, find_interval_ascending.
  rewrite linspace_length, leading_le_knot by exact L.
  destruct n as [|[|m]]; [lia| |].
  - exists 0%nat, 0%nat, 0. split; [reflexivity|]. left. split; [lia|reflexivity].
  - set (n := S (S m)) in *. set (i := Nat.min (S k - 1) (n - 2)).
    eexists i, (S i), _. split; [reflexivity|].
    pose proof (linspace_ascending n i (S i) ltac:(lia)
                  ltac:(rewrite linspace_length; unfold i, n; lia)) as P.
    destruct (Nat.eq_dec k (n - 1)) as [E|NE].
    + right. assert (Ei : S i = k) by (unfold i, n in *; lia).
      split; [exact Ei|]. rewrite <- Ei. field. lra.
    + left. assert (Ei : i = k) by (unfold i, n in *; lia).
      split; [exact Ei|]. rewrite <- Ei. field. lra.
Qed.

Lemma evaluate_linear_knot (r c : nat) (values : matrix Q) (k l : nat) :
  (k < r)%nat -> (l < c)%nat ->
  evaluate_linear (linspace r) (linspace c) values
                  (nth k (linspace r) 0) (nth l (linspace c) 0)
  == pix 0 values k l.
Proof.
  intros Hk Hl. unfold evaluate_linear.
  destruct (find_indices_knot r k Hk) as (i0 & i1 & tx & -> & Cx).
  destruct (find_indices_knot c l Hl) as (j0 & j1 & ty & -> & Cy).
  destruct Cx as [[-> Ex]|[-> Ex]]; destruct Cy as [[-> Ey]|[-> Ey]];
    rewrite Ex, Ey; ring.
Qed.

Lemma Forall2_by_nth {A B : Type} (R : A -> B -> Prop) (da : A) (db : B)
      (l : list A) (l' : list B) :
  length l = length l' ->
  (forall i, (i < length l)%nat -> R (nth i l da) (nth i l' db)) ->
  Forall2 R l l'.
Proof.
  revert l'. induction l as [|a l IH]; intros [|b l'] Len H;
    try discriminate; constructor.
  - apply (H 0%nat). cbn. lia.
  - apply IH; [now injection Len|].
    intros i L. apply (H (S i)). cbn. lia.
Qed.

(** C9.  With [rand_size] equal to [final_size] (both dimensions
    positive) [_random_at_scale] returns, and the interpolated field equals
    the coarse random grid entry by entry. *)
Theorem random_at_scale_same_size_identity
        {G : Type} {RS : RandomState G} (r c : nat) (s : G) :
  (1 <= r)%nat -> (1 <= c)%nat ->
  exists random random_new s',
    _random_at_scale (r, c) (r, c) s = Ok (random, random_new, s')
    /\ mat_eq random_new random.
Proof.
  intros Hr Hc.
  assert (V : valid_sizes (r, c) (r, c)).
  { split; cbn [fst snd]; unfold valid_axis; lia. }
  pose proof (random_at_scale_ok (r, c) (r, c) s V) as E.
  cbn [fst snd] in E. set (random := fst (rand r c s)) in *.
  eexists random, _, _. split; [exact E|].
  destruct (rand_shape r c s) as [Lr Lc]. fold random in Lr, Lc.
  apply (Forall2_by_nth _ [] []).
  - now rewrite length_map, linspace_length, Lr.
  - intros i Hi. rewrite length_map, linspace_length in Hi.
    set (row := fun xq => map (evaluate_linear (linspace r) (linspace c)
                                               random xq) (linspace c)).
    rewrite (nth_indep _ [] (row 0))
      by (now rewrite length_map, linspace_length).
    rewrite map_nth. unfold row.
    assert (Li : length (nth i random []) = c).
    { rewrite Forall_forall in Lc. apply Lc, nth_In. now rewrite Lr. }
    apply (Forall2_by_nth _ 0 0).
    + now rewrite length_map, linspace_length, Li.
    + intros j Hj. rewrite length_map, linspace_length in Hj.
      set (g := evaluate_linear (linspace r) (linspace c) random
                                (nth i (linspace r) 0)).
      rewrite (nth_indep _ 0 (g 0)) by (now rewrite length_map, linspace_length).
      rewrite map_nth. unfold g.
      apply evaluate_linear_knot; assumption.
Qed.

Lemma random_at_scale_same_size_identity_witness :
  exists random random_new s',
    _random_at_scale (3, 3)%nat (3, 3)%nat 42%Z = Ok (random, random_new, s')
    /\ mat_eq random_new random.
Proof.
  apply (random_at_scale_same_size_identity 3 3 42%Z); lia.
Defined.

(** ** The Sobel filter *)

Lemma reflect_inside (n : nat) (k : Z) :
  (0 <= k < Z.of_nat n)%Z -> reflect n k = Z.to_nat k.
Proof.
  intro R. unfold reflect. rewrite Z.mod_small by lia.
  destruct (k <? Z.of_nat n)%Z eqn:E; [reflexivity|].
  apply Z.ltb_ge in E. lia.
Qed.

Lemma reflect_lt (n : nat) (k : Z) : (0 < n)%nat -> (reflect n k < n)%nat.
Proof.
  intro P. unfold reflect.
  pose proof (Z.mod_pos_bound k (2 * Z.of_nat n) ltac:(lia)) as B.
  destruct (_ <? _)%Z eqn:E.
  - apply Z.ltb_lt in E. lia.
  - apply Z.ltb_ge in E. lia.
Qed.

Lemma correlate1d_length (w line : list Q) :
  length (correlate1d w line) = length line.
Proof. unfold correlate1d. now rewrite length_map, length_seq. Qed.

Lemma correlate1d_3_nth (a b c : Q) (line : list Q) (i : nat) :
  (i < length line)%nat ->
  nth i (correlate1d [a; b; c] line) 0
  == a * nth (reflect (length line) (Z.of_nat i - 1)) line 0
     + b * nth i line 0
     + c * nth (reflect (length line) (Z.of_nat i + 1)) line 0.
Proof.
  intro L. unfold correlate1d.
  set (g := fun i0 : nat => Qsum _).
  rewrite (nth_indep _ 0 (g 0%nat)) by (now rewrite length_map, length_seq).
  rewrite map_nth, seq_nth by exact L. unfold g. cbn [Nat.add length seq map].
  change (Z.of_nat (3 / 2)) with 1%Z. cbn [nth Qsum fold_right].
  replace (Z.of_nat i + Z.of_nat 0 - 1)%Z with (Z.of_nat i - 1)%Z by lia.
  replace (Z.of_nat i + Z.of_nat 1 - 1)%Z with (Z.of_nat i) by lia.
  replace (Z.of_nat i + Z.of_nat 2 - 1)%Z with (Z.of_nat i + 1)%Z by lia.
  rewrite (reflect_inside _ (Z.of_nat i)) by lia. rewrite Nat2Z.id. ring.
Qed.

Lemma rect_row {A : Type} (rows cols : nat) (m : matrix A) (i : nat) :
  rect rows cols m -> (i < rows)%nat -> length (nth i m []) = cols.
Proof.
  intros [L F] Hi. rewrite Forall_forall in F. apply F, nth_In. now rewrite L.
Qed.

Lemma rect_map (f : list Q -> list Q) (rows cols : nat) (m : matrix Q) :
  (forall l, length (f l) = length l) ->
  rect rows cols m -> rect rows cols (map f m).
Proof.
  intros Hf [L F]. split; [now rewrite length_map|].
  apply Forall_map. eapply Forall_impl; [|exact F].
  intros r E. cbn. now rewrite Hf.
Qed.

Lemma transpose_rect (rows cols : nat) (m : matrix Q) :
  (0 < rows)%nat -> rect rows cols m -> rect cols rows (transpose m).
Proof.
  intros P R. pose proof (rect_row rows cols m 0 R P) as L0.
  destruct R as [L F]. unfold transpose.
  replace (hd [] m) with (nth 0 m []) by (destruct m; reflexivity).
  rewrite L0. split; [now rewrite length_map, length_seq|].
  apply Forall_map, Forall_forall. intros j _. cbn. now rewrite length_map.
Qed.

Lemma transpose_row (rows cols : nat) (m : matrix Q) (j : nat) :
  (0 < rows)%nat -> rect rows cols m -> (j < cols)%nat ->
  nth j (transpose m) [] = map (fun row => nth j row 0) m.
Proof.
  intros P R Hj. pose proof (rect_row rows cols m 0 R P) as L0.
  unfold transpose.
  replace (hd [] m) with (nth 0 m []) by (destruct m; reflexivity).
  rewrite L0. set (g := fun j0 : nat => map (fun row => nth j0 row 0) m).
  rewrite (nth_indep _ [] (g 0%nat)) by (now rewrite length_map, length_seq).
  rewrite map_nth, seq_nth by exact Hj. reflexivity.
Qed.

Lemma column_nth (m : matrix Q) (j k : nat) :
  (k < length m)%nat ->
  nth k (map (fun row => nth j row 0) m) 0 = pix 0 m k j.
Proof.
  intro L. set (g := fun row : list Q => nth j row 0).
  rewrite (nth_indep _ 0 (g [])) by (now rewrite length_map).
  rewrite map_nth. reflexivity.
Qed.

Lemma along_cols_pix (f : list Q -> list Q) (rows cols : nat) (m : matrix Q)
      (i j : nat) :
  (forall l, length (f l) = length l) ->
  rect rows cols m -> (i < rows)%nat -> (j < cols)%nat ->
  pix 0 (along_cols f m) i j = nth i (f (map (fun row => nth j row 0) m)) 0.
Proof.
  intros Hf R Hi Hj. unfold along_cols.
  assert (P : (0 < rows)%nat) by lia.
  assert (Pc : (0 < cols)%nat) by lia.
  pose proof (transpose_rect rows cols m P R) as RT.
  pose proof (rect_map f cols rows _ Hf RT) as RM.
  unfold pix. rewrite (transpose_row cols rows _ i Pc RM Hi).
  rewrite column_nth by (destruct RM as [L _]; now rewrite L).
  unfold pix. rewrite (nth_indep _ [] (f [])) by
      (rewrite length_map; destruct RT as [L _]; now rewrite L).
  rewrite map_nth. now rewrite (transpose_row rows cols m j P R Hj).
Qed.

Lemma derivative_pix (rows cols : nat) (m : matrix Q) (k j : nat) :
  rect rows cols m -> (k < rows)%nat -> (j < cols)%nat ->
  pix 0 (along_rows (correlate1d [-1; 0; 1]) m) k j
  == pix 0 m k (reflect cols (Z.of_nat j + 1))
     - pix 0 m k (reflect cols (Z.of_nat j - 1)).
Proof.
  intros R Hk Hj. pose proof (rect_row rows cols m k R Hk) as Lk.
  unfold along_rows, pix.
  rewrite (nth_indep _ [] (correlate1d [-1; 0; 1] []))
    by (rewrite length_map; destruct R as [L _]; now rewrite L).
  rewrite map_nth, correlate1d_3_nth by (now rewrite Lk).
  rewrite Lk. ring.
Qed.

Lemma sobel_pix (rows cols : nat) (m : matrix Q) (i j : nat) :
  rect rows cols m -> (i < rows)%nat -> (j < cols)%nat ->
  pix 0 (sobel m) i j == sobel_last_axis_at m rows cols i j.
Proof.
  intros R Hi Hj. unfold sobel.
  set (h := along_rows (correlate1d [-1; 0; 1]) m).
  assert (Rh : rect rows cols h)
    by (apply rect_map; [apply correlate1d_length | exact R]).
  rewrite (along_cols_pix _ rows cols h i j (correlate1d_length _) Rh Hi Hj).
  assert (Lc : length (map (fun row => nth j row 0) h) = rows)
    by (rewrite length_map; destruct Rh as [L _]; exact L).
  rewrite correlate1d_3_nth by (now rewrite Lc).
  rewrite Lc.
  assert (P : (0 < rows)%nat) by lia.
  assert (Lh : length h = rows) by (destruct Rh as [L _]; exact L).
  rewrite !column_nth by (rewrite Lh; auto using reflect_lt).
  unfold h. rewrite !(derivative_pix rows cols m) by (auto using reflect_lt).
  unfold sobel_last_axis_at. ring.
Qed.

Lemma sobel_rect (rows cols : nat) (m : matrix Q) :
  (0 < rows)%nat -> (0 < cols)%nat ->
  rect rows cols m -> rect rows cols (sobel m).
Proof.
  intros P Pc R. unfold sobel, along_cols, along_rows.
  apply transpose_rect; [exact Pc|].
  apply rect_map; [apply correlate1d_length|].
  apply transpose_rect; [exact P|].
  apply rect_map; [apply correlate1d_length | exact R].
Qed.

(** C5 (as amended).  On a [rows] x [cols] mask, whenever [_find_edges]
    returns, each entry of its edge map is the absolute value of the Sobel
    derivative along the last axis alone: the 3x3 kernel with difference
    [-1 0 1] across columns and weights [1 2 1] across rows.  No derivative
    along the other axis enters. *)
Theorem find_edges_is_last_axis_sobel (base_mask : matrix Q)
        (width rows cols : nat) (edges : matrix Q) (near : matrix bool) :
  rect rows cols base_mask ->
  _find_edges base_mask width = Ok (edges, near) ->
  forall i j, (i < rows)%nat -> (j < cols)%nat ->
    inside edges i j
    /\ pix 0 edges i j == Qabs (sobel_last_axis_at base_mask rows cols i j).
Proof.
  intros R E i j Hi Hj. unfold _find_edges in E.
  destruct (quantile _ _) as [baseline|e] in E; [|discriminate].
  cbn [bind] in E. injection E as <- _.
  assert (Rs : rect rows cols (sobel base_mask))
    by (apply sobel_rect; [lia | lia | exact R]).
  assert (I : inside (sobel base_mask) i j).
  { split; [destruct Rs as [L _]; now rewrite L|].
    now rewrite (rect_row rows cols _ i Rs Hi). }
  split; [apply inside_mmap; exact I|].
  rewrite (pix_mmap Qabs 0 0 _ _ _ I).
  now rewrite (sobel_pix rows cols base_mask i j R Hi Hj).
Qed.

Lemma find_edges_is_last_axis_sobel_witness :
  exists edges near,
    _find_edges [[0; 0; 0; 0]; [0; 0; 0; 0]; [1; 1; 1; 1]; [1; 1; 1; 0]] 3
    = Ok (edges, near)
    /\ forall i j, (i < 4)%nat -> (j < 4)%nat ->
         inside edges i j
         /\ pix 0 edges i j
            == Qabs (sobel_last_axis_at
                       [[0; 0; 0; 0]; [0; 0; 0; 0]; [1; 1; 1; 1]; [1; 1; 1; 0]]
                       4 4 i j).
Proof.
  eexists. eexists. split; [vm_compute; reflexivity|].
  eapply (find_edges_is_last_axis_sobel
            [[0; 0; 0; 0]; [0; 0; 0; 0]; [1; 1; 1; 1]; [1; 1; 1; 0]] 3 4 4).
  - split; [reflexivity | repeat constructor].
  - vm_compute. reflexivity.
Defined.

(** C5 (as stated) fails: below a horizontal cloud boundary the mask varies
    along axis 0 only.  At pixel (1,0) the derivative along axis 0 is 4,
    yet the edge map is 0, so it is not a magnitude combining both axes. *)
Lemma find_edges_ignores_axis0_gradient :
  exists edges near,
    _find_edges [[0; 0; 0; 0]; [0; 0; 0; 0]; [1; 1; 1; 1]; [1; 1; 1; 0]] 3
    = Ok (edges, near)
    /\ pix 0 edges 1 0 == 0
    /\ pix 0 (sobel_axis0
                [[0; 0; 0; 0]; [0; 0; 0; 0]; [1; 1; 1; 1]; [1; 1; 1; 0]]) 1 0
       == 4
    /\ ~ pix 0 edges 1 0 * pix 0 edges 1 0
         == spec_gradient_magnitude_sq
              [[0; 0; 0; 0]; [0; 0; 0; 0]; [1; 1; 1; 1]; [1; 1; 1; 0]] 1 0.
Proof.
  eexists. eexists. split; [vm_compute; reflexivity|].
  split; [reflexivity|]. split; [vm_compute; reflexivity|].
  intro E. vm_compute in E. discriminate E.
Qed.

(** ** Sorting and quantiles *)

Lemma insert_perm (x : Q) (l : list Q) : Permutation (insert x l) (x :: l).
Proof.
  induction l as [|y t IH]; cbn; [reflexivity|].
  destruct (Qle_bool x y); [reflexivity|].
  rewrite IH. apply perm_swap.
Qed.

Lemma sort_perm (l : list Q) : Permutation (sort l) l.
Proof.
  induction l as [|x t IH]; cbn; [reflexivity|].
  rewrite insert_perm. now constructor.
Qed.

Lemma insert_sorted (x : Q) (l : list Q) :
  StronglySorted Qle l -> StronglySorted Qle (insert x l).
Proof.
  induction 1 as [|y t St IH F]; cbn.
  - constructor; constructor.
  - destruct (Qle_bool x y) eqn:E.
    + apply Qle_bool_iff in E. constructor; [constructor; assumption|].
      constructor; [exact E|].
      eapply Forall_impl; [|exact F]. intros z L. cbn in L.
      eapply Qle_trans; eassumption.
    + assert (L : y <= x).
      { apply Qlt_le_weak, Qltb_lt. unfold Qltb. now rewrite E. }
      constructor; [exact IH|].
      rewrite (insert_perm x t). constructor; assumption.
Qed.

Lemma sort_sorted (l : list Q) : StronglySorted Qle (sort l).
Proof.
  induction l as [|x t IH]; cbn; [constructor | now apply insert_sorted].
Qed.

Lemma sorted_nth (l : list Q) (i j : nat) :
  StronglySorted Qle l -> (i <= j)%nat -> (j < length l)%nat ->
  nth i l 0 <= nth j l 0.
Proof.
  intro St. revert i j. induction St as [|x t St IH F]; intros i j Le Lt.
  - cbn in Lt. lia.
  - destruct i as [|i], j as [|j]; cbn in *; try lia.
    + apply Qle_refl.
    + rewrite Forall_forall in F. apply F, nth_In. lia.
    + apply IH; lia.
Qed.

Lemma sort_length (l : list Q) : length (sort l) = length l.
Proof. apply Permutation_length, sort_perm. Qed.

Lemma sort_nth_in (l : list Q) (k : nat) :
  (k < length l)%nat -> In (nth k (sort l) 0) l.
Proof.
  intro L. apply (Permutation_in _ (sort_perm l)), nth_In.
  now rewrite sort_length.
Qed.

Lemma quantile_sorted_cases (a : list Q) (q : Q) :
  0 <= q <= 1 ->
  let n := length a in
  (quantile_sorted a q = nth (n - 1) a 0 /\ of_nat (n - 1) <= of_nat (n - 1) * q)
  \/ exists k g,
      quantile_sorted a q = lerp (nth k a 0) (nth (S k) a 0) g
      /\ (S k < n)%nat /\ 0 <= g < 1
      /\ of_nat k + g == of_nat (n - 1) * q.
Proof.
  intros [Q0 Q1] n. unfold quantile_sorted. fold n.
  set (h := of_nat (n - 1) * q).
  destruct (Qle_bool (of_nat (n - 1)) h) eqn:E.
  - left. split; [reflexivity | apply Qle_bool_iff, E].
  - right.
    assert (Lt : h < of_nat (n - 1)).
    { apply Qltb_lt. unfold Qltb. now rewrite E. }
    assert (H0 : 0 <= h).
    { unfold h. apply Qmult_le_0_compat; [apply of_nat_nonneg | exact Q0]. }
    set (z := Qfloor h).
    assert (Z0 : (0 <= z)%Z).
    { change 0%Z with (Qfloor 0). apply Qfloor_resp_le, H0. }
    pose proof (Qfloor_le h) as F0. pose proof (Qlt_floor h) as F1.
    fold z in F0, F1. rewrite inject_Z_plus in F1.
    assert (Ek : of_nat (Z.to_nat z) = inject_Z z).
    { unfold of_nat. now rewrite Z2Nat.id. }
    exists (Z.to_nat z), (h - inject_Z z).
    split; [reflexivity|]. split; [|split].
    + assert (C : inject_Z z < inject_Z (Z.of_nat (n - 1))).
      { eapply Qle_lt_trans; [exact F0 | exact Lt]. }
      rewrite <- Zlt_Qlt in C. lia.
    + change (inject_Z 1) with 1 in F1. split; lra.
    + rewrite Ek. ring.
Qed.

Lemma lerp_between (a b g : Q) :
  a <= b -> 0 <= g <= 1 -> a <= lerp a b g <= b.
Proof. intros L [G0 G1]. unfold lerp. split; nra. Qed.

Lemma quantile_sorted_mono (a : list Q) (q1 q2 : Q) :
  StronglySorted Qle a -> 0 <= q1 -> q1 <= q2 -> q2 <= 1 ->
  quantile_sorted a q1 <= quantile_sorted a q2.
Proof.
  intros St Q0 L Q1.
  assert (N0 : 0 <= of_nat (length a - 1)) by apply of_nat_nonneg.
  assert (Hh : of_nat (length a - 1) * q1 <= of_nat (length a - 1) * q2).
  { rewrite !(Qmult_comm (of_nat _)). apply Qmult_le_compat_r; assumption. }
  destruct (quantile_sorted_cases a q1) as [[E1 T1]|(k1 & g1 & E1 & K1 & G1 & H1)];
    [split; lra| |];
    (destruct (quantile_sorted_cases a q2)
      as [[E2 T2]|(k2 & g2 & E2 & K2 & G2 & H2)]; [split; lra| |]);
    cbn zeta in *; rewrite E1, E2.
  - apply Qle_refl.
  - exfalso.
    assert (C : of_nat k2 + g2 < of_nat (length a - 1)).
    { apply Qlt_le_trans with (of_nat k2 + 1); [lra|].
      rewrite <- of_nat_S. apply of_nat_le. lia. }
    lra.
  - assert (S1 : nth k1 a 0 <= nth (S k1) a 0) by (apply sorted_nth; auto; lia).
    eapply Qle_trans;
      [apply (lerp_between _ _ g1 S1); split; lra|].
    apply sorted_nth; auto; lia.
  - assert (S1 : nth k1 a 0 <= nth (S k1) a 0) by (apply sorted_nth; auto; lia).
    assert (S2 : nth k2 a 0 <= nth (S k2) a 0) by (apply sorted_nth; auto; lia).
    destruct (Nat.lt_trichotomy k1 k2) as [A|[A|A]].
    + eapply Qle_trans;
        [apply (lerp_between _ _ g1 S1); split; lra|].
      eapply Qle_trans;
        [|apply (lerp_between _ _ g2 S2); split; lra].
      apply sorted_nth; auto; lia.
    + subst k2. assert (G : g1 <= g2) by lra. unfold lerp. nra.
    + exfalso.
      assert (C : of_nat k2 + 1 <= of_nat k1).
      { rewrite <- of_nat_S. apply of_nat_le. lia. }
      lra.
Qed.

Lemma quantile_sorted_below (a : list Q) (q b : Q) :
  a <> [] -> 0 <= q <= 1 ->
  (forall k, (k < length a)%nat -> nth k a 0 < b) ->
  quantile_sorted a q < b.
Proof.
  intros N R B.
  assert (P : (0 < length a)%nat) by (destruct a; [congruence | cbn; lia]).
  destruct (quantile_sorted_cases a q R) as [[E _]|(k & g & E & K & G & _)];
    cbn zeta in *; rewrite E.
  - apply B. lia.
  - pose proof (B k ltac:(lia)) as Bk. pose proof (B (S k) K) as Bs.
    unfold lerp. nra.
Qed.

(** ** shift_mean_lave *)

Lemma shift_mean_lave_run (field : matrix Q)
      (ktmean ktmin min_quant max_quant fmin fmax : Q) :
  let cloudy := filter (fun x => Qltb x 1) (flat field) in
  quantile cloudy max_quant = Ok fmax ->
  quantile cloudy min_quant = Ok fmin ->
  exists final : xval -> xval,
    shift_mean_lave field ktmean ktmin min_quant max_quant
    = Ok (mmap final (mmap clip01 (mmap (rescaled fmin fmax ktmin) field)))
    /\ forall c, c == 1 -> final (Fin c) = Fin c.
Proof.
  intros cloudy Emax Emin. unfold shift_mean_lave. fold cloudy.
  rewrite Emax, Emin. cbn [bind].
  set (clipped := mmap clip01 (mmap (rescaled fmin fmax ktmin) field)).
  destruct (Qltb 0 _).
  - eexists. split; [reflexivity|]. intros c E. cbn.
    now rewrite (Qeq_eq_bool _ _ E).
  - exists (fun v => v). split; [|reflexivity].
    f_equal. unfold mmap. rewrite map_ext with (g := fun r => r).
    + now rewrite map_id.
    + intro r. apply map_id.
Qed.

Lemma clear_pixel_clipped (x fmin fmax ktmin : Q) :
  x == 1 -> fmin < fmax -> fmax < 1 -> ktmin <= 1 ->
  exists c, clip01 (rescaled fmin fmax ktmin x) = Fin c /\ c == 1.
Proof.
  intros X L U K. unfold rescaled.
  assert (D : Qeq_bool (fmax - fmin) 0 = false).
  { destruct (Qeq_bool (fmax - fmin) 0) eqn:E; [|reflexivity].
    apply Qeq_bool_iff in E. lra. }
  cbn [xdiv xmul xadd]. rewrite D. cbn [xmul xadd].
  set (w := (x - fmin) / (fmax - fmin) * (1 - ktmin) + ktmin).
  assert (W : 1 <= w).
  { assert (R : 1 <= (x - fmin) / (fmax - fmin))
      by (apply Qle_shift_div_l; lra).
    unfold w. nra. }
  unfold clip01. cbn [xltb]. destruct (Qltb 1 w) eqn:E.
  - exists 1. split; [reflexivity | reflexivity].
  - exists w. apply Qltb_ge in E. split; [|lra].
    cbn [xltb]. replace (Qltb w 0) with false; [reflexivity|].
    symmetry. apply Qltb_ge. lra.
Qed.

Lemma quantile_inv (a : list Q) (q v : Q) :
  quantile a q = Ok v ->
  a <> [] /\ 0 <= q <= 1 /\ v = quantile_sorted (sort a) q.
Proof.
  unfold quantile. intro E.
  destruct (Qle_bool 0 q) eqn:A; [|discriminate].
  destruct (Qle_bool q 1) eqn:B; [|discriminate]. cbn in E.
  apply Qle_bool_iff in A. apply Qle_bool_iff in B.
  destruct a; [discriminate|]. injection E as <-.
  repeat split; auto. discriminate.
Qed.

(** C4.  With ordered quantile levels and [ktmin <= 1] (the defaults
    0.005, 0.995 and 0.2 among them), on a field that has a pixel equal to 1
    and whose pixels below 1 give distinct robust minimum and maximum,
    [shift_mean_lave] returns a field in which every pixel that was 1 is
    still exactly 1. *)
Theorem shift_mean_lave_keeps_clear_pixels (field : matrix Q)
        (ktmean ktmin min_quant max_quant fmin fmax : Q) :
  min_quant <= max_quant -> ktmin <= 1 ->
  (exists i j, inside field i j /\ pix 0 field i j == 1) ->
  quantile (filter (fun x => Qltb x 1) (flat field)) max_quant = Ok fmax ->
  quantile (filter (fun x => Qltb x 1) (flat field)) min_quant = Ok fmin ->
  ~ fmax == fmin ->
  exists out,
    shift_mean_lave field ktmean ktmin min_quant max_quant = Ok out
    /\ forall i j, inside field i j -> pix 0 field i j == 1 ->
         inside out i j /\ xeq (pix NaN out i j) (Fin 1).
Proof.
  intros Lq K _ Emax Emin Dist.
  destruct (shift_mean_lave_run field ktmean ktmin min_quant max_quant
              fmin fmax Emax Emin) as (final & Run & Keep).
  eexists. split; [exact Run|].
  apply quantile_inv in Emax. destruct Emax as (Ne & [_ Q1] & ->).
  apply quantile_inv in Emin. destruct Emin as (_ & [Q0 _] & ->).
  set (cloudy := filter (fun x => Qltb x 1) (flat field)) in *.
  assert (Mono : quantile_sorted (sort cloudy) min_quant
                 <= quantile_sorted (sort cloudy) max_quant)
    by (apply quantile_sorted_mono; auto using sort_sorted).
  assert (Below : quantile_sorted (sort cloudy) max_quant < 1).
  { apply quantile_sorted_below.
    - intro Z. apply Ne. apply Permutation_nil.
      rewrite <- Z. apply sort_perm.
    - split; [eapply Qle_trans; eassumption | exact Q1].
    - intros k Hk. rewrite sort_length in Hk.
      pose proof (sort_nth_in cloudy k Hk) as I.
      unfold cloudy in I. apply filter_In in I. apply Qltb_lt, I. }
  set (hi := quantile_sorted (sort cloudy) max_quant) in *.
  set (lo := quantile_sorted (sort cloudy) min_quant) in *.
  assert (Lt : lo < hi).
  { apply Qle_lteq in Mono. destruct Mono as [M|M]; [exact M|].
    exfalso. apply Dist. symmetry. exact M. }
  intros i j I X.
  split; [now apply inside_mmap, inside_mmap, inside_mmap|].
  rewrite (pix_mmap final NaN NaN) by (now apply inside_mmap, inside_mmap).
  rewrite (pix_mmap clip01 NaN NaN) by (now apply inside_mmap).
  rewrite (pix_mmap (rescaled lo hi ktmin) 0 NaN) by exact I.
  destruct (clear_pixel_clipped _ lo hi ktmin X Lt Below K) as (c & -> & C).
  rewrite (Keep c C). exact C.
Qed.

Lemma shift_mean_lave_keeps_clear_pixels_witness :
  exists out,
    shift_mean_lave [[0; 1 # 2; 9 # 10; 1]] (9 # 10)
                    default_ktmin default_min_quant default_max_quant = Ok out
    /\ forall i j, inside [[0; 1 # 2; 9 # 10; 1]] i j ->
         pix 0 [[0; 1 # 2; 9 # 10; 1]] i j == 1 ->
         inside out i j /\ xeq (pix NaN out i j) (Fin 1).
Proof.
  eapply (shift_mean_lave_keeps_clear_pixels [[0; 1 # 2; 9 # 10; 1]] (9 # 10)
            default_ktmin default_min_quant default_max_quant).
  - vm_compute. discriminate.
  - vm_compute. discriminate.
  - exists 0%nat, 3%nat. split; [split; cbn; lia | reflexivity].
  - vm_compute. reflexivity.
  - vm_compute. reflexivity.
  - intro E. vm_compute in E. discriminate E.
Defined.

(** C8.  [shift_mean_lave] does not clip after the final multiplication by
    the mean ratio: on the field [0 0.5 0.9 1] with target mean 0.9 and the
    default arguments, the pixel 0.5 is returned with a value above 1. *)
Theorem shift_mean_lave_can_exceed_one :
  exists field ktmean out,
    shift_mean_lave field ktmean
                    default_ktmin default_min_quant default_max_quant = Ok out
    /\ exists i j q,
        inside out i j /\ pix NaN out i j = Fin q /\ 1 < q.
Proof.
  exists [[0; 1 # 2; 9 # 10; 1]], (9 # 10). eexists.
  split; [vm_compute; reflexivity|].
  exists 0%nat, 1%nat. eexists.
  split; [split; cbn; lia|]. split; [reflexivity|].
  vm_compute. reflexivity.
Qed.

(** ** Denominators are not checked *)

Lemma select_nonempty {A : Type} (mask : matrix bool) (a : matrix A) :
  select mask a <> [] -> flat a <> [].
Proof.
  unfold select. intros N Z. apply N. rewrite Z.
  now rewrite combine_nil.
Qed.

Lemma xlist_min_ok (l : list xval) :
  l <> [] -> exists m, xlist_min l = Ok m.
Proof. destruct l; [congruence | intros _; eexists; reflexivity]. Qed.

Lemma xlist_max_ok (l : list xval) :
  l <> [] -> exists m, xlist_max l = Ok m.
Proof. destruct l; [congruence | intros _; eexists; reflexivity]. Qed.

Lemma map_nonempty {A B : Type} (f : A -> B) (l : list A) :
  l <> [] -> map f l <> [].
Proof. destruct l; [congruence | discriminate]. Qed.

Lemma lave_trace_ok (field clear_mask : matrix Q) (edge_mask : matrix bool)
      (ktmean ktmax kt1pct max_quant : Q) :
  same_shape field clear_mask = true ->
  same_shape field edge_mask = true ->
  select (mmap (fun c => Qeq_bool c 0) clear_mask) field <> [] ->
  0 <= max_quant <= 1 ->
  exists t,
    lave_trace field clear_mask edge_mask ktmean ktmax kt1pct max_quant = Ok t.
Proof.
  intros S1 S2 N R. unfold lave_trace. rewrite S1, S2. cbn [andb negb].
  rewrite (quantile_ok _ _ N R). cbn [bind].
  pose proof (select_nonempty _ _ N) as Nf.
  set (c3 := mmap clip01 _).
  assert (N3 : flat c3 <> []).
  { unfold c3. rewrite !flat_mmap. now apply map_nonempty, map_nonempty. }
  destruct (xlist_min_ok _ N3) as (mn & ->).
  destruct (xlist_max_ok _ N3) as (mx & ->).
  cbn [bind]. eexists. reflexivity.
Qed.

(** C6 (as amended).  Neither remapper tests a denominator.  Whenever
    [np.quantile] itself succeeds (a non-empty selection, levels within
    [0,1], masks of the field's shape) [shift_mean_lave] and
    [lave_scaling_exact] return a field, whatever the values of
    [field_max], the current cloud mean, [nrange_c3] or the pixel counts;
    a division by zero is performed with the IEEE result ([inf] or
    [NaN]). *)
Theorem remappers_return_without_denominator_check :
  (forall (field : matrix Q) (ktmean ktmin min_quant max_quant : Q),
      filter (fun x => Qltb x 1) (flat field) <> [] ->
      0 <= min_quant <= 1 -> 0 <= max_quant <= 1 ->
      exists out,
        shift_mean_lave field ktmean ktmin min_quant max_quant = Ok out)
  /\ (forall (field clear_mask : matrix Q) (edge_mask : matrix bool)
        (ktmean ktmax kt1pct max_quant : Q),
         same_shape field clear_mask = true ->
         same_shape field edge_mask = true ->
         select (mmap (fun c => Qeq_bool c 0) clear_mask) field <> [] ->
         0 <= max_quant <= 1 ->
         exists out,
           lave_scaling_exact field clear_mask edge_mask
                              ktmean ktmax kt1pct max_quant = Ok out).
Proof.
  split.
  - intros field ktmean ktmin min_quant max_quant N Rmin Rmax.
    destruct (shift_mean_lave_run field ktmean ktmin min_quant max_quant
                _ _ (quantile_ok _ _ N Rmax) (quantile_ok _ _ N Rmin))
      as (final & Run & _).
    eexists. exact Run.
  - intros field clear_mask edge_mask ktmean ktmax kt1pct max_quant S1 S2 N R.
    destruct (lave_trace_ok field clear_mask edge_mask ktmean ktmax kt1pct
                max_quant S1 S2 N R) as (t & E).
    exists (clouds5 t). unfold lave_scaling_exact. now rewrite E.
Qed.

Lemma remappers_return_without_denominator_check_witness :
  (exists out,
      shift_mean_lave [[1 # 2; 1]] (1 # 2)
                      default_ktmin default_min_quant default_max_quant
      = Ok out)
  /\ (exists out,
         lave_scaling_exact [[0; 0]] [[0; 0]] [[false; false]]
                            (1 # 2) (14 # 10) (2 # 10) (99 # 100) = Ok out).
Proof.
  split.
  - apply (proj1 remappers_return_without_denominator_check).
    + vm_compute. discriminate.
    + split; vm_compute; discriminate.
    + split; vm_compute; discriminate.
  - apply (proj2 remappers_return_without_denominator_check).
    + reflexivity.
    + reflexivity.
    + vm_compute. discriminate.
    + split; vm_compute; discriminate.
Defined.

(** C6 (as stated) fails.  With all non-clear pixels 0, [field_max] is 0
    and [lave_scaling_exact] returns a field of [NaN]; with a single
    distinct cloudy value, [field_max - field_min] is 0 and
    [shift_mean_lave] returns a field holding a [NaN]; with every cloudy
    pixel clipped to 0 the current cloud mean is 0 and [shift_mean_lave]
    returns normally.  None of the calls raises. *)
Lemma zero_denominator_is_not_an_error :
  (exists field_max,
      quantile (select (mmap (fun c => Qeq_bool c 0) [[0; 0]]) [[0; 0]])
               (99 # 100) = Ok field_max
      /\ field_max == 0
      /\ lave_scaling_exact [[0; 0]] [[0; 0]] [[false; false]]
                            (1 # 2) (14 # 10) (2 # 10) (99 # 100)
         = Ok [[NaN; NaN]])
  /\ (exists field_max field_min,
         quantile (filter (fun x => Qltb x 1) (flat [[1 # 2; 1]]))
                  default_max_quant = Ok field_max
         /\ quantile (filter (fun x => Qltb x 1) (flat [[1 # 2; 1]]))
                     default_min_quant = Ok field_min
         /\ field_max - field_min == 0
         /\ shift_mean_lave [[1 # 2; 1]] (1 # 2)
                            default_ktmin default_min_quant default_max_quant
            = Ok [[NaN; Fin 1]])
  /\ (exists out,
         shift_mean_lave [[0; 1 # 2]] (1 # 4) 0 0 1 = Ok out
         /\ mat_xeq out [[Fin 0; Fin 1]]
         /\ xeq (xmean (filter (fun v => xltb v (Fin 1)) (flat out))) (Fin 0)).
Proof.
  split; [|split].
  - eexists. split; [vm_compute; reflexivity|].
    split; [reflexivity | vm_compute; reflexivity].
  - eexists. eexists. split; [vm_compute; reflexivity|].
    split; [vm_compute; reflexivity|].
    split; [reflexivity | vm_compute; reflexivity].
  - eexists. split; [vm_compute; reflexivity|].
    split; [repeat constructor | reflexivity].
Qed.

(** ** lave_scaling_exact *)

Lemma lave_trace_inv (field clear_mask : matrix Q) (edge_mask : matrix bool)
      (ktmean ktmax kt1pct max_quant : Q) (t : lave_stages) :
  lave_trace field clear_mask edge_mask ktmean ktmax kt1pct max_quant = Ok t ->
  clouds4 t
  = (if xltb (Fin 0) (diff_sum t)
     then mmap (xmul (xdiv (tgt_cloud_mean t) (current_cloud_mean t)))
               (clouds3 t)
     else clouds3 t)
  /\ tgt_cloud_mean t
     = xdiv (diff_sum t)
            (Fin (of_nat (count_true (flat (plain_cloud clear_mask edge_mask)))))
  /\ current_cloud_mean t
     = xmean (select (plain_cloud clear_mask edge_mask) (clouds3 t))
  /\ exists pre : matrix xval, clouds3 t = mmap clip01 pre.
Proof.
  unfold lave_trace. intro E.
  destruct (negb _) in E; [discriminate|].
  destruct (quantile _ _) in E; [|discriminate]. cbn [bind] in E.
  destruct (xlist_min _) in E; [|discriminate]. cbn [bind] in E.
  destruct (xlist_max _) in E; [|discriminate]. cbn [bind] in E.
  injection E as <-. cbn. repeat split. eexists. reflexivity.
Qed.

Lemma xdiv_by_positive (d : xval) (n : Q) :
  0 < n -> xltb (Fin 0) (xdiv d (Fin n)) = xltb (Fin 0) d.
Proof.
  intro P.
  assert (D : Qeq_bool n 0 = false).
  { destruct (Qeq_bool n 0) eqn:E; [|reflexivity].
    apply Qeq_bool_iff in E. lra. }
  assert (Sg : Z.sgn (Qnum n) = 1%Z).
  { apply Z.sgn_pos. unfold Qlt in P. cbn in P. lia. }
  destruct d as [q| | |]; cbn [xdiv sgn]; try rewrite D; try rewrite Sg;
    try reflexivity.
  cbn [xltb]. destruct (Qltb 0 q) eqn:E.
  - apply Qltb_lt. apply Qltb_lt in E. apply Qlt_shift_div_l; lra.
  - apply Qltb_ge. apply Qltb_ge in E.
    apply Qle_shift_div_r; [exact P | lra].
Qed.

Lemma clip01_unit_or_nan (v : xval) : unit_or_nan (clip01 v).
Proof.
  unfold clip01. destruct v as [q| | |]; cbn; try (split; discriminate); auto.
  destruct (Qltb 1 q) eqn:A; cbn.
  - split; discriminate.
  - apply Qltb_ge in A. destruct (Qltb q 0) eqn:B; cbn.
    + split; discriminate.
    + apply Qltb_ge in B. split; assumption.
Qed.

Lemma xsum_nonneg (l : list xval) (acc : xval) :
  Forall unit_or_nan l -> nonneg_or_nan acc ->
  nonneg_or_nan (fold_left xadd l acc).
Proof.
  intro F. revert acc. induction F as [|v l U F IH]; intros acc A; [exact A|].
  cbn. apply IH.
  destruct acc as [a| | |], v as [c| | |]; cbn in *; try contradiction; auto.
  lra.
Qed.

Lemma xmean_nonneg (l : list xval) :
  Forall unit_or_nan l -> nonneg_or_nan (xmean l).
Proof.
  intro F. unfold xmean, xsum.
  destruct l as [|v l]; [exact I|].
  pose proof (xsum_nonneg (v :: l) (Fin 0) F (Qle_refl 0)) as S.
  set (n := of_nat (length (v :: l))).
  assert (P : 0 < n) by (apply of_nat_pos; cbn; lia).
  assert (D : Qeq_bool n 0 = false).
  { destruct (Qeq_bool n 0) eqn:E; [|reflexivity].
    apply Qeq_bool_iff in E. lra. }
  destruct (fold_left xadd (v :: l) (Fin 0)) as [q| | |];
    cbn [nonneg_or_nan] in S; try contradiction; [|exact I].
  cbn [xdiv]. rewrite D. cbn [nonneg_or_nan].
  apply Qle_shift_div_l; [exact P | lra].
Qed.

Lemma select_in {A : Type} (mask : matrix bool) (a : matrix A) (v : A) :
  In v (select mask a) -> In v (flat a).
Proof.
  unfold select. intro I. apply in_map_iff in I.
  destruct I as ([k w] & <- & I). apply filter_In in I.
  destruct I as [I _]. eapply in_combine_r, I.
Qed.

Lemma above_nonneg_is_positive (cur tgt : xval) :
  nonneg_or_nan cur -> xltb cur tgt = true -> xltb (Fin 0) tgt = true.
Proof.
  destruct cur as [c| | |], tgt as [q| | |]; cbn; try discriminate;
    try contradiction; auto.
  intros C L. apply Qltb_lt. apply Qltb_lt in L. lra.
Qed.

(** C3 (as amended).  In [lave_scaling_exact], with at least one
    plain-cloud pixel, the flipped cloud field is multiplied by the ratio of
    the required plain-cloud mean to the current one exactly when the
    required mean is strictly positive (the test is [diff_sum > 0]), and is
    left unchanged otherwise.  A required mean above the current mean is
    positive, so it is one of the cases that rescale. *)
Theorem lave_rescales_iff_required_mean_positive
        (field clear_mask : matrix Q) (edge_mask : matrix bool)
        (ktmean ktmax kt1pct max_quant : Q) (t : lave_stages) :
  lave_trace field clear_mask edge_mask ktmean ktmax kt1pct max_quant = Ok t ->
  (0 < count_true (flat (plain_cloud clear_mask edge_mask)))%nat ->
  (xltb (Fin 0) (tgt_cloud_mean t) = true ->
   clouds4 t
   = mmap (xmul (xdiv (tgt_cloud_mean t) (current_cloud_mean t))) (clouds3 t))
  /\ (xltb (Fin 0) (tgt_cloud_mean t) = false -> clouds4 t = clouds3 t)
  /\ (xltb (current_cloud_mean t) (tgt_cloud_mean t) = true ->
      xltb (Fin 0) (tgt_cloud_mean t) = true).
Proof.
  intros E P.
  destruct (lave_trace_inv _ _ _ _ _ _ _ _ E) as (E4 & Et & Ec & pre & E3).
  assert (T : xltb (Fin 0) (tgt_cloud_mean t) = xltb (Fin 0) (diff_sum t)).
  { rewrite Et. apply xdiv_by_positive, of_nat_pos, P. }
  rewrite T. split; [|split].
  - intro G. now rewrite E4, G.
  - intro G. now rewrite E4, G.
  - rewrite <- T. apply above_nonneg_is_positive.
    rewrite Ec. apply xmean_nonneg, Forall_forall. intros v I.
    apply select_in in I. rewrite E3, flat_mmap in I.
    apply in_map_iff in I. destruct I as (w & <- & _).
    apply clip01_unit_or_nan.
Qed.

Lemma lave_rescales_iff_required_mean_positive_witness :
  exists t,
    lave_trace [[1 # 2; 1]] [[0; 0]] [[false; false]]
               (2 # 10) (14 # 10) (2 # 10) (99 # 100) = Ok t
    /\ (xltb (Fin 0) (tgt_cloud_mean t) = true ->
        clouds4 t
        = mmap (xmul (xdiv (tgt_cloud_mean t) (current_cloud_mean t)))
               (clouds3 t))
    /\ (xltb (Fin 0) (tgt_cloud_mean t) = false -> clouds4 t = clouds3 t)
    /\ (xltb (current_cloud_mean t) (tgt_cloud_mean t) = true ->
        xltb (Fin 0) (tgt_cloud_mean t) = true).
Proof.
  eexists. split; [vm_compute; reflexivity|].
  eapply (lave_rescales_iff_required_mean_positive
            [[1 # 2; 1]] [[0; 0]] [[false; false]]
            (2 # 10) (14 # 10) (2 # 10) (99 # 100)).
  - vm_compute. reflexivity.
  - vm_compute. lia.
Defined.

(** C3 (as stated) fails.  On the field [0.5 1] without clear or edge
    pixels and with target mean 0.2, the required plain-cloud mean 0.2 does
    not exceed the current mean (about 0.397), yet the flipped field is
    rescaled: its first pixel changes. *)
Lemma lave_rescales_below_current_mean :
  exists t,
    lave_trace [[1 # 2; 1]] [[0; 0]] [[false; false]]
               (2 # 10) (14 # 10) (2 # 10) (99 # 100) = Ok t
    /\ xltb (current_cloud_mean t) (tgt_cloud_mean t) = false
    /\ xltb (tgt_cloud_mean t) (current_cloud_mean t) = true
    /\ ~ xeq (pix NaN (clouds4 t) 0 0) (pix NaN (clouds3 t) 0 0).
Proof.
  eexists. split; [vm_compute; reflexivity|].
  split; [vm_compute; reflexivity|]. split; [vm_compute; reflexivity|].
  intro E. vm_compute in E. discriminate E.
Qed.

(** ** When the layers are generated *)

Section Layers.
Context {G : Type} {RS : RandomState G}.

Lemma stack_layers_ok (sz : nat * nat) (sw : list (Z * Q))
      (field : matrix Q) (s : G) :
  scales_fit sz sw ->
  exists acc s', stack_layers sz sw field s = Ok (acc, s').
Proof.
  intro F. revert field s.
  induction F as [|[scale weight] rest V F IH]; intros field s.
  - eexists. eexists. reflexivity.
  - cbn [stack_layers]. cbn [fst] in V.
    rewrite (random_at_scale_ok _ sz s V). cbn [bind]. apply IH.
Qed.

Lemma stacked_sum_ok {VW : VsWeights} (vs : Q) (sz : nat * nat)
      (w : list Q) (scales : list Z) (s : G) :
  length w = length scales ->
  scales_fit sz (combine scales w) ->
  exists acc s', stacked_sum vs sz (Some w) scales s = Ok (acc, s').
Proof.
  intros L F. unfold stacked_sum.
  rewrite (proj2 (Nat.eqb_eq _ _) L). cbn [assert bind].
  apply stack_layers_ok, F.
Qed.
End Layers.

(** ** Worked examples *)

Example linspace_3 : Forall2 Qeq (linspace 3) [0; 1 # 2; 1].
Proof. repeat constructor. Qed.

Example quantile_median : quantile [3; 1; 2; 4] (1 # 2) = Ok (5 # 2).
Proof. vm_compute. reflexivity. Qed.

Example quantile_empty : quantile [] (1 # 2) = Raises IndexError.
Proof. reflexivity. Qed.

Example isclose_half : isclose (1 # 2) (5004 # 10000) = true.
Proof. reflexivity. Qed.

Example clip_field_quartile :
  _clip_field [[4; 1]; [3; 2]] (1 # 2) = Ok [[0; 1]; [0; 1]].
Proof. vm_compute. reflexivity. Qed.

Example clip_field_assertion :
  _clip_field [[4; 1]; [3; 2]] (9 # 10) = Raises AssertionError.
Proof. vm_compute. reflexivity. Qed.

(** Between two grid lines the interpolant is the mean of the corners. *)
Example evaluate_linear_centre :
  evaluate_linear (linspace 2) (linspace 2) [[1; 3]; [5; 7]] (1 # 2) (1 # 2)
  == 4.
Proof. vm_compute. reflexivity. Qed.

Example coarse_axis_of_one_point :
  _random_at_scale (1, 2)%nat (3, 3)%nat 42%Z = Raises ValueError.
Proof. vm_compute. reflexivity. Qed.

Example sobel_vertical_edge :
  mat_eq (sobel [[0; 0; 1]; [0; 0; 1]; [0; 0; 1]])
         [[0; 4; 4]; [0; 4; 4]; [0; 4; 4]].
Proof. repeat constructor. Qed.

Example reflect_border :
  map (reflect 4) [-2; -1; 0; 3; 4; 5]%Z = [1; 0; 0; 3; 3; 2]%nat.
Proof. reflexivity. Qed.

Example xdiv_special :
  xdiv (Fin 1) (Fin 0) = PInf /\ xdiv (Fin 0) (Fin 0) = NaN
  /\ xmul PInf (Fin 0) = NaN /\ xltb NaN (Fin 1) = false
  /\ clip01 NInf = Fin 0 /\ clip01 NaN = NaN.
Proof. repeat split. Qed.

(** * Further properties *)

(** ** _clip_field: shape, extreme fractions, a floor on the clear count *)

Lemma same_len_map {A B : Type} (f : A -> B) (l : list A) :
  same_len l (map f l) = true.
Proof. induction l; cbn; auto. Qed.

Lemma same_shape_mmap {A B : Type} (f : A -> B) (m : matrix A) :
  same_shape m (mmap f m) = true.
Proof.
  unfold mmap. induction m as [|r m IH]; cbn [map same_shape]; [reflexivity|].
  now rewrite same_len_map, IH.
Qed.

Lemma clip_field_inv (field mask : matrix Q) (f : Q) :
  _clip_field field f = Ok mask ->
  flat field <> [] /\ 0 <= f <= 1
  /\ mask = mmap (clip_pixel (quantile_sorted (sort (flat field)) f)) field.
Proof.
  unfold _clip_field. intro E.
  destruct (quantile (flat field) f) as [q|e] eqn:Q; [|discriminate].
  apply quantile_inv in Q. destruct Q as (N & R & ->).
  cbn [bind] in E. destruct (assert _) in E; [|discriminate].
  cbn [bind] in E. injection E as <-. auto.
Qed.

(** X1.  A mask returned by [_clip_field] has the shape of the field and
    holds only the values 0 and 1. *)
Theorem clip_field_mask_is_binary (field mask : matrix Q) (f : Q) :
  _clip_field field f = Ok mask ->
  same_shape field mask = true /\ binary mask.
Proof.
  intro E. apply clip_field_inv in E. destruct E as (_ & _ & ->).
  split; [apply same_shape_mmap|].
  unfold binary, mmap. apply Forall_map, Forall_forall. intros r _.
  apply Forall_map, Forall_forall. intros x _. unfold clip_pixel.
  destruct (Qltb _ x); auto.
Qed.

Lemma clip_field_mask_is_binary_witness :
  same_shape [[4; 1]; [3; 2]] [[0; 1]; [0; 1]] = true
  /\ binary [[0; 1]; [0; 1]].
Proof.
  apply (clip_field_mask_is_binary [[4; 1]; [3; 2]] [[0; 1]; [0; 1]] (1 # 2)).
  vm_compute. reflexivity.
Defined.

Lemma filter_length_perm (p : Q -> bool) (l l' : list Q) :
  Permutation l l' -> length (filter p l) = length (filter p l').
Proof.
  induction 1 as [|x l l' P IH|x y l|l l' l'' P IH P' IH']; cbn.
  - reflexivity.
  - destruct (p x); cbn; now rewrite IH.
  - destruct (p x), (p y); reflexivity.
  - now rewrite IH.
Qed.

Lemma sorted_count_le (a : list Q) (k : nat) (m : Q) :
  StronglySorted Qle a -> (k < length a)%nat -> nth k a 0 <= m ->
  (S k <= length (filter (fun x => Qle_bool x m) a))%nat.
Proof.
  intro St. revert k. induction St as [|x t St IH F]; intros k L Le.
  - cbn in L. lia.
  - assert (X : x <= m).
    { destruct k as [|k]; [exact Le|]. cbn in Le, L.
      rewrite Forall_forall in F.
      eapply Qle_trans; [apply (F (nth k t 0)), nth_In; lia | exact Le]. }
    cbn [filter]. rewrite (proj2 (Qle_bool_iff _ _) X). cbn [length].
    destruct k as [|k]; [lia|].
    cbn in Le, L. specialize (IH k ltac:(lia) Le). lia.
Qed.

Lemma clear_count_clip (q : Q) (field : matrix Q) :
  clear_count (mmap (clip_pixel q) field)
  = length (filter (fun x => Qle_bool x q) (flat field)).
Proof.
  unfold clear_count. rewrite flat_mmap.
  induction (flat field) as [|x l IH]; [reflexivity|].
  unfold count_true in *. cbn [map filter]. unfold clip_pixel at 1, Qltb.
  destruct (Qle_bool x q); cbn; now rewrite IH.
Qed.

Lemma sort_nonempty (l : list Q) : l <> [] -> sort l <> [].
Proof.
  intros N Z. apply N, Permutation_nil. rewrite <- Z. apply sort_perm.
Qed.

Lemma quantile_count_floor (l : list Q) (f : Q) :
  l <> [] -> 0 <= f <= 1 ->
  let q := quantile_sorted (sort l) f in
  of_nat (length l - 1) * f
  < of_nat (length (filter (fun x => Qle_bool x q) l))
  /\ (1 <= length (filter (fun x => Qle_bool x q) l))%nat.
Proof.
  intros N R q.
  set (a := sort l) in *.
  rewrite (filter_length_perm _ _ a) by (symmetry; apply sort_perm).
  assert (La : length a = length l) by apply sort_length.
  assert (Pa : (0 < length a)%nat).
  { pose proof (sort_nonempty _ N) as Na. fold a in Na.
    destruct a; [congruence | cbn; lia]. }
  pose proof (sort_sorted l) as St. fold a in St.
  destruct (quantile_sorted_cases a f R) as [[Eq T]|(k & g & Eq & K & G & H)];
    cbn zeta in *; fold q in Eq.
  - pose proof (sorted_count_le a (length a - 1) q St ltac:(lia)
                  ltac:(rewrite Eq; apply Qle_refl)) as C.
    replace (S (length a - 1)) with (length a) in C by lia.
    split; [|lia]. rewrite <- La.
    apply Qle_lt_trans with (of_nat (length a - 1)).
    + destruct R as [_ R1]. pose proof (of_nat_nonneg (length a - 1)). nra.
    + eapply Qlt_le_trans; [|apply of_nat_le, C]. apply of_nat_lt. lia.
  - assert (Sk : nth k a 0 <= nth (S k) a 0) by (apply sorted_nth; auto; lia).
    pose proof (sorted_count_le a k q St ltac:(lia)
                  ltac:(rewrite Eq;
                        apply (lerp_between _ _ g Sk); split; lra)) as C.
    split; [|lia]. rewrite <- La, <- H.
    eapply Qlt_le_trans; [|apply of_nat_le, C]. rewrite of_nat_S. lra.
Qed.

Lemma clip_mask_clear_floor (field : matrix Q) (f : Q) :
  flat field <> [] -> 0 <= f <= 1 ->
  let q := quantile_sorted (sort (flat field)) f in
  of_nat (size field - 1) * f < of_nat (clear_count (mmap (clip_pixel q) field))
  /\ (1 <= clear_count (mmap (clip_pixel q) field))%nat.
Proof.
  intros N R q. rewrite clear_count_clip.
  apply (quantile_count_floor (flat field) f N R).
Qed.

(** X2.  Whenever [_clip_field] returns, the number of clear pixels
    exceeds [f * (n - 1)] for a field of [n] pixels: the mask is never
    cloudier than asked by more than one pixel, and at least one pixel (a
    minimum of the field) is clear. *)
Theorem clip_field_clear_count_floor (field mask : matrix Q) (f : Q) :
  _clip_field field f = Ok mask ->
  of_nat (size field - 1) * f < of_nat (clear_count mask)
  /\ (1 <= clear_count mask)%nat.
Proof.
  intro E. apply clip_field_inv in E. destruct E as (N & R & ->).
  apply clip_mask_clear_floor; assumption.
Qed.

Lemma clip_field_clear_count_floor_witness :
  of_nat (size [[4; 1]; [3; 2]] - 1) * (1 # 2)
  < of_nat (clear_count [[0; 1]; [0; 1]])
  /\ le 1%nat (clear_count [[0; 1]; [0; 1]]).
Proof.
  apply (clip_field_clear_count_floor [[4; 1]; [3; 2]] [[0; 1]; [0; 1]]
           (1 # 2)).
  vm_compute. reflexivity.
Defined.

Lemma count_le_length (p : Q -> bool) (l : list Q) :
  (length (filter p l) <= length l)%nat.
Proof. induction l as [|x l IH]; cbn; [lia|]. destruct (p x); cbn; lia. Qed.

Lemma filter_all (p : Q -> bool) (l : list Q) :
  length (filter p l) = length l -> forall x, In x l -> p x = true.
Proof.
  induction l as [|y l IH]; intros E x I; [destruct I|].
  cbn [filter] in E. pose proof (count_le_length p l) as U.
  destruct (p y) eqn:D; cbn [length] in E; [|lia].
  destruct I as [<-|I]; [exact D | apply IH; [lia | exact I]].
Qed.

Lemma clear_fraction_count (mask : matrix Q) :
  clear_fraction mask == of_nat (clear_count mask) / of_nat (size mask).
Proof. reflexivity. Qed.

(** X3.  With [clear_frac = 1] every pixel lies at or below the quantile
    (the maximum): on any non-empty field [_clip_field] returns the all-ones
    mask. *)
Theorem clip_field_all_clear (field : matrix Q) :
  flat field <> [] ->
  _clip_field field 1 = Ok (mmap (fun _ => 1) field).
Proof.
  intro N.
  assert (R : 0 <= 1 <= 1) by (split; discriminate).
  set (q := quantile_sorted (sort (flat field)) 1).
  destruct (clip_mask_clear_floor field 1 N R) as [Fl _]. fold q in Fl.
  assert (Cn : clear_count (mmap (clip_pixel q) field) = size field).
  { pose proof (count_le_length (fun x => Qle_bool x q) (flat field)) as U.
    rewrite <- clear_count_clip in U. fold (size field) in U.
    assert (L : of_nat (size field - 1) < of_nat (clear_count
                                                    (mmap (clip_pixel q) field)))
      by lra.
    unfold of_nat in L. rewrite <- Zlt_Qlt in L. lia. }
  assert (Pn : (0 < size field)%nat).
  { unfold size. destruct (flat field); [congruence | cbn; lia]. }
  assert (All : forall x, In x (flat field) -> clip_pixel q x = 1).
  { rewrite clear_count_clip in Cn. unfold size in Cn. intros x I.
    pose proof (filter_all _ _ Cn x I) as D. cbn in D.
    unfold clip_pixel, Qltb. now rewrite D. }
  assert (M : mmap (clip_pixel q) field = mmap (fun _ => 1) field).
  { unfold mmap. apply map_ext_in. intros r Ir. apply map_ext_in.
    intros x Ix. apply All. unfold flat. apply in_concat. eauto. }
  destruct (clip_field_run field 1 N R) as [[_ E]|[C _]].
  - fold q in E. now rewrite E, M.
  - exfalso. fold q in C.
    assert (F : clear_fraction (mmap (clip_pixel q) field) == 1).
    { rewrite clear_fraction_count, Cn, size_mmap. field.
      pose proof (of_nat_pos _ Pn). lra. }
    rewrite (isclose_proper 1 1 (Qeq_refl 1) _ _ F) in C. discriminate C.
Qed.

Lemma clip_field_all_clear_witness :
  _clip_field [[4; 1]; [3; 2]] 1 = Ok (mmap (fun _ => 1) [[4; 1]; [3; 2]]).
Proof. apply (clip_field_all_clear [[4; 1]; [3; 2]]). discriminate. Defined.

(** X4.  With [clear_frac = 0] the mask still has a clear pixel, so the
    closeness assertion fails: on any non-empty field of fewer than
    99 900 000 pixels [_clip_field] raises [AssertionError]. *)
Theorem clip_field_zero_fraction_rejected (field : matrix Q) :
  flat field <> [] -> (Z.of_nat (size field) < 99900000)%Z ->
  _clip_field field 0 = Raises AssertionError.
Proof.
  intros N Small.
  assert (R : 0 <= 0 <= 1) by (split; discriminate).
  set (q := quantile_sorted (sort (flat field)) 0).
  destruct (clip_mask_clear_floor field 0 N R) as [_ One]. fold q in One.
  destruct (clip_field_run field 0 N R) as [[C _]|[_ E]]; [exfalso | exact E].
  fold q in C.
  set (mask := mmap (clip_pixel q) field) in *.
  assert (Pn : 0 < of_nat (size field)).
  { apply of_nat_pos. unfold size. destruct (flat field); [congruence|cbn; lia]. }
  assert (Hn : of_nat (size field) < 99900000).
  { unfold of_nat. change 99900000 with (inject_Z 99900000).
    rewrite <- Zlt_Qlt. exact Small. }
  assert (Hc : 1 <= of_nat (clear_count mask)).
  { change 1 with (of_nat 1). apply of_nat_le, One. }
  set (r := clear_fraction mask) in *.
  assert (Hr : r * of_nat (size field) == of_nat (clear_count mask)).
  { unfold r. rewrite clear_fraction_count. unfold mask at 2.
    rewrite size_mmap. field. lra. }
  assert (R0 : 0 <= r).
  { unfold r. rewrite clear_fraction_count. unfold mask at 2.
    rewrite size_mmap. apply Qle_shift_div_l; [exact Pn|].
    pose proof (of_nat_nonneg (clear_count mask)). lra. }
  unfold isclose in C. apply Qle_bool_iff in C.
  rewrite (Qabs_pos r R0) in C.
  setoid_replace (0 - r) with (- r) in C by ring.
  rewrite Qabs_opp, (Qabs_pos r R0) in C.
  unfold atol, rtol in C. nra.
Qed.

Lemma clip_field_zero_fraction_rejected_witness :
  _clip_field [[4; 1]; [3; 2]] 0 = Raises AssertionError.
Proof.
  apply (clip_field_zero_fraction_rejected [[4; 1]; [3; 2]]).
  - discriminate.
  - cbn. lia.
Defined.

(** ** _random_at_scale: shapes, draws and the sizes it accepts *)

Section ScaleFacts.
Context {G : Type} {RS : RandomState G}.

Lemma draws_add (a b : nat) (s : G) : draws (a + b) s = draws b (draws a s).
Proof. revert s. induction a as [|a IH]; intro s; cbn; auto. Qed.

Lemma rand_row_state (c : nat) (s : G) : snd (rand_row c s) = draws c s.
Proof.
  revert s. induction c as [|c IH]; intro s; [reflexivity|].
  cbn. destruct (random_sample s) as [x s1] eqn:E. cbn.
  specialize (IH s1). destruct (rand_row c s1) as [row s2]. exact IH.
Qed.

Lemma rand_state (r c : nat) (s : G) : snd (rand r c s) = draws (r * c) s.
Proof.
  revert s. induction r as [|r IH]; intro s; [reflexivity|].
  cbn [rand Nat.mul]. pose proof (rand_row_state c s) as R.
  destruct (rand_row c s) as [row s1]. cbn in R.
  specialize (IH s1). destruct (rand r c s1) as [m s2]. cbn in IH |- *.
  now rewrite draws_add, <- R.
Qed.

Lemma random_at_scale_inv (rs fs : nat * nat) (s s' : G)
      (random random_new : matrix Q) :
  _random_at_scale rs fs s = Ok (random, random_new, s') ->
  random = fst (rand (fst rs) (snd rs) s)
  /\ s' = snd (rand (fst rs) (snd rs) s)
  /\ interpolate (linspace (fst rs)) (linspace (snd rs)) random
                 (linspace (fst fs)) (linspace (snd fs)) = Ok random_new.
Proof.
  unfold _random_at_scale. destruct (rand (fst rs) (snd rs) s) as [m s1].
  cbn [fst snd].
  destruct (interpolate _ _ _ _ _) as [out|e] eqn:I; [|discriminate].
  cbn. intro E. injection E as <- <- <-. auto.
Qed.

Lemma interpolate_inv (gx gy : list Q) (values out : matrix Q)
      (xnew ynew : list Q) :
  interpolate gx gy values xnew ynew = Ok out ->
  gx <> [] /\ gy <> []
  /\ (forall x y, In x xnew -> In y ynew ->
                  in_bounds gx x = true /\ in_bounds gy y = true)
  /\ out = map (fun xq => map (evaluate_linear gx gy values xq) ynew) xnew.
Proof.
  unfold interpolate. intro E.
  destruct gx as [|x0 gx]; [discriminate|].
  destruct gy as [|y0 gy]; [discriminate|].
  destruct (forallb _ _) eqn:B in E; [|discriminate].
  injection E as <-.
  split; [discriminate|]. split; [discriminate|]. split; [|reflexivity].
  intros x y Ix Iy. rewrite forallb_forall in B. specialize (B (x, y)).
  rewrite in_prod_iff in B. specialize (B (conj Ix Iy)).
  now apply andb_true_iff in B.
Qed.

Lemma mesh_rect (g : Q -> Q -> Q) (xnew ynew : list Q) :
  rect (length xnew) (length ynew) (map (fun xq => map (g xq) ynew) xnew).
Proof.
  split; [apply length_map|].
  apply Forall_map, Forall_forall. intros x _. apply length_map.
Qed.

(** X5.  When [_random_at_scale] returns, the coarse grid has the shape
    [rand_size], the interpolated field has the shape [final_size], and the
    generator has advanced by exactly [rows * cols] draws of the coarse
    grid, whatever the final size. *)
Theorem random_at_scale_shapes_and_draws (rs fs : nat * nat) (s s' : G)
        (random random_new : matrix Q) :
  _random_at_scale rs fs s = Ok (random, random_new, s') ->
  rect (fst rs) (snd rs) random
  /\ rect (fst fs) (snd fs) random_new
  /\ s' = draws (fst rs * snd rs) s.
Proof.
  intro E. apply random_at_scale_inv in E. destruct E as (-> & -> & I).
  apply interpolate_inv in I. destruct I as (_ & _ & _ & ->).
  split; [apply rand_shape|]. split; [|apply rand_state].
  pose proof (mesh_rect (evaluate_linear (linspace (fst rs)) (linspace (snd rs))
                           (fst (rand (fst rs) (snd rs) s)))
                        (linspace (fst fs)) (linspace (snd fs))) as M.
  now rewrite !linspace_length in M.
Qed.

Lemma stretched_point_out_of_bounds (N : nat) :
  (2 <= N)%nat ->
  in_bounds (linspace 1) (nth (N - 1) (linspace N) 0) = false.
Proof.
  intro L. unfold in_bounds. apply andb_false_iff. right.
  destruct (Qle_bool _ _) eqn:E; [|reflexivity]. exfalso.
  apply Qle_bool_iff in E. rewrite linspace_nth in E by lia.
  assert (P : 0 < of_nat (N - 1)) by (apply of_nat_pos; lia).
  assert (O : of_nat (N - 1) / of_nat (N - 1) == 1) by (field; lra).
  assert (Z0 : last (linspace 1) 0 == 0) by reflexivity.
  rewrite O, Z0 in E. lra.
Qed.

Lemma returns_valid_axis (n N : nat) (y : Q) (gy ynew : list Q) :
  (1 <= N)%nat -> linspace n <> [] -> In y ynew ->
  (forall x y, In x (linspace N) -> In y ynew ->
               in_bounds (linspace n) x = true /\ in_bounds gy y = true) ->
  valid_axis n N.
Proof.
  intros PN Ne Iy B.
  assert (Pn : (1 <= n)%nat).
  { destruct n; [exfalso; apply Ne; reflexivity | lia]. }
  destruct (Nat.eq_dec n 1) as [->|N1]; [|left; lia].
  right. split; [reflexivity|].
  destruct (le_lt_dec N 1) as [L|L]; [exact L|]. exfalso.
  assert (I : In (nth (N - 1) (linspace N) 0) (linspace N))
    by (apply nth_In; rewrite linspace_length; lia).
  destruct (B _ _ I Iy) as [Bx _].
  rewrite stretched_point_out_of_bounds in Bx by lia. discriminate.
Qed.

Lemma linspace_has_point (n : nat) :
  (1 <= n)%nat -> exists x, In x (linspace n).
Proof.
  intro P. exists (nth 0 (linspace n) 0). apply nth_In.
  rewrite linspace_length. lia.
Qed.

Lemma random_at_scale_returns_iff (rs fs : nat * nat) (s : G) :
  (1 <= fst fs)%nat -> (1 <= snd fs)%nat ->
  (exists r, _random_at_scale rs fs s = Ok r) <-> valid_sizes rs fs.
Proof.
  intros PR PC. split.
  - intros [[[random random_new] s'] E].
    apply random_at_scale_inv in E. destruct E as (_ & _ & I).
    apply interpolate_inv in I. destruct I as (Nx & Ny & B & _).
    destruct (linspace_has_point _ PR) as [x0 Ix].
    destruct (linspace_has_point _ PC) as [y0 Iy].
    split.
    + eapply (returns_valid_axis _ _ y0 _ _ PR Nx Iy). exact B.
    + eapply (returns_valid_axis _ _ x0 _ _ PC Ny Ix).
      intros y x Hy Hx. destruct (B x y Hx Hy). split; eassumption.
  - intro V. eexists. apply (random_at_scale_ok rs fs s V).
Qed.

(** X6.  For a non-empty target [_random_at_scale] returns exactly on the
    sizes whose coarse axes have at least two points (or one point for a
    target axis of one point).  A coarse axis without points raises
    [IndexError]; a coarse axis of one point stretched over a longer axis
    raises [ValueError] (the queries leave the grid). *)
Theorem random_at_scale_accepted_sizes (rs fs : nat * nat) (s : G) :
  (1 <= fst fs)%nat -> (1 <= snd fs)%nat ->
  ((exists r, _random_at_scale rs fs s = Ok r) <-> valid_sizes rs fs)
  /\ (fst rs = 0%nat \/ snd rs = 0%nat ->
      _random_at_scale rs fs s = Raises IndexError)
  /\ ((1 <= fst rs)%nat -> (1 <= snd rs)%nat -> ~ valid_sizes rs fs ->
      _random_at_scale rs fs s = Raises ValueError).
Proof.
  intros PR PC.
  pose proof (random_at_scale_returns_iff rs fs s PR PC) as Iff.
  split; [exact Iff|]. split.
  - intro Z. unfold _random_at_scale.
    destruct (rand (fst rs) (snd rs) s) as [m s1]. unfold interpolate.
    destruct Z as [-> | ->]; cbn [linspace seq map bind].
    + reflexivity.
    + destruct (linspace (fst rs)); reflexivity.
  - intros Pr Pc NV. unfold _random_at_scale.
    destruct (rand (fst rs) (snd rs) s) as [m s1] eqn:Er.
    destruct (interpolate _ _ m _ _) as [out|e] eqn:I.
    + exfalso. apply NV, Iff. eexists. unfold _random_at_scale.
      rewrite Er, I. reflexivity.
    + cbn [bind]. f_equal. unfold interpolate in I.
      pose proof (linspace_nonempty _ Pr) as Nx.
      pose proof (linspace_nonempty _ Pc) as Ny.
      destruct (linspace (fst rs)); [congruence|].
      destruct (linspace (snd rs)); [congruence|].
      destruct (forallb _ _) in I; [discriminate|]. now injection I.
Qed.
End ScaleFacts.

Lemma random_at_scale_accepted_sizes_witness :
  ((exists r, _random_at_scale (1, 2)%nat (3, 3)%nat 42%Z = Ok r)
   <-> valid_sizes (1, 2)%nat (3, 3)%nat)
  /\ (fst (1, 2)%nat = 0%nat \/ snd (1, 2)%nat = 0%nat ->
      _random_at_scale (1, 2)%nat (3, 3)%nat 42%Z = Raises IndexError)
  /\ ((1 <= fst (1, 2)%nat)%nat -> (1 <= snd (1, 2)%nat)%nat ->
      ~ valid_sizes (1, 2)%nat (3, 3)%nat ->
      _random_at_scale (1, 2)%nat (3, 3)%nat 42%Z = Raises ValueError).
Proof.
  apply (random_at_scale_accepted_sizes (1, 2)%nat (3, 3)%nat 42%Z);
    cbn; lia.
Defined.

Lemma random_at_scale_shapes_and_draws_witness :
  exists random random_new s',
    _random_at_scale (2, 2)%nat (3, 4)%nat 42%Z = Ok (random, random_new, s')
    /\ rect 2 2 random /\ rect 3 4 random_new
    /\ s' = draws (2 * 2) 42%Z.
Proof.
  eexists. eexists. eexists. split; [vm_compute; reflexivity|].
  apply (random_at_scale_shapes_and_draws (2, 2)%nat (3, 4)%nat 42%Z).
  vm_compute. reflexivity.
Defined.

(** ** stacked_field: shape, range, degenerate sums, sizes for the default
    scales *)

Lemma zipw_length {A B C : Type} (f : A -> B -> C) (l : list A) (l' : list B) :
  length l = length l' -> length (zipw f l l') = length l.
Proof.
  revert l'. induction l as [|a l IH]; intros [|b l'] E; try discriminate;
    cbn; [reflexivity|]. f_equal. apply IH. now injection E.
Qed.

Lemma mzip_rect {A B C : Type} (f : A -> B -> C) (rows cols : nat)
      (m : matrix A) (m' : matrix B) :
  rect rows cols m -> rect rows cols m' -> rect rows cols (mzip f m m').
Proof.
  intros [L F] [L' F']. unfold mzip. split.
  - rewrite zipw_length; congruence.
  - clear L L'. revert m' F'. induction F as [|r m Hr F IH]; intros m' F'.
    + constructor.
    + destruct F' as [|r' m' Hr' F']; cbn; constructor.
      * rewrite zipw_length; congruence.
      * apply IH, F'.
Qed.

Lemma zeros_rect (rows cols : nat) : rect rows cols (zeros rows cols).
Proof.
  unfold zeros. split; [apply repeat_length|].
  apply Forall_forall. intros r I. apply repeat_spec in I. subst r.
  apply repeat_length.
Qed.

Lemma mmap_rect {A B : Type} (f : A -> B) (rows cols : nat) (m : matrix A) :
  rect rows cols m -> rect rows cols (mmap f m).
Proof.
  intros [L F]. unfold mmap. split; [now rewrite length_map|].
  apply Forall_map. eapply Forall_impl; [|exact F].
  intros r E. cbn. now rewrite length_map.
Qed.

Lemma rect_inside {A : Type} (rows cols : nat) (m : matrix A) (i j : nat) :
  rect rows cols m -> (inside m i j <-> (i < rows)%nat /\ (j < cols)%nat).
Proof.
  intro R. unfold inside. destruct R as [L F]. rewrite L.
  split; intros [Hi Hj]; split; auto.
  - rewrite (rect_row rows cols m i (conj L F) Hi) in Hj. exact Hj.
  - now rewrite (rect_row rows cols m i (conj L F) Hi).
Qed.

Section StackedFacts.
Context {G : Type} {RS : RandomState G}.

Lemma random_at_scale_field_rect (rs fs : nat * nat) (s s' : G)
      (random random_new : matrix Q) :
  _random_at_scale rs fs s = Ok (random, random_new, s') ->
  rect (fst fs) (snd fs) random_new.
Proof.
  intro E. apply random_at_scale_inv in E. destruct E as (_ & _ & I).
  apply interpolate_inv in I. destruct I as (_ & _ & _ & ->).
  pose proof (mesh_rect (evaluate_linear (linspace (fst rs)) (linspace (snd rs))
                           random)
                        (linspace (fst fs)) (linspace (snd fs))) as M.
  now rewrite !linspace_length in M.
Qed.

Lemma stack_layers_step (sz : nat * nat) (scale : Z) (weight : Q)
      (rest : list (Z * Q)) (field acc : matrix Q) (s s' : G) :
  stack_layers sz ((scale, weight) :: rest) field s = Ok (acc, s') ->
  exists random i_field s1,
    _random_at_scale
      (int_scaled (fst sz) (Qpower 2 (- scale + 1)),
       int_scaled (snd sz) (Qpower 2 (- scale + 1))) sz s
    = Ok (random, i_field, s1)
    /\ stack_layers sz rest (mzip (fun f i => f + i * weight) field i_field) s1
       = Ok (acc, s').
Proof.
  cbn [stack_layers]. intro E.
  destruct (_random_at_scale _ sz s) as [[[random i_field] s1]|e];
    [|discriminate].
  cbn [bind] in E. eauto.
Qed.

Lemma stack_layers_rect (sz : nat * nat) (sw : list (Z * Q))
      (field acc : matrix Q) (s s' : G) :
  rect (fst sz) (snd sz) field ->
  stack_layers sz sw field s = Ok (acc, s') ->
  rect (fst sz) (snd sz) acc.
Proof.
  revert field s. induction sw as [|[scale weight] rest IH]; intros field s R E.
  - cbn in E. now injection E as <- _.
  - apply stack_layers_step in E.
    destruct E as (random & i_field & s1 & E1 & E2).
    apply (IH _ _ (mzip_rect _ _ _ _ _ R
                     (random_at_scale_field_rect _ _ _ _ _ _ E1)) E2).
Qed.

Lemma stack_layers_fit (sz : nat * nat) (sw : list (Z * Q))
      (field acc : matrix Q) (s s' : G) :
  (1 <= fst sz)%nat -> (1 <= snd sz)%nat ->
  stack_layers sz sw field s = Ok (acc, s') -> scales_fit sz sw.
Proof.
  intros PR PC. revert field s.
  induction sw as [|[scale weight] rest IH]; intros field s E; [constructor|].
  apply stack_layers_step in E.
  destruct E as (random & i_field & s1 & E1 & E2).
  constructor; [|eapply IH; exact E2].
  cbn [fst]. apply (proj1 (random_at_scale_returns_iff _ sz s PR PC)).
  eexists. exact E1.
Qed.
End StackedFacts.

Lemma normalize_inv (field out : matrix Q) :
  normalize field = Ok out ->
  exists mn mx lo hi,
    out = mmap (fun x => x / mx) (mmap (fun x => x - mn) field)
    /\ list_min (flat out) = Ok lo /\ lo == 0
    /\ list_max (flat out) = Ok hi /\ hi == 1.
Proof.
  unfold normalize. intro E.
  destruct (list_min (flat field)) as [mn|e]; [|discriminate]. cbn [bind] in E.
  destruct (list_max _) as [mx|e] in E; [|discriminate]. cbn [bind] in E.
  destruct (Qeq_bool mx 0); [discriminate|].
  destruct (list_min _) as [lo|e] eqn:Elo in E; [|discriminate].
  cbn [bind] in E.
  destruct (Qeq_bool lo 0) eqn:Zlo; [|discriminate]. cbn [assert bind] in E.
  destruct (list_max _) as [hi|e] eqn:Ehi in E; [|discriminate].
  cbn [bind] in E.
  destruct (Qeq_bool hi 1) eqn:Zhi; [|discriminate]. cbn [assert bind] in E.
  injection E as <-. exists mn, mx, lo, hi.
  apply Qeq_bool_iff in Zlo. apply Qeq_bool_iff in Zhi. auto.
Qed.

Lemma list_min_lower (l : list Q) (m y : Q) :
  list_min l = Ok m -> In y l -> m <= y.
Proof.
  intros E I. assert (N : l <> []) by (intro Z; subst l; destruct I).
  destruct (list_min_spec l N) as (m' & E' & _ & H).
  rewrite E in E'. injection E' as <-. apply H, I.
Qed.

Lemma list_max_upper (l : list Q) (m y : Q) :
  list_max l = Ok m -> In y l -> y <= m.
Proof.
  intros E I. assert (N : l <> []) by (intro Z; subst l; destruct I).
  destruct (list_max_spec l N) as (m' & E' & _ & H).
  rewrite E in E'. injection E' as <-. apply H, I.
Qed.

Section StackedField.
Context {G : Type} {RS : RandomState G} {VW : VsWeights}.

Lemma stacked_field_inv (vs : Q) (sz : nat * nat) (weights : option (list Q))
      (scales : list Z) (s s' : G) (field : matrix Q) :
  stacked_field vs sz weights scales s = Ok (field, s') ->
  exists acc, stacked_sum vs sz weights scales s = Ok (acc, s')
              /\ normalize acc = Ok field.
Proof.
  unfold stacked_field. intro E.
  destruct (stacked_sum vs sz weights scales s) as [[acc s1]|e];
    [|discriminate].
  cbn [bind fst snd] in E.
  destruct (normalize acc) as [out|e] eqn:N; [|discriminate].
  cbn [bind] in E. injection E as <- <-. eauto.
Qed.

Lemma stacked_sum_inv (vs : Q) (sz : nat * nat) (weights : option (list Q))
      (scales : list Z) (s s' : G) (acc : matrix Q) :
  stacked_sum vs sz weights scales s = Ok (acc, s') ->
  exists w, stack_layers sz (combine scales w) (zeros (fst sz) (snd sz)) s
            = Ok (acc, s')
            /\ (forall w', weights = Some w' ->
                           w = w' /\ length w = length scales).
Proof.
  unfold stacked_sum. intro E. destruct weights as [w'|].
  - destruct (length w' =? length scales)%nat eqn:L; [|discriminate].
    cbn [assert bind] in E. exists w'. split; [exact E|].
    intros w'' X. injection X as <-. apply Nat.eqb_eq in L. auto.
  - destruct (_calc_vs_weights scales vs) as [w|e]; [|discriminate].
    cbn [bind] in E. exists w. split; [exact E | discriminate].
Qed.

(** X7.  A field returned by [stacked_field] has the requested size, and
    every pixel lies in [[0, 1]]. *)
Theorem stacked_field_shape_and_range (vs : Q) (sz : nat * nat)
        (weights : option (list Q)) (scales : list Z) (s s' : G)
        (field : matrix Q) :
  stacked_field vs sz weights scales s = Ok (field, s') ->
  rect (fst sz) (snd sz) field
  /\ forall i j, (i < fst sz)%nat -> (j < snd sz)%nat ->
                 0 <= pix 0 field i j <= 1.
Proof.
  intro E. apply stacked_field_inv in E. destruct E as (acc & Es & En).
  apply stacked_sum_inv in Es. destruct Es as (w & Es & _).
  pose proof (stack_layers_rect _ _ _ _ _ _ (zeros_rect _ _) Es) as Ra.
  destruct (normalize_inv _ _ En) as (mn & mx & lo & hi & Eo & Elo & Zlo
                                       & Ehi & Zhi).
  assert (Rf : rect (fst sz) (snd sz) field)
    by (rewrite Eo; now apply mmap_rect, mmap_rect).
  split; [exact Rf|]. intros i j Hi Hj.
  assert (I : In (pix 0 field i j) (flat field)).
  { apply pix_in_flat, (rect_inside _ _ _ _ _ Rf). auto. }
  pose proof (list_min_lower _ _ _ Elo I) as A.
  pose proof (list_max_upper _ _ _ Ehi I) as B.
  split; lra.
Qed.

(** X8.  When the weighted sum of the layers is constant (its minimum
    equals its maximum, as with all weights 0), the division by the zero
    range yields no valid field and [stacked_field] raises
    [AssertionError]. *)
Theorem stacked_field_constant_sum_rejected (vs : Q) (sz : nat * nat)
        (weights : option (list Q)) (scales : list Z) (s s' : G)
        (acc : matrix Q) (lo hi : Q) :
  stacked_sum vs sz weights scales s = Ok (acc, s') ->
  list_min (flat acc) = Ok lo -> list_max (flat acc) = Ok hi -> lo == hi ->
  stacked_field vs sz weights scales s = Raises AssertionError.
Proof.
  intros E Elo Ehi Eq. unfold stacked_field. rewrite E. cbn [bind fst snd].
  unfold normalize. rewrite Elo. cbn [bind].
  rewrite flat_mmap, (list_max_map _ _ hi (increasing_shift lo) Ehi).
  cbn [bind].
  assert (Z : Qeq_bool (hi - lo) 0 = true) by (apply Qeq_bool_iff; lra).
  now rewrite Z.
Qed.
End StackedField.

Lemma stacked_field_shape_and_range_witness :
  exists field s',
    stacked_field (VW := vs_weights_on_tuple)
                  40 (4, 4)%nat (Some [1 # 2; 1 # 2]) [1; 2]%Z 42%Z
    = Ok (field, s')
    /\ rect 4 4 field
    /\ forall i j, (i < 4)%nat -> (j < 4)%nat -> 0 <= pix 0 field i j <= 1.
Proof.
  eexists. eexists. split; [vm_compute; reflexivity|].
  eapply (stacked_field_shape_and_range (VW := vs_weights_on_tuple)
            40 (4, 4)%nat (Some [1 # 2; 1 # 2]) [1; 2]%Z 42%Z).
  vm_compute. reflexivity.
Defined.

Lemma stacked_field_constant_sum_rejected_witness :
  stacked_field (VW := vs_weights_on_tuple)
                40 (4, 4)%nat (Some [0; 0]) [1; 2]%Z 42%Z
  = Raises AssertionError.
Proof.
  eapply (stacked_field_constant_sum_rejected (VW := vs_weights_on_tuple)
            40 (4, 4)%nat (Some [0; 0]) [1; 2]%Z 42%Z).
  - vm_compute. reflexivity.
  - vm_compute. reflexivity.
  - vm_compute. reflexivity.
  - vm_compute. reflexivity.
Defined.

Lemma int_scaled_zero (p : Q) : int_scaled 0 p = 0%nat.
Proof.
  unfold int_scaled. assert (E : of_nat 0 * p == 0) by (unfold of_nat; cbn; ring).
  now rewrite (Qfloor_comp _ _ E).
Qed.

Lemma int_scaled_lower (n : nat) (p : Q) (k : Z) :
  (1 <= k)%Z -> (k <= Z.of_nat (int_scaled n p))%Z -> inject_Z k <= of_nat n * p.
Proof.
  intros K L. unfold int_scaled in L.
  rewrite Z2Nat.id in L by lia.
  eapply Qle_trans; [|apply Qfloor_le]. now rewrite <- Zle_Qle.
Qed.

Lemma int_scaled_upper (n : nat) (p : Q) (k : Z) :
  inject_Z k <= of_nat n * p -> (k <= Z.of_nat (int_scaled n p))%Z.
Proof.
  intro L. unfold int_scaled. apply Qfloor_resp_le in L.
  rewrite Qfloor_Z in L. lia.
Qed.

Lemma coarsest_default_axis (n : nat) :
  valid_axis (int_scaled n (Qpower 2 (- 7 + 1))) n -> (128 <= n)%nat.
Proof.
  change (Qpower 2 (- 7 + 1)) with (/ 64). intros [V|[V L]].
  - pose proof (int_scaled_lower n (/ 64) 2 ltac:(lia) ltac:(lia)) as B.
    assert (C : inject_Z 128 <= of_nat n).
    { change (inject_Z 128) with 128. change (inject_Z 2) with 2 in B.
      setoid_replace (/ 64) with (1 # 64) in B by reflexivity. lra. }
    unfold of_nat in C. rewrite <- Zle_Qle in C. lia.
  - pose proof (int_scaled_lower n (/ 64) 1 ltac:(lia) ltac:(lia)) as B.
    assert (C : inject_Z 64 <= of_nat n).
    { change (inject_Z 64) with 64. change (inject_Z 1) with 1 in B.
      setoid_replace (/ 64) with (1 # 64) in B by reflexivity. lra. }
    unfold of_nat in C. rewrite <- Zle_Qle in C. lia.
Qed.

Lemma default_axis_fits (n : nat) (p : Q) :
  (128 <= n)%nat -> 1 # 64 <= p -> valid_axis (int_scaled n p) n.
Proof.
  intros L P. left.
  assert (B : inject_Z 2 <= of_nat n * p).
  { change (inject_Z 2) with 2.
    assert (C : 128 <= of_nat n).
    { change 128 with (inject_Z 128). unfold of_nat. rewrite <- Zle_Qle. lia. }
    nra. }
  apply int_scaled_upper in B. lia.
Qed.

Lemma default_scales_fit (R C : nat) (w : list Q) :
  (128 <= R)%nat -> (128 <= C)%nat ->
  scales_fit (R, C) (combine default_scales w).
Proof.
  intros LR LC. unfold scales_fit.
  assert (F : Forall (fun p : Z * Q => 1 # 64 <= Qpower 2 (- fst p + 1))
                     (combine default_scales w)).
  { apply Forall_forall. intros [z q] I. apply in_combine_l in I. cbn [fst].
    unfold default_scales in I. cbn in I.
    repeat (destruct I as [<-|I]; [vm_compute; discriminate|]).
    destruct I. }
  eapply Forall_impl; [|exact F]. intros [z q] P. cbn [fst snd] in *.
  split; cbn [fst snd]; now apply default_axis_fits.
Qed.

Lemma normalize_outcome (field : matrix Q) :
  flat field <> [] ->
  (exists out, normalize field = Ok out)
  \/ normalize field = Raises AssertionError.
Proof.
  intro N. unfold normalize.
  destruct (list_min_spec _ N) as (mn & -> & _). cbn [bind].
  assert (N1 : flat (mmap (fun x => x - mn) field) <> [])
    by (rewrite flat_mmap; now apply map_nonempty).
  destruct (list_max_spec _ N1) as (mx & -> & _). cbn [bind].
  destruct (Qeq_bool mx 0); [now right|].
  assert (N2 : flat (mmap (fun x => x / mx) (mmap (fun x => x - mn) field))
               <> [])
    by (rewrite flat_mmap; now apply map_nonempty).
  destruct (list_min_spec _ N2) as (lo & -> & _). cbn [bind].
  destruct (Qeq_bool lo 0); cbn [assert bind]; [|now right].
  destruct (list_max_spec _ N2) as (hi & -> & _). cbn [bind].
  destruct (Qeq_bool hi 1); cbn [assert bind]; [left; eauto | now right].
Qed.

Section DefaultScales.
Context {G : Type} {RS : RandomState G} {VW : VsWeights}.

Lemma first_layer_needs_pixels (sz : nat * nat) (scale : Z) (weight : Q)
      (rest : list (Z * Q)) (field acc : matrix Q) (s s' : G) :
  stack_layers sz ((scale, weight) :: rest) field s = Ok (acc, s') ->
  (1 <= fst sz)%nat /\ (1 <= snd sz)%nat.
Proof.
  intro E. apply stack_layers_step in E.
  destruct E as (random & i_field & s1 & E & _).
  apply random_at_scale_inv in E. destruct E as (_ & _ & I).
  apply interpolate_inv in I. destruct I as (Nx & Ny & _). cbn [fst snd] in *.
  split.
  - destruct (fst sz); [|lia]. rewrite int_scaled_zero in Nx.
    exfalso. apply Nx. reflexivity.
  - destruct (snd sz); [|lia]. rewrite int_scaled_zero in Ny.
    exfalso. apply Ny. reflexivity.
Qed.

(** X9.  With the default scales 1..7 and explicit weights,
    [stacked_field] can only return when there are 7 weights and both axes
    have at least 128 pixels (the coarsest layer needs two grid points per
    axis); on those inputs all layers are generated and the only possible
    failure left is the [AssertionError] of a constant sum. *)
Theorem stacked_field_default_scales_need_128 (vs : Q) (R C : nat)
        (w : list Q) (s : G) :
  (forall r, stacked_field vs (R, C) (Some w) default_scales s = Ok r ->
             length w = 7%nat /\ (128 <= R)%nat /\ (128 <= C)%nat)
  /\ (length w = 7%nat -> (128 <= R)%nat -> (128 <= C)%nat ->
      (exists r, stacked_field vs (R, C) (Some w) default_scales s = Ok r)
      \/ stacked_field vs (R, C) (Some w) default_scales s
         = Raises AssertionError).
Proof.
  split.
  - intros [field s'] E. apply stacked_field_inv in E.
    destruct E as (acc & Es & _). apply stacked_sum_inv in Es.
    destruct Es as (w' & Es & Hw). destruct (Hw w eq_refl) as [-> Lw].
    split; [exact Lw|].
    destruct w as [|w1 [|w2 [|w3 [|w4 [|w5 [|w6 [|w7 [|w8 w]]]]]]]];
      try discriminate Lw.
    pose proof (first_layer_needs_pixels _ _ _ _ _ _ _ _ Es) as [PR PC].
    pose proof (stack_layers_fit _ _ _ _ _ _ PR PC Es) as F.
    unfold scales_fit in F. rewrite Forall_forall in F.
    specialize (F (7%Z, w7)). cbn [fst snd] in F.
    destruct F as [FR FC]; [cbn; auto 10|]. cbn [fst snd] in *.
    split; now apply coarsest_default_axis.
  - intros Lw LR LC.
    destruct (stacked_sum_ok vs (R, C) w default_scales s Lw
                (default_scales_fit R C w LR LC)) as (acc & s' & E).
    unfold stacked_field. rewrite E. cbn [bind fst snd].
    pose proof E as E'. apply stacked_sum_inv in E'.
    destruct E' as (w' & Es & _).
    pose proof (stack_layers_rect _ _ _ _ _ _ (zeros_rect _ _) Es) as Ra.
    cbn [fst snd] in Ra.
    assert (N : flat acc <> []).
    { intro Z. pose proof (pix_in_flat 0 acc 0 0) as I. rewrite Z in I.
      apply I, (rect_inside _ _ _ _ _ Ra). lia. }
    destruct (normalize_outcome acc N) as [[out ->]| ->]; cbn [bind].
    + left. eauto.
    + now right.
Qed.
End DefaultScales.

Lemma stacked_field_default_scales_need_128_witness :
  (exists r,
      stacked_field (VW := vs_weights_on_tuple) 40 (128, 128)%nat
                    (Some [1; 1; 1; 1; 1; 1; 1]) default_scales 42%Z = Ok r)
  \/ stacked_field (VW := vs_weights_on_tuple) 40 (128, 128)%nat
                   (Some [1; 1; 1; 1; 1; 1; 1]) default_scales 42%Z
     = Raises AssertionError.
Proof.
  apply (proj2 (stacked_field_default_scales_need_128
                  (VW := vs_weights_on_tuple) 40 128 128
                  [1; 1; 1; 1; 1; 1; 1] 42%Z)).
  - reflexivity.
  - lia.
  - lia.
Defined.

(** ** _find_edges: flat masks, and the share of marked pixels *)

Lemma zero_nth (l : list Q) (k : nat) :
  Forall (fun x => x == 0) l -> nth k l 0 == 0.
Proof.
  intro F. destruct (nth_in_or_default k l 0) as [I| ->]; [|reflexivity].
  rewrite Forall_forall in F. apply F, I.
Qed.

Lemma Qsum_zero (l : list Q) : Forall (fun x => x == 0) l -> Qsum l == 0.
Proof.
  induction 1 as [|x l X F IH]; [reflexivity|].
  cbn. fold (Qsum l). rewrite X, IH. ring.
Qed.

Lemma correlate1d_zero (w line : list Q) :
  Forall (fun x => x == 0) line ->
  Forall (fun x => x == 0) (correlate1d w line).
Proof.
  intro F. unfold correlate1d. apply Forall_map, Forall_forall. intros i _.
  apply Qsum_zero, Forall_map, Forall_forall. intros j _. cbn beta.
  rewrite (zero_nth line _ F). ring.
Qed.

Lemma uniform_filter1d_zero (width : nat) (line : list Q) :
  Forall (fun x => x == 0) line ->
  Forall (fun x => x == 0) (uniform_filter1d width line).
Proof.
  intro F. unfold uniform_filter1d. apply Forall_map, Forall_forall.
  intros i _. cbn beta.
  assert (Z : Qsum (map (fun t => nth (reflect (length line)
                                         (Z.of_nat i - Z.of_nat (width / 2)
                                          + Z.of_nat t)) line 0)
                        (seq 0 width)) == 0).
  { apply Qsum_zero, Forall_map, Forall_forall. intros t _.
    apply zero_nth, F. }
  rewrite Z. unfold Qdiv. ring.
Qed.

Lemma transpose_zero (m : matrix Q) : zero_array m -> zero_array (transpose m).
Proof.
  intro F. unfold transpose, zero_array.
  apply Forall_map, Forall_forall. intros j _.
  apply Forall_map. eapply Forall_impl; [|exact F].
  intros row Fr. apply zero_nth, Fr.
Qed.

Lemma along_rows_zero (f : list Q -> list Q) (m : matrix Q) :
  (forall l, Forall (fun x => x == 0) l -> Forall (fun x => x == 0) (f l)) ->
  zero_array m -> zero_array (along_rows f m).
Proof.
  intros Hf F. unfold along_rows, zero_array. apply Forall_map.
  eapply Forall_impl; [|exact F]. intros row Fr. apply Hf, Fr.
Qed.

Lemma along_cols_zero (f : list Q -> list Q) (m : matrix Q) :
  (forall l, Forall (fun x => x == 0) l -> Forall (fun x => x == 0) (f l)) ->
  zero_array m -> zero_array (along_cols f m).
Proof.
  intros Hf F. unfold along_cols.
  apply transpose_zero, (along_rows_zero f _ Hf), transpose_zero, F.
Qed.

Lemma derivative_of_constant_row (row : list Q) (c : Q) :
  Forall (fun x => x == c) row ->
  Forall (fun x => x == 0) (correlate1d [-1; 0; 1] row).
Proof.
  intro F. apply Forall_nth. intros i d Hi.
  rewrite correlate1d_length in Hi.
  rewrite (nth_indep _ d 0) by (now rewrite correlate1d_length).
  rewrite correlate1d_3_nth by exact Hi.
  assert (P : (0 < length row)%nat) by lia.
  assert (E : forall k, nth (reflect (length row) k) row 0 == c).
  { intro k. rewrite Forall_forall in F. apply F, nth_In, reflect_lt, P. }
  rewrite !E. ring.
Qed.

Lemma sobel_of_constant_rows (m : matrix Q) :
  constant_rows m -> zero_array (sobel m).
Proof.
  intro F. unfold sobel.
  apply along_cols_zero; [intros l; apply correlate1d_zero|].
  unfold along_rows, zero_array. apply Forall_map.
  eapply Forall_impl; [|exact F].
  intros row [c Fc]. eapply derivative_of_constant_row, Fc.
Qed.

Lemma mmap_zero (f : Q -> Q) (m : matrix Q) :
  (forall x, x == 0 -> f x == 0) -> zero_array m -> zero_array (mmap f m).
Proof.
  intros Hf F. unfold mmap, zero_array. apply Forall_map.
  eapply Forall_impl; [|exact F]. intros row Fr. apply Forall_map.
  eapply Forall_impl; [|exact Fr]. intros x X. apply Hf, X.
Qed.

Lemma uniform_filter_zero (m : matrix Q) (width : nat) :
  zero_array m -> zero_array (uniform_filter m width).
Proof.
  intro F. unfold uniform_filter. destruct (width <=? 1)%nat; [exact F|].
  apply along_rows_zero; [intro l; apply uniform_filter1d_zero|].
  apply along_cols_zero; [intro l; apply uniform_filter1d_zero | exact F].
Qed.

Lemma no_positive_in_zero_array (m : matrix Q) :
  zero_array m -> filter (Qltb 0) (flat m) = [].
Proof.
  intro F. unfold flat. induction F as [|row m Fr F IH]; [reflexivity|].
  cbn [concat]. rewrite filter_app, IH, app_nil_r.
  induction Fr as [|x row X Fr IHr]; [reflexivity|].
  cbn [filter]. rewrite IHr.
  replace (Qltb 0 x) with false; [reflexivity|].
  symmetry. apply Qltb_ge. rewrite X. apply Qle_refl.
Qed.

(** X10.  On a mask whose rows are each constant (a uniform mask, or one
    whose cloud boundaries all run along the last axis) the Sobel
    derivative vanishes everywhere, no smoothed value is positive, and
    [_find_edges] raises the [IndexError] of a quantile over an empty
    selection. *)
Theorem find_edges_flat_rows_rejected (base_mask : matrix Q) (width : nat) :
  constant_rows base_mask ->
  _find_edges base_mask width = Raises IndexError.
Proof.
  intro F. unfold _find_edges.
  set (smoothed := mmap _ (uniform_filter _ width)).
  assert (Z : zero_array smoothed).
  { unfold smoothed. apply mmap_zero.
    - intros x X. destruct (Qltb x (1 # 100000)); [reflexivity | exact X].
    - apply uniform_filter_zero, mmap_zero.
      + intros x X. rewrite X. reflexivity.
      + apply sobel_of_constant_rows, F. }
  now rewrite (no_positive_in_zero_array _ Z).
Qed.

Lemma find_edges_flat_rows_rejected_witness :
  _find_edges [[0; 0; 0]; [1; 1; 1]; [1; 1; 1]] 3 = Raises IndexError.
Proof.
  apply (find_edges_flat_rows_rejected [[0; 0; 0]; [1; 1; 1]; [1; 1; 1]] 3).
  repeat constructor; [exists 0 | exists 1 | exists 1]; repeat constructor.
Defined.

Lemma find_edges_inv (base_mask edges : matrix Q) (near : matrix bool)
      (width : nat) :
  _find_edges base_mask width = Ok (edges, near) ->
  let smoothed :=
    mmap (fun x => if Qltb x (1 # 100000) then 0 else x)
         (uniform_filter (mmap Qabs (sobel base_mask)) width) in
  exists baseline,
    quantile (filter (Qltb 0) (flat smoothed)) (1 # 2) = Ok baseline
    /\ edges = mmap Qabs (sobel base_mask)
    /\ near = mmap (Qltb baseline) smoothed.
Proof.
  intro E. cbv zeta. unfold _find_edges in E.
  destruct (quantile _ _) as [baseline|e]; [|discriminate].
  cbn [bind] in E. injection E as <- <-. eauto.
Qed.

Lemma quantile_sorted_above (a : list Q) (q b : Q) :
  a <> [] -> 0 <= q <= 1 ->
  (forall k, (k < length a)%nat -> b < nth k a 0) ->
  b < quantile_sorted a q.
Proof.
  intros N R B.
  assert (P : (0 < length a)%nat) by (destruct a; [congruence | cbn; lia]).
  destruct (quantile_sorted_cases a q R) as [[E _]|(k & g & E & K & G & _)];
    cbn zeta in *; rewrite E.
  - apply B. lia.
  - pose proof (B k ltac:(lia)) as Bk. pose proof (B (S k) K) as Bs.
    unfold lerp. nra.
Qed.

Lemma count_true_map {A : Type} (p : A -> bool) (l : list A) :
  count_true (map p l) = length (filter p l).
Proof.
  unfold count_true. induction l as [|x l IH]; [reflexivity|].
  cbn. destruct (p x); cbn; now rewrite IH.
Qed.

Lemma filter_filter_implied (p q : Q -> bool) (l : list Q) :
  (forall x, p x = true -> q x = true) ->
  filter p (filter q l) = filter p l.
Proof.
  intro H. induction l as [|x l IH]; [reflexivity|]. cbn.
  destruct (q x) eqn:Q; cbn; destruct (p x) eqn:P; rewrite ?IH; auto.
  apply H in P. congruence.
Qed.

Lemma filter_split_length (p : Q -> bool) (l : list Q) :
  (length (filter p l) + length (filter (fun x => negb (p x)) l))%nat
  = length l.
Proof.
  induction l as [|x l IH]; [reflexivity|]. cbn.
  destruct (p x); cbn; lia.
Qed.

Lemma above_median_at_most_half (l : list Q) :
  l <> [] ->
  (2 * length (filter (Qltb (quantile_sorted (sort l) (1 # 2))) l)
   <= length l)%nat.
Proof.
  intro N. set (b := quantile_sorted (sort l) (1 # 2)).
  assert (R : 0 <= 1 # 2 <= 1) by (split; discriminate).
  destruct (quantile_count_floor l (1 # 2) N R) as [Fl _]. fold b in Fl.
  pose proof (filter_split_length (fun x => Qle_bool x b) l) as Sp.
  cbn beta in Sp. change (fun x => negb (Qle_bool x b)) with (Qltb b) in Sp.
  remember (length (filter (fun x => Qle_bool x b) l)) as below eqn:Eb.
  remember (length (filter (Qltb b) l)) as above eqn:Ea.
  assert (Pl : (0 < length l)%nat) by (destruct l; [congruence | cbn; lia]).
  assert (C : of_nat (length l - 1) < of_nat (2 * below)).
  { assert (E : of_nat (2 * below) == 2 * of_nat below).
    { unfold of_nat. rewrite Nat2Z.inj_mul, inject_Z_mult. reflexivity. }
    rewrite E. lra. }
  unfold of_nat in C. rewrite <- Zlt_Qlt in C. lia.
Qed.

(** X11.  The near-boundary mask returned by [_find_edges] marks at most
    half of the pixels: it keeps the pixels whose smoothed edge value lies
    strictly above the median of the positive ones. *)
Theorem find_edges_marks_at_most_half (base_mask edges : matrix Q)
        (near : matrix bool) (width : nat) :
  _find_edges base_mask width = Ok (edges, near) ->
  (2 * count_true (flat near) <= size near)%nat.
Proof.
  intro E. apply find_edges_inv in E. cbn zeta in E.
  destruct E as (baseline & Eq & _ & ->).
  set (smoothed := mmap _ (uniform_filter _ width)) in *.
  apply quantile_inv in Eq. destruct Eq as (N & R & ->).
  set (pos := filter (Qltb 0) (flat smoothed)) in *.
  set (b := quantile_sorted (sort pos) (1 # 2)).
  rewrite size_mmap, flat_mmap, count_true_map.
  assert (B0 : 0 < b).
  { apply quantile_sorted_above; [now apply sort_nonempty | exact R|].
    intros k Hk. rewrite sort_length in Hk.
    pose proof (sort_nth_in pos k Hk) as I. unfold pos in I.
    apply filter_In in I. apply Qltb_lt, I. }
  assert (F : filter (Qltb b) pos = filter (Qltb b) (flat smoothed)).
  { unfold pos. apply filter_filter_implied. intros x X.
    apply Qltb_lt. apply Qltb_lt in X. lra. }
  rewrite <- F.
  pose proof (above_median_at_most_half pos N) as H. fold b in H.
  pose proof (count_le_length (Qltb 0) (flat smoothed)) as L.
  fold pos in L. unfold size. lia.
Qed.

Lemma find_edges_marks_at_most_half_witness :
  exists edges near,
    _find_edges [[0; 0; 0; 0]; [0; 0; 0; 0]; [1; 1; 1; 1]; [1; 1; 1; 0]] 3
    = Ok (edges, near)
    /\ (2 * count_true (flat near) <= size near)%nat.
Proof.
  eexists. eexists. split; [vm_compute; reflexivity|].
  eapply (find_edges_marks_at_most_half
            [[0; 0; 0; 0]; [0; 0; 0; 0]; [1; 1; 1; 1]; [1; 1; 1; 0]] _ _ 3).
  vm_compute. reflexivity.
Defined.

(** ** shift_mean_lave: the target mean is met; fully clear fields *)

Lemma fold_left_Qplus (l : list Q) (a : Q) :
  fold_left Qplus l a == a + Qsum l.
Proof.
  revert a. induction l as [|x l IH]; intro a; cbn.
  - ring.
  - rewrite IH. fold (Qsum l). ring.
Qed.

Lemma xsum_fin (l : list Q) :
  exists t, xsum (map Fin l) = Fin t /\ t == Qsum l.
Proof.
  unfold xsum.
  assert (H : forall a, fold_left xadd (map Fin l) (Fin a)
                        = Fin (fold_left Qplus l a)).
  { induction l as [|x l IH]; intro a; [reflexivity|]. cbn. apply IH. }
  eexists. split; [apply H|]. rewrite fold_left_Qplus. ring.
Qed.

Lemma xmean_fin (l : list Q) :
  l <> [] ->
  exists t, xmean (map Fin l) = Fin t
            /\ t == Qsum l / of_nat (length l).
Proof.
  intro N. unfold xmean. destruct (xsum_fin l) as (t & -> & T).
  rewrite length_map.
  assert (P : 0 < of_nat (length l))
    by (apply of_nat_pos; destruct l; [congruence | cbn; lia]).
  cbn [xdiv].
  destruct (Qeq_bool (of_nat (length l)) 0) eqn:D.
  - apply Qeq_bool_iff in D. lra.
  - eexists. split; [reflexivity|]. now rewrite T.
Qed.









Lemma Qsum_nonneg (l : list Q) : Forall (fun v => 0 <= v) l -> 0 <= Qsum l.
Proof.
  induction 1 as [|v l V F IH]; [discriminate|].
  cbn. fold (Qsum l). lra.
Qed.

Lemma Qsum_positive (l : list Q) (x : Q) :
  Forall (fun v => 0 <= v) l -> In x l -> 0 < x -> 0 < Qsum l.
Proof.
  induction 1 as [|v l V F IH]; intros I P; [destruct I|].
  cbn. fold (Qsum l). pose proof (Qsum_nonneg l F).
  destruct I as [->|I]; [lra|]. specialize (IH I P). lra.
Qed.


Lemma mmap_mmap {A B C : Type} (f : A -> B) (g : B -> C) (m : matrix A) :
  mmap g (mmap f m) = mmap (fun x => g (f x)) m.
Proof.
  unfold mmap. rewrite map_map. apply map_ext. intro r. apply map_map.
Qed.





(** X13.  A field without a pixel below 1 (a fully clear sky) leaves no
    value to take the robust bounds from: [shift_mean_lave] raises
    [IndexError]. *)
Theorem shift_mean_lave_fully_clear_rejected (field : matrix Q)
        (ktmean ktmin min_quant max_quant : Q) :
  (forall x, In x (flat field) -> 1 <= x) -> 0 <= max_quant <= 1 ->
  shift_mean_lave field ktmean ktmin min_quant max_quant = Raises IndexError.
Proof.
  intros H [R0 R1]. unfold shift_mean_lave.
  assert (E : filter (fun x => Qltb x 1) (flat field) = []).
  { induction (flat field) as [|x l IH]; [reflexivity|]. cbn [filter].
    rewrite (proj2 (Qltb_ge x 1)) by (apply H; now left).
    apply IH. intros y I. apply H. now right. }
  rewrite E. unfold quantile.
  rewrite (proj2 (Qle_bool_iff _ _) R0), (proj2 (Qle_bool_iff _ _) R1).
  reflexivity.
Qed.

Lemma shift_mean_lave_fully_clear_rejected_witness :
  shift_mean_lave [[1; 1]; [1; 1]] (9 # 10)
                  default_ktmin default_min_quant default_max_quant
  = Raises IndexError.
Proof.
  apply shift_mean_lave_fully_clear_rejected.
  - intros x I. cbn in I.
    repeat (destruct I as [<-|I]; [discriminate|]). destruct I.
  - split; vm_compute; discriminate.
Defined.

(** ** lave_scaling_exact: composition, fully clear masks *)

Lemma zipw_nth {A B C : Type} (f : A -> B -> C) (l : list A) (l' : list B)
      (k : nat) (da : A) (db : B) (d : C) :
  (k < length l)%nat -> (k < length l')%nat ->
  nth k (zipw f l l') d = f (nth k l da) (nth k l' db)
  /\ (k < length (zipw f l l'))%nat.
Proof.
  revert l' k. induction l as [|a l IH]; intros [|b l'] k L L';
    cbn in L, L'; try lia.
  destruct k as [|k]; cbn; [split; [reflexivity | lia]|].
  destruct (IH l' k ltac:(lia) ltac:(lia)) as [E H]. split; [exact E | lia].
Qed.

Lemma pix_mzip {A B C : Type} (f : A -> B -> C) (a : matrix A) (b : matrix B)
      (i j : nat) (da : A) (db : B) (d : C) :
  inside a i j -> inside b i j ->
  pix d (mzip f a b) i j = f (pix da a i j) (pix db b i j)
  /\ inside (mzip f a b) i j.
Proof.
  intros [Ia Ja] [Ib Jb]. unfold pix, mzip, inside.
  destruct (zipw_nth (zipw f) a b i [] [] [] Ia Ib) as [E L].
  rewrite E.
  destruct (zipw_nth f (nth i a []) (nth i b []) j da db d Ja Jb) as [E' L'].
  auto.
Qed.

Lemma same_len_length {A B : Type} (l : list A) (l' : list B) :
  same_len l l' = true -> length l = length l'.
Proof.
  revert l'. induction l as [|a l IH]; intros [|b l'] E; cbn in *;
    try discriminate; auto.
Qed.

Lemma same_shape_inside {A B : Type} (a : matrix A) (b : matrix B)
      (i j : nat) :
  same_shape a b = true -> inside a i j -> inside b i j.
Proof.
  unfold inside. revert b i.
  induction a as [|r a IH]; intros [|r' b] i S [Hi Hj];
    cbn [same_shape length] in *; try discriminate; try lia.
  apply andb_true_iff in S. destruct S as [Sr Sa].
  destruct i as [|i]; cbn [nth] in *.
  - split; [lia|]. now rewrite <- (same_len_length _ _ Sr).
  - destruct (IH b i Sa) as [Hi' Hj']; [split; [lia | exact Hj]|].
    split; [lia | exact Hj'].
Qed.

Lemma mmap_id {A : Type} (m : matrix A) : mmap (fun v => v) m = m.
Proof.
  unfold mmap. induction m as [|r m IH]; [reflexivity|].
  cbn. now rewrite map_id, IH.
Qed.

Lemma lave_trace_stages (field clear_mask : matrix Q) (edge_mask : matrix bool)
      (ktmean ktmax kt1pct max_quant : Q) (t : lave_stages) :
  lave_trace field clear_mask edge_mask ktmean ktmax kt1pct max_quant = Ok t ->
  same_shape field clear_mask = true /\ same_shape field edge_mask = true
  /\ (exists f3 : Q -> xval, clouds3 t = mmap f3 field)
  /\ (exists fe : xval -> xval, ce t = mmap fe (clouds3 t))
  /\ (exists f4 : xval -> xval, clouds4 t = mmap f4 (clouds3 t))
  /\ clouds5 t
     = assign (mmap (Qltb 0) clear_mask)
              (mmap (fun _ => Fin 1) (assign edge_mask (ce t) (clouds4 t)))
              (assign edge_mask (ce t) (clouds4 t)).
Proof.
  unfold lave_trace. intro E.
  destruct (same_shape field clear_mask); [|discriminate].
  destruct (same_shape field edge_mask); [|discriminate]. cbn [andb negb] in E.
  destruct (quantile _ _) in E; [|discriminate]. cbn [bind] in E.
  destruct (xlist_min _) in E; [|discriminate]. cbn [bind] in E.
  destruct (xlist_max _) in E; [|discriminate]. cbn [bind] in E.
  injection E as <-. cbn [clouds3 ce clouds4 clouds5].
  split; [reflexivity|]. split; [reflexivity|].
  split; [rewrite mmap_mmap; eauto|]. split; [eauto|].
  split; [|reflexivity].
  match goal with |- context [if ?c then _ else _] => destruct c end;
    [eauto|].
  exists (fun v => v). symmetry. apply mmap_id.
Qed.

(** X14.  The composition of the final field has a fixed precedence.  At
    every pixel of a field returned by [lave_scaling_exact]: where the clear
    mask is positive the value is exactly 1, also on an edge pixel;
    elsewhere an edge pixel carries the cloud-enhancement value and any
    other pixel the rescaled cloud value. *)
Theorem lave_composition_precedence (field clear_mask : matrix Q)
        (edge_mask : matrix bool) (ktmean ktmax kt1pct max_quant : Q)
        (t : lave_stages) (i j : nat) :
  lave_trace field clear_mask edge_mask ktmean ktmax kt1pct max_quant = Ok t ->
  inside field i j ->
  lave_scaling_exact field clear_mask edge_mask ktmean ktmax kt1pct max_quant
  = Ok (clouds5 t)
  /\ inside (clouds5 t) i j
  /\ (0 < pix 0 clear_mask i j -> pix NaN (clouds5 t) i j = Fin 1)
  /\ (pix 0 clear_mask i j <= 0 -> pix false edge_mask i j = true ->
      pix NaN (clouds5 t) i j = pix NaN (ce t) i j)
  /\ (pix 0 clear_mask i j <= 0 -> pix false edge_mask i j = false ->
      pix NaN (clouds5 t) i j = pix NaN (clouds4 t) i j).
Proof.
  intros E I.
  split; [unfold lave_scaling_exact; now rewrite E|].
  destruct (lave_trace_stages _ _ _ _ _ _ _ _ E)
    as (S1 & S2 & (f3 & E3) & (fe & Ee) & (f4 & E4) & E5).
  assert (Ic : inside clear_mask i j) by (eapply same_shape_inside; eauto).
  assert (Ie : inside edge_mask i j) by (eapply same_shape_inside; eauto).
  assert (I3 : inside (clouds3 t) i j) by (rewrite E3; now apply inside_mmap).
  assert (Ice : inside (ce t) i j) by (rewrite Ee; now apply inside_mmap).
  assert (I4 : inside (clouds4 t) i j) by (rewrite E4; now apply inside_mmap).
  set (inner := assign edge_mask (ce t) (clouds4 t)) in *.
  destruct (pix_mzip pair (ce t) (clouds4 t) i j NaN NaN (NaN, NaN) Ice I4)
    as [Pp Ip].
  destruct (pix_mzip (fun (k : bool) (p : xval * xval) =>
                        if k then fst p else snd p)
                     edge_mask (mzip pair (ce t) (clouds4 t)) i j
                     false (NaN, NaN) NaN Ie Ip) as [Pin Iin].
  fold (assign edge_mask (ce t) (clouds4 t)) in Pin, Iin. fold inner in Pin, Iin.
  rewrite Pp in Pin. cbn [fst snd] in Pin.
  assert (Io : inside (mmap (fun _ : xval => Fin 1) inner) i j)
    by (now apply inside_mmap).
  destruct (pix_mzip pair (mmap (fun _ : xval => Fin 1) inner) inner i j
                     NaN NaN (NaN, NaN) Io Iin) as [Pq Iq].
  assert (Icl : inside (mmap (Qltb 0) clear_mask) i j)
    by (now apply inside_mmap).
  destruct (pix_mzip (fun (k : bool) (p : xval * xval) =>
                        if k then fst p else snd p)
                     (mmap (Qltb 0) clear_mask)
                     (mzip pair (mmap (fun _ : xval => Fin 1) inner) inner)
                     i j false (NaN, NaN) NaN Icl Iq) as [Pout Iout].
  fold (assign (mmap (Qltb 0) clear_mask)
               (mmap (fun _ : xval => Fin 1) inner) inner) in Pout, Iout.
  rewrite <- E5 in Pout, Iout.
  rewrite Pq in Pout. cbn [fst snd] in Pout.
  rewrite (pix_mmap (Qltb 0) 0 false _ _ _ Ic) in Pout.
  rewrite (pix_mmap (fun _ : xval => Fin 1) NaN NaN _ _ _ Iin) in Pout.
  split; [exact Iout|]. split; [|split].
  - intro C. rewrite Pout, (proj2 (Qltb_lt _ _) C). reflexivity.
  - intros C Ed. rewrite Pout, (proj2 (Qltb_ge _ _) C), Pin, Ed. reflexivity.
  - intros C Ed. rewrite Pout, (proj2 (Qltb_ge _ _) C), Pin, Ed. reflexivity.
Qed.

Lemma lave_composition_precedence_witness :
  exists t,
    lave_trace [[1 # 2; 1; 3 # 4]] [[0; 1; 0]] [[false; true; true]]
               (2 # 10) (14 # 10) (2 # 10) (99 # 100) = Ok t
    /\ lave_scaling_exact [[1 # 2; 1; 3 # 4]] [[0; 1; 0]] [[false; true; true]]
                          (2 # 10) (14 # 10) (2 # 10) (99 # 100)
       = Ok (clouds5 t)
    /\ inside (clouds5 t) 0 1
    /\ (0 < pix 0 [[0; 1; 0]] 0 1 -> pix NaN (clouds5 t) 0 1 = Fin 1)
    /\ (pix 0 [[0; 1; 0]] 0 1 <= 0 ->
        pix false [[false; true; true]] 0 1 = true ->
        pix NaN (clouds5 t) 0 1 = pix NaN (ce t) 0 1)
    /\ (pix 0 [[0; 1; 0]] 0 1 <= 0 ->
        pix false [[false; true; true]] 0 1 = false ->
        pix NaN (clouds5 t) 0 1 = pix NaN (clouds4 t) 0 1).
Proof.
  eexists. split; [vm_compute; reflexivity|].
  apply (lave_composition_precedence
           [[1 # 2; 1; 3 # 4]] [[0; 1; 0]] [[false; true; true]]
           (2 # 10) (14 # 10) (2 # 10) (99 # 100)).
  - vm_compute. reflexivity.
  - split; cbn; lia.
Defined.

(** ** lave_scaling_exact: when it returns, and the mean it produces *)

Lemma same_shape_flat_length {A B : Type} (a : matrix A) (b : matrix B) :
  same_shape a b = true -> length (flat a) = length (flat b).
Proof.
  unfold flat. revert b.
  induction a as [|r a IH]; intros [|r' b] S; cbn [same_shape] in S;
    try discriminate; [reflexivity|].
  apply andb_true_iff in S. destruct S as [Sr Sa].
  cbn [concat]. rewrite !length_app, (same_len_length _ _ Sr), (IH b Sa).
  reflexivity.
Qed.

Lemma filter_combine_nonempty {A : Type} (l : list bool) (l' : list A) :
  length l = length l' ->
  (filter fst (combine l l') <> [] <-> In true l).
Proof.
  revert l'. induction l as [|k l IH]; intros [|a l'] E; cbn in E;
    try discriminate.
  - cbn. split; [congruence | tauto].
  - injection E as E. cbn [combine filter fst In].
    destruct k.
    + split; [auto | discriminate].
    + rewrite (IH l' E). split; [auto | intros [D|I]; [discriminate | exact I]].
Qed.

Lemma select_nonempty_iff {A : Type} (mask : matrix bool) (a : matrix A) :
  same_shape mask a = true ->
  (select mask a <> [] <-> In true (flat mask)).
Proof.
  intro S. unfold select.
  rewrite <- (filter_combine_nonempty (flat mask) (flat a)
                (same_shape_flat_length _ _ S)).
  split; intros N Z; apply N.
  - now rewrite Z.
  - now apply map_eq_nil in Z.
Qed.

Lemma same_len_sym {A B : Type} (l : list A) (l' : list B) :
  same_len l l' = same_len l' l.
Proof.
  revert l'. induction l as [|a l IH]; intros [|b l']; cbn; auto.
Qed.

Lemma same_len_trans {A B C : Type} (l : list A) (l' : list B) (l'' : list C) :
  same_len l l' = true -> same_len l' l'' = true -> same_len l l'' = true.
Proof.
  revert l' l''.
  induction l as [|a l IH]; intros [|b l'] [|c l'']; cbn; try discriminate;
    auto.
  apply IH.
Qed.

Lemma same_shape_sym {A B : Type} (m : matrix A) (m' : matrix B) :
  same_shape m m' = same_shape m' m.
Proof.
  revert m'. induction m as [|r m IH]; intros [|r' m']; cbn; auto.
  now rewrite same_len_sym, IH.
Qed.

Lemma same_shape_trans {A B C : Type} (m : matrix A) (m' : matrix B)
      (m'' : matrix C) :
  same_shape m m' = true -> same_shape m' m'' = true ->
  same_shape m m'' = true.
Proof.
  revert m' m''.
  induction m as [|r m IH]; intros [|r' m'] [|r'' m'']; cbn; try discriminate;
    auto.
  intros S S'. apply andb_true_iff in S, S'.
  destruct S as [Sr Sm], S' as [Sr' Sm'].
  now rewrite (same_len_trans _ _ _ Sr Sr'), (IH _ _ Sm Sm').
Qed.

(** X15.  With masks of the field's shape and a level within [0,1],
    [lave_scaling_exact] returns as soon as one pixel of the clear mask is
    0; when no pixel is 0 (a fully clear sky) the quantile has nothing to
    work on and the call raises [IndexError]. *)
Theorem lave_returns_iff_some_cloud (field clear_mask : matrix Q)
        (edge_mask : matrix bool) (ktmean ktmax kt1pct max_quant : Q) :
  same_shape field clear_mask = true ->
  same_shape field edge_mask = true ->
  0 <= max_quant <= 1 ->
  ((exists c, In c (flat clear_mask) /\ c == 0) ->
   exists out,
     lave_scaling_exact field clear_mask edge_mask ktmean ktmax kt1pct
                        max_quant = Ok out)
  /\ ((forall c, In c (flat clear_mask) -> ~ c == 0) ->
      lave_scaling_exact field clear_mask edge_mask ktmean ktmax kt1pct
                         max_quant = Raises IndexError).
Proof.
  intros S1 S2 R.
  set (not_clear := mmap (fun c => Qeq_bool c 0) clear_mask).
  assert (S : same_shape not_clear field = true).
  { rewrite same_shape_sym. eapply same_shape_trans; [exact S1|].
    apply same_shape_mmap. }
  pose proof (select_nonempty_iff not_clear field S) as N.
  unfold not_clear in N at 2. rewrite flat_mmap in N.
  split.
  - intros (c & I & Z).
    assert (Ne : select not_clear field <> []).
    { apply N. apply in_map_iff. exists c. split; [|exact I].
      now apply Qeq_bool_iff. }
    destruct (lave_trace_ok field clear_mask edge_mask ktmean ktmax kt1pct
                max_quant S1 S2 Ne R) as (t & E).
    exists (clouds5 t). unfold lave_scaling_exact. now rewrite E.
  - intro H.
    assert (Em : select not_clear field = []).
    { destruct (select not_clear field) eqn:Sel; [reflexivity|].
      exfalso.
      assert (I : In true (map (fun c => Qeq_bool c 0) (flat clear_mask)))
        by (apply N; discriminate).
      apply in_map_iff in I. destruct I as (c & Z & I).
      apply (H c I). now apply Qeq_bool_iff. }
    unfold lave_scaling_exact, lave_trace. rewrite S1, S2. cbn [andb negb].
    fold not_clear. rewrite Em. unfold quantile.
    destruct R as [R0 R1].
    rewrite (proj2 (Qle_bool_iff _ _) R0), (proj2 (Qle_bool_iff _ _) R1).
    reflexivity.
Qed.

Lemma lave_returns_iff_some_cloud_witness :
  ((exists c, In c (flat [[0; 1]]) /\ c == 0) ->
   exists out,
     lave_scaling_exact [[1 # 2; 1]] [[0; 1]] [[false; false]]
                        (1 # 2) (14 # 10) (2 # 10) (99 # 100) = Ok out)
  /\ ((forall c, In c (flat [[0; 1]]) -> ~ c == 0) ->
      lave_scaling_exact [[1 # 2; 1]] [[0; 1]] [[false; false]]
                         (1 # 2) (14 # 10) (2 # 10) (99 # 100)
      = Raises IndexError).
Proof.
  apply (lave_returns_iff_some_cloud
           [[1 # 2; 1]] [[0; 1]] [[false; false]] (1 # 2) (14 # 10) (2 # 10)
           (99 # 100)).
  - reflexivity.
  - reflexivity.
  - split; vm_compute; discriminate.
Defined.

(** ** lave_scaling_exact: the mean of the returned field *)









Lemma combine_fst {A B : Type} (l : list A) (l' : list B) :
  length l = length l' -> map fst (combine l l') = l.
Proof.
  revert l'. induction l as [|a l IH]; intros [|b l'] E; cbn in E;
    try discriminate; [reflexivity|].
  cbn. f_equal. apply IH. now injection E.
Qed.








Lemma same_shape_flip {A B : Type} (m : matrix A) (m' : matrix B) :
  same_shape m m' = true -> same_shape m' m = true.
Proof. intro S. now rewrite same_shape_sym. Qed.


Lemma same_shape_mmap_l {A B C : Type} (f : A -> C) (a : matrix A)
      (b : matrix B) :
  same_shape a b = true -> same_shape (mmap f a) b = true.
Proof.
  intro S. eapply same_shape_trans; [|exact S].
  apply same_shape_flip, same_shape_mmap.
Qed.






(** ** _find_edges: shapes, and the masks handed to lave_scaling_exact *)

Lemma uniform_filter1d_length (width : nat) (line : list Q) :
  length (uniform_filter1d width line) = length line.
Proof. unfold uniform_filter1d. now rewrite length_map, length_seq. Qed.

Lemma uniform_filter_rect (rows cols width : nat) (m : matrix Q) :
  (0 < rows)%nat -> (0 < cols)%nat ->
  rect rows cols m -> rect rows cols (uniform_filter m width).
Proof.
  intros P Pc R. unfold uniform_filter.
  destruct (width <=? 1)%nat; [exact R|].
  unfold along_rows, along_cols.
  apply rect_map; [apply uniform_filter1d_length|].
  apply transpose_rect; [exact Pc|].
  apply rect_map; [apply uniform_filter1d_length|].
  apply transpose_rect; [exact P | exact R].
Qed.

Lemma rect_same_shape {A B : Type} (rows cols : nat) (a : matrix A)
      (b : matrix B) :
  rect rows cols a -> rect rows cols b -> same_shape a b = true.
Proof.
  intros [La Fa] [Lb Fb]. subst rows. revert b Lb Fb.
  induction Fa as [|r a Hr Fa IH]; intros [|r' b] Lb Fb; cbn in Lb;
    try discriminate; [reflexivity|].
  inversion Fb as [|? ? Hr' Fb']; subst. cbn [same_shape].
  rewrite (IH b) by (auto; now injection Lb). rewrite andb_true_r.
  clear - Hr'. revert r' Hr'.
  induction r as [|x r IHr]; intros [|y r'] E; cbn in E; try discriminate;
    [reflexivity|].
  cbn. apply IHr. now injection E.
Qed.

Lemma same_shape_rect {A B : Type} (rows cols : nat) (a : matrix A)
      (b : matrix B) :
  same_shape a b = true -> rect rows cols a -> rect rows cols b.
Proof.
  intros S [La Fa]. subst rows. revert b S.
  induction Fa as [|r a Hr Fa IH]; intros [|r' b] S; cbn [same_shape] in S;
    try discriminate; [split; [reflexivity | constructor]|].
  apply andb_true_iff in S. destruct S as [Sr Sa].
  destruct (IH b Sa) as [Lb Fb]. split; [cbn; now rewrite Lb|].
  constructor; [|exact Fb]. now rewrite <- (same_len_length _ _ Sr).
Qed.

Lemma rect_nonempty {A : Type} (rows cols : nat) (m : matrix A) :
  rect rows cols m -> flat m <> [] -> (0 < rows)%nat /\ (0 < cols)%nat.
Proof.
  intros [L F] N. subst rows. unfold flat in N.
  induction F as [|r m Hr F IH]; [now contradiction N|].
  cbn [concat] in N. cbn [length]. split; [lia|].
  destruct r as [|x r]; [|cbn in Hr; lia].
  apply IH. exact N.
Qed.

Lemma find_edges_rect (rows cols width : nat) (base_mask edges : matrix Q)
      (near : matrix bool) :
  (0 < rows)%nat -> (0 < cols)%nat -> rect rows cols base_mask ->
  _find_edges base_mask width = Ok (edges, near) ->
  rect rows cols edges /\ rect rows cols near.
Proof.
  intros P Pc R E. apply find_edges_inv in E. cbv zeta in E.
  destruct E as (baseline & _ & -> & ->).
  assert (Re : rect rows cols (mmap Qabs (sobel base_mask)))
    by (now apply mmap_rect, sobel_rect).
  split; [exact Re|].
  now apply mmap_rect, mmap_rect, uniform_filter_rect.
Qed.

(** X17.  On a non-empty [rows] x [cols] mask, both arrays returned by
    [_find_edges] have the shape of the mask, and the edge map has no
    negative entry. *)
Theorem find_edges_shapes (rows cols width : nat)
        (base_mask edges : matrix Q) (near : matrix bool) :
  (0 < rows)%nat -> (0 < cols)%nat -> rect rows cols base_mask ->
  _find_edges base_mask width = Ok (edges, near) ->
  rect rows cols edges /\ rect rows cols near
  /\ (forall x, In x (flat edges) -> 0 <= x).
Proof.
  intros P Pc R E.
  destruct (find_edges_rect rows cols width _ _ _ P Pc R E) as [Re Rn].
  split; [exact Re|]. split; [exact Rn|].
  apply find_edges_inv in E. cbv zeta in E.
  destruct E as (baseline & _ & -> & _).
  intros x I. rewrite flat_mmap in I. apply in_map_iff in I.
  destruct I as (y & <- & _). apply Qabs_nonneg.
Qed.

Lemma find_edges_shapes_witness :
  exists edges near,
    _find_edges [[0; 0; 0; 0]; [0; 0; 0; 0]; [1; 1; 1; 1]; [1; 1; 1; 0]] 3
    = Ok (edges, near)
    /\ rect 4 4 edges /\ rect 4 4 near
    /\ (forall x, In x (flat edges) -> 0 <= x).
Proof.
  eexists. eexists. split; [vm_compute; reflexivity|].
  apply (find_edges_shapes
           4 4 3 [[0; 0; 0; 0]; [0; 0; 0; 0]; [1; 1; 1; 1]; [1; 1; 1; 0]]).
  - lia.
  - lia.
  - split; [reflexivity | repeat constructor].
  - vm_compute. reflexivity.
Defined.

Lemma constant_rows_no_edge (m : matrix Q) (width : nat) :
  constant_rows m ->
  filter (Qltb 0)
         (flat (mmap (fun x => if Qltb x (1 # 100000) then 0 else x)
                     (uniform_filter (mmap Qabs (sobel m)) width)))
  = [].
Proof.
  intro F. apply no_positive_in_zero_array, mmap_zero.
  - intros x X. destruct (Qltb x (1 # 100000)); [reflexivity | exact X].
  - apply uniform_filter_zero, mmap_zero.
    + intros x X. rewrite X. reflexivity.
    + now apply sobel_of_constant_rows.
Qed.

Lemma all_ones_constant_rows (m : matrix Q) :
  (forall x, In x (flat m) -> x = 1) -> constant_rows m.
Proof.
  intro H. unfold constant_rows. apply Forall_forall. intros r Ir.
  exists 1. apply Forall_forall. intros x Ix.
  rewrite (H x); [reflexivity|]. unfold flat. apply in_concat. eauto.
Qed.

(** X18.  The masks of the demo pipeline are always accepted.  When
    [_clip_field] has produced the clear mask and [_find_edges] has
    accepted it, [lave_scaling_exact] returns on any cloud field of the
    same shape, with a result of that shape: an accepted mask has an edge,
    hence a cloudy pixel for the quantile, and all shapes agree. *)
Theorem pipeline_masks_accepted (rows cols width : nat)
        (mask_field cfield clear_mask edges : matrix Q) (near : matrix bool)
        (clear_frac ktmean ktmax kt1pct max_quant : Q) :
  rect rows cols mask_field -> rect rows cols cfield ->
  _clip_field mask_field clear_frac = Ok clear_mask ->
  _find_edges clear_mask width = Ok (edges, near) ->
  0 <= max_quant <= 1 ->
  exists out,
    lave_scaling_exact cfield clear_mask near ktmean ktmax kt1pct max_quant
    = Ok out
    /\ rect rows cols out.
Proof.
  intros Rm Rc Ec Ef Rq.
  destruct (clip_field_inv _ _ _ Ec) as (Nf & _ & Em).
  destruct (rect_nonempty _ _ _ Rm Nf) as [P Pc].
  assert (Rk : rect rows cols clear_mask) by (rewrite Em; now apply mmap_rect).
  destruct (find_edges_rect rows cols width _ _ _ P Pc Rk Ef) as [_ Rn].
  pose proof (rect_same_shape _ _ _ _ Rc Rk) as S1.
  pose proof (rect_same_shape _ _ _ _ Rc Rn) as S2.
  set (not_clear := mmap (fun c => Qeq_bool c 0) clear_mask).
  assert (Ne : select not_clear cfield <> []).
  { intro Z.
    assert (S : same_shape not_clear cfield = true).
    { apply same_shape_mmap_l, same_shape_flip, S1. }
    pose proof (select_nonempty_iff not_clear cfield S) as N.
    unfold not_clear in N at 2. rewrite flat_mmap in N.
    assert (A : forall x, In x (flat clear_mask) -> x = 1).
    { intros x I.
      assert (B : x = 0 \/ x = 1).
      { rewrite Em, flat_mmap in I. apply in_map_iff in I.
        destruct I as (y & <- & _). unfold clip_pixel.
        destruct (Qltb _ y); auto. }
      destruct B as [-> | B]; [|exact B].
      exfalso. apply (proj2 N); [|exact Z].
      apply in_map_iff. exists 0. split; [reflexivity | exact I]. }
    apply find_edges_inv in Ef. cbv zeta in Ef.
    destruct Ef as (baseline & Eq & _).
    apply quantile_inv in Eq. destruct Eq as (Nq & _).
    apply Nq, constant_rows_no_edge, all_ones_constant_rows, A. }
  destruct (lave_trace_ok cfield clear_mask near ktmean ktmax kt1pct
              max_quant S1 S2 Ne Rq) as (t & E).
  exists (clouds5 t). split; [unfold lave_scaling_exact; now rewrite E|].
  destruct (lave_trace_stages _ _ _ _ _ _ _ _ E)
    as (_ & _ & (f3 & E3) & (fe & Ee) & (f4 & E4) & E5).
  assert (R3 : rect rows cols (clouds3 t)) by (rewrite E3; now apply mmap_rect).
  assert (Re : rect rows cols (ce t)) by (rewrite Ee; now apply mmap_rect).
  assert (R4 : rect rows cols (clouds4 t)) by (rewrite E4; now apply mmap_rect).
  rewrite E5. unfold assign.
  repeat (apply mzip_rect || apply mmap_rect); assumption.
Qed.

Lemma pipeline_masks_accepted_witness :
  exists out,
    lave_scaling_exact [[5 # 10; 6 # 10; 3 # 10; 4 # 10];
                        [7 # 10; 2 # 10; 5 # 10; 1 # 10]]
                       [[1; 1; 0; 0]; [1; 1; 0; 0]]
                       [[false; true; true; false]; [false; true; true; false]]
                       (1 # 2) (14 # 10) (2 # 10) (99 # 100)
    = Ok out
    /\ rect 2 4 out.
Proof.
  eapply (pipeline_masks_accepted
            2 4 3
            [[1 # 10; 2 # 10; 9 # 10; 8 # 10];
             [2 # 10; 1 # 10; 7 # 10; 9 # 10]]
            [[5 # 10; 6 # 10; 3 # 10; 4 # 10];
             [7 # 10; 2 # 10; 5 # 10; 1 # 10]]
            _ _ _ (1 # 2)).
  - split; [reflexivity | repeat constructor].
  - split; [reflexivity | repeat constructor].
  - vm_compute. reflexivity.
  - vm_compute. reflexivity.
  - split; vm_compute; discriminate.
Defined.

(** ** lave_scaling_exact: the cloud-enhancement values *)

Lemma xmin2_fin (a b : Q) : xmin2 (Fin a) (Fin b) = Fin (Qmin a b).
Proof.
  cbn [xmin2 xltb]. unfold Qmin, GenericMinMax.gmin.
  destruct (a ?= b) eqn:C.
  - apply Qeq_alt in C.
    replace (Qltb b a) with false; [reflexivity|].
    symmetry. apply Qltb_ge. lra.
  - apply Qlt_alt in C.
    replace (Qltb b a) with false; [reflexivity|].
    symmetry. apply Qltb_ge. lra.
  - apply Qgt_alt in C.
    replace (Qltb b a) with true; [reflexivity|].
    symmetry. apply Qltb_lt. lra.
Qed.

Lemma xmax2_fin (a b : Q) : xmax2 (Fin a) (Fin b) = Fin (Qmax a b).
Proof.
  cbn [xmax2 xltb]. unfold Qmax, GenericMinMax.gmax.
  destruct (a ?= b) eqn:C.
  - apply Qeq_alt in C.
    replace (Qltb a b) with false; [reflexivity|].
    symmetry. apply Qltb_ge. lra.
  - apply Qlt_alt in C.
    replace (Qltb a b) with true; [reflexivity|].
    symmetry. apply Qltb_lt. lra.
  - apply Qgt_alt in C.
    replace (Qltb a b) with false; [reflexivity|].
    symmetry. apply Qltb_ge. lra.
Qed.

Lemma xlist_min_fin (l : list Q) (mn : xval) :
  xlist_min (map Fin l) = Ok mn ->
  exists lo, mn = Fin lo /\ In lo l /\ forall y, In y l -> lo <= y.
Proof.
  destruct l as [|x t]; [discriminate|]. cbn [map xlist_min]. intro E.
  injection E as <-.
  assert (F : forall a, fold_left xmin2 (map Fin t) (Fin a)
                        = Fin (fold_left Qmin t a)).
  { induction t as [|y t IH]; intro a; [reflexivity|].
    cbn [map fold_left]. rewrite xmin2_fin. apply IH. }
  rewrite F.
  destruct (list_min_spec (x :: t)) as (m & Em & Im & Lm); [discriminate|].
  cbn [list_min] in Em. injection Em as <-. eauto.
Qed.

Lemma xlist_max_fin (l : list Q) (mx : xval) :
  xlist_max (map Fin l) = Ok mx ->
  exists hi, mx = Fin hi /\ In hi l /\ forall y, In y l -> y <= hi.
Proof.
  destruct l as [|x t]; [discriminate|]. cbn [map xlist_max]. intro E.
  injection E as <-.
  assert (F : forall a, fold_left xmax2 (map Fin t) (Fin a)
                        = Fin (fold_left Qmax t a)).
  { induction t as [|y t IH]; intro a; [reflexivity|].
    cbn [map fold_left]. rewrite xmax2_fin. apply IH. }
  rewrite F.
  destruct (list_max_spec (x :: t)) as (m & Em & Im & Lm); [discriminate|].
  cbn [list_max] in Em. injection Em as <-. eauto.
Qed.

Lemma lave_trace_enhancement (field clear_mask : matrix Q)
      (edge_mask : matrix bool) (ktmean ktmax kt1pct max_quant : Q)
      (t : lave_stages) :
  lave_trace field clear_mask edge_mask ktmean ktmax kt1pct max_quant = Ok t ->
  exists mn mx,
    xlist_min (flat (clouds3 t)) = Ok mn
    /\ xlist_max (flat (clouds3 t)) = Ok mx
    /\ ce t
       = mmap (fun c =>
                 xadd (Fin 1)
                      (xmul (xdiv (xsub (xdiv c (xmean (flat (clouds3 t))))
                                        (xdiv mn (xmean (flat (clouds3 t)))))
                                  (xsub (xdiv mx (xmean (flat (clouds3 t))))
                                        (xdiv mn (xmean (flat (clouds3 t))))))
                            (Fin (ktmax - 1))))
              (clouds3 t).
Proof.
  unfold lave_trace. intro E.
  destruct (negb _) in E; [discriminate|].
  destruct (quantile _ _) in E; [|discriminate]. cbn [bind] in E.
  destruct (xlist_min _) as [mn|] eqn:Emn in E; [|discriminate].
  cbn [bind] in E.
  destruct (xlist_max _) as [mx|] eqn:Emx in E; [|discriminate].
  cbn [bind] in E.
  injection E as <-. cbn [clouds3 ce]. exists mn, mx. auto.
Qed.

(** X19.  The cloud-enhancement map stays between 1 and [ktmax].  When the
    flipped field [clouds3] holds only numbers, two of them differ and
    [ktmax >= 1], every entry of [ce] is a number of [[1, ktmax]]. *)
Theorem lave_enhancement_range (field clear_mask : matrix Q)
        (edge_mask : matrix bool) (ktmean ktmax kt1pct max_quant : Q)
        (t : lave_stages) :
  lave_trace field clear_mask edge_mask ktmean ktmax kt1pct max_quant = Ok t ->
  (forall v, In v (flat (clouds3 t)) -> exists q, v = Fin q) ->
  (exists a b, In (Fin a) (flat (clouds3 t))
               /\ In (Fin b) (flat (clouds3 t)) /\ a < b) ->
  1 <= ktmax ->
  forall v, In v (flat (ce t)) -> exists e, v = Fin e /\ 1 <= e <= ktmax.
Proof.
  intros E Hf (a & b & Ia & Ib & Lab) K v Iv.
  destruct (lave_trace_enhancement _ _ _ _ _ _ _ _ E)
    as (mn & mx & Emn & Emx & Ece).
  destruct (lave_trace_inv _ _ _ _ _ _ _ _ E) as (_ & _ & _ & pre & E3).
  set (l := map fin_part (flat (clouds3 t))).
  assert (El : flat (clouds3 t) = map Fin l).
  { unfold l. rewrite map_map. rewrite <- (map_id (flat (clouds3 t))) at 1.
    apply map_ext_in. intros w I. destruct (Hf w I) as (q & ->).
    reflexivity. }
  assert (U : forall y, In y l -> 0 <= y <= 1).
  { intros y I.
    assert (I' : In (Fin y) (flat (clouds3 t)))
      by (rewrite El; now apply in_map).
    rewrite E3, flat_mmap in I'. apply in_map_iff in I'.
    destruct I' as (w & Ew & _).
    pose proof (clip01_unit_or_nan w) as C. rewrite Ew in C. exact C. }
  rewrite El in Emn, Emx, Ia, Ib.
  destruct (xlist_min_fin l mn Emn) as (lo & -> & Ilo & Llo).
  destruct (xlist_max_fin l mx Emx) as (hi & -> & Ihi & Lhi).
  apply in_map_iff in Ia, Ib.
  destruct Ia as (a' & Ea & Ia), Ib as (b' & Eb & Ib).
  injection Ea as ->. injection Eb as ->.
  assert (Llh : lo < hi).
  { pose proof (Llo a Ia). pose proof (Lhi b Ib). lra. }
  assert (N : l <> []) by (intro Z; rewrite Z in Ia; destruct Ia).
  rewrite Ece, flat_mmap, El in Iv. rewrite map_map in Iv.
  destruct (xmean_fin l N) as (m & Em & Eqm). rewrite Em in Iv.
  assert (Pm : 0 < m).
  { rewrite Eqm.
    assert (Pn : 0 < of_nat (length l))
      by (apply of_nat_pos; destruct l; [congruence | cbn; lia]).
    apply Qlt_shift_div_l; [exact Pn|].
    assert (S : 0 < Qsum l).
    { apply (Qsum_positive l hi); [|exact Ihi|].
      - apply Forall_forall. intros y I. apply U, I.
      - pose proof (U lo Ilo). lra. }
    lra. }
  assert (Dm : Qeq_bool m 0 = false).
  { destruct (Qeq_bool m 0) eqn:D; [|reflexivity].
    apply Qeq_bool_iff in D. lra. }
  apply in_map_iff in Iv. destruct Iv as (c & <- & Ic).
  cbn [xdiv]. rewrite Dm. cbn [xsub xopp xadd xdiv].
  assert (Pr : 0 < hi / m + - (lo / m)).
  { assert (X : hi / m + - (lo / m) == (hi - lo) / m) by (field; lra).
    rewrite X. apply Qlt_shift_div_l; lra. }
  destruct (Qeq_bool (hi / m + - (lo / m)) 0) eqn:Dr.
  { apply Qeq_bool_iff in Dr. lra. }
  cbn [xmul xadd]. eexists. split; [reflexivity|].
  pose proof (Llo c Ic) as Lc. pose proof (Lhi c Ic) as Hc.
  set (g := (c / m + - (lo / m)) / (hi / m + - (lo / m))).
  assert (Eg : g == (c - lo) / (hi - lo)) by (unfold g; field; lra).
  assert (G0 : 0 <= g).
  { rewrite Eg. apply Qle_shift_div_l; lra. }
  assert (G1 : g <= 1).
  { rewrite Eg. apply Qle_shift_div_r; lra. }
  split; nra.
Qed.

Lemma lave_enhancement_range_witness :
  exists t,
    lave_trace [[1 # 2; 1; 3 # 4]] [[0; 1; 0]] [[false; true; true]]
               (9 # 10) (14 # 10) (2 # 10) (99 # 100) = Ok t
    /\ forall v, In v (flat (ce t)) ->
                 exists e, v = Fin e /\ 1 <= e <= 14 # 10.
Proof.
  eexists. split; [vm_compute; reflexivity|].
  eapply (lave_enhancement_range
            [[1 # 2; 1; 3 # 4]] [[0; 1; 0]] [[false; true; true]]
            (9 # 10) (14 # 10) (2 # 10) (99 # 100)).
  - vm_compute. reflexivity.
  - intros v I. vm_compute in I.
    repeat (destruct I as [<-|I]; [eexists; reflexivity|]). destruct I.
  - eexists. eexists. split; [|split].
    + vm_compute. right. left. reflexivity.
    + vm_compute. left. reflexivity.
    + vm_compute. reflexivity.
  - vm_compute. discriminate.
Defined.

(** ** _calc_wavelet_weights *)







Lemma fold_xadd_nan (l : list xval) : fold_left xadd l NaN = NaN.
Proof. induction l as [|v l IH]; [reflexivity|]. cbn. exact IH. Qed.

Lemma xsum_with_nan (l : list xval) (acc : xval) :
  In NaN l -> fold_left xadd l acc = NaN.
Proof.
  revert acc. induction l as [|v l IH]; intros acc I; [destruct I|].
  cbn. destruct I as [->|I]; [|now apply IH].
  replace (xadd acc NaN) with NaN by (destruct acc; reflexivity).
  apply fold_xadd_nan.
Qed.

Lemma fold_xadd_zero (l : list xval) (a : Q) :
  Forall (fun v => exists q, v = Fin q /\ q == 0) l -> a == 0 ->
  exists z, fold_left xadd l (Fin a) = Fin z /\ z == 0.
Proof.
  intro F. revert a. induction F as [|v l (q & -> & Zq) F IH]; intros a Za.
  - exists a. auto.
  - cbn. apply IH. rewrite Za, Zq. reflexivity.
Qed.

Lemma zero_numerator (z : Q) : z == 0 -> Z.sgn (Qnum z) = 0%Z.
Proof. unfold Qeq. cbn. intro E. lia. Qed.

Lemma nanmean_without_number (row : list xval) :
  (forall v, In v row -> v = NaN) ->
  nanmean (map (fun v => xmul v v) row) = NaN.
Proof.
  intro H. unfold nanmean.
  destruct (fold_xadd_zero
              (map (fun v => if is_nan v then Fin 0 else v)
                   (map (fun v => xmul v v) row)) 0) as (z & Ez & Zz).
  { apply Forall_map, Forall_map, Forall_forall. intros v I.
    rewrite (H v I). exists 0. split; reflexivity. }
  { reflexivity. }
  unfold xsum. rewrite Ez.
  assert (E : filter (fun v => negb (is_nan v))
                     (map (fun v => xmul v v) row) = []).
  { clear Ez. induction row as [|v row IH]; [reflexivity|].
    cbn. rewrite (H v) by now left. cbn. apply IH.
    intros w I. apply H. now right. }
  rewrite E. cbn. rewrite zero_numerator by exact Zz. reflexivity.
Qed.

(** X21.  A mode without a single number (a row of [NaN] only) spoils
    every weight: its mean is [NaN], so is the sum of the means, and each
    weight is a quotient by [NaN]. *)
Theorem wavelet_weights_mode_without_number (waves : matrix xval) :
  (exists row, In row waves /\ forall v, In v row -> v = NaN) ->
  forall w, In w (_calc_wavelet_weights waves) -> w = NaN.
Proof.
  intros (row & Ir & Hr) w Iw. unfold _calc_wavelet_weights in Iw.
  set (scales := map _ waves) in Iw.
  assert (T : xsum scales = NaN).
  { apply xsum_with_nan. unfold scales. apply in_map_iff.
    exists row. split; [now apply nanmean_without_number | exact Ir]. }
  rewrite T in Iw. apply in_map_iff in Iw. destruct Iw as (s & <- & _).
  destruct s; reflexivity.
Qed.

Lemma wavelet_weights_mode_without_number_witness :
  Forall (fun w => w = NaN)
         (_calc_wavelet_weights [[Fin 1; Fin 2]; [NaN; NaN]]).
Proof.
  apply Forall_forall.
  apply (wavelet_weights_mode_without_number [[Fin 1; Fin 2]; [NaN; NaN]]).
  exists [NaN; NaN]. split; [cbn; auto|].
  intros v I. cbn in I. destruct I as [<-|[<-|[]]]; reflexivity.
Defined.

Lemma zero_or_nan_add (a b : xval) :
  zero_or_nan a -> zero_or_nan b -> zero_or_nan (xadd a b).
Proof.
  destruct a, b; cbn; try contradiction; auto. intros A B. rewrite A, B.
  reflexivity.
Qed.

Lemma zero_or_nan_sum (l : list xval) (acc : xval) :
  Forall zero_or_nan l -> zero_or_nan acc ->
  zero_or_nan (fold_left xadd l acc).
Proof.
  intro F. revert acc. induction F as [|v l V F IH]; intros acc A; [exact A|].
  cbn. apply IH. now apply zero_or_nan_add.
Qed.

Lemma zero_or_nan_div (a : xval) (n : Q) :
  zero_or_nan a -> zero_or_nan (xdiv a (Fin n)).
Proof.
  destruct a as [z| | |]; cbn; try contradiction; auto. intro Zz.
  destruct (Qeq_bool n 0).
  - rewrite zero_numerator by exact Zz. exact I.
  - cbn. rewrite Zz. unfold Qdiv. ring.
Qed.

Lemma zero_or_nan_quotient (a b : xval) :
  zero_or_nan a -> zero_or_nan b -> xdiv a b = NaN.
Proof.
  destruct a as [z| | |], b as [t| | |]; cbn; try contradiction; auto.
  intros Zz Zt. rewrite (proj2 (Qeq_bool_iff t 0) Zt).
  now rewrite zero_numerator.
Qed.

Lemma nanmean_zero_or_nan (row : list xval) :
  Forall zero_or_nan row ->
  zero_or_nan (nanmean (map (fun v => xmul v v) row)).
Proof.
  intro F. unfold nanmean. apply zero_or_nan_div.
  unfold xsum. apply zero_or_nan_sum; [|reflexivity].
  apply Forall_map, Forall_map. eapply Forall_impl; [|exact F].
  intros v V. destruct v as [q| | |]; cbn in *; try contradiction.
  - rewrite V. reflexivity.
  - reflexivity.
Qed.

(** X22.  A signal without variation has no weights.  When every
    coefficient is zero or [NaN], each mode mean is zero or [NaN], so is
    their sum, and every weight is the quotient [0/0]: [NaN]. *)
Theorem wavelet_weights_of_flat_signal (waves : matrix xval) :
  Forall (Forall zero_or_nan) waves ->
  forall w, In w (_calc_wavelet_weights waves) -> w = NaN.
Proof.
  intros F w Iw. unfold _calc_wavelet_weights in Iw.
  set (scales := map _ waves) in Iw.
  assert (Fs : Forall zero_or_nan scales).
  { unfold scales. apply Forall_map. eapply Forall_impl; [|exact F].
    intros row Fr. now apply nanmean_zero_or_nan. }
  assert (T : zero_or_nan (xsum scales))
    by (unfold xsum; apply zero_or_nan_sum; [exact Fs | reflexivity]).
  apply in_map_iff in Iw. destruct Iw as (s & <- & Is).
  apply zero_or_nan_quotient; [|exact T].
  rewrite Forall_forall in Fs. now apply Fs.
Qed.

Lemma wavelet_weights_of_flat_signal_witness :
  Forall (fun w => w = NaN)
         (_calc_wavelet_weights [[Fin 0; Fin 0]; [Fin 0; NaN]]).
Proof.
  apply Forall_forall.
  apply (wavelet_weights_of_flat_signal [[Fin 0; Fin 0]; [Fin 0; NaN]]).
  repeat constructor; reflexivity.
Defined.

(** ** get_settings_from_timeseries *)






(** ** stacked_field: the generator; _clip_field: monotonicity *)

Section LayerDraws.
Context {G : Type} {RS : RandomState G} {VW : VsWeights}.

Lemma stack_layers_draws (sz : nat * nat) (sw : list (Z * Q))
      (field acc : matrix Q) (s s' : G) :
  stack_layers sz sw field s = Ok (acc, s') ->
  s' = draws (layer_draws sz (map fst sw)) s.
Proof.
  revert field s. induction sw as [|[scale weight] rest IH]; intros field s E.
  - cbn in E. injection E as <- <-. reflexivity.
  - apply stack_layers_step in E.
    destruct E as (random & i_field & s1 & Er & E).
    apply random_at_scale_inv in Er. destruct Er as (_ & -> & _).
    cbn [fst snd] in E. rewrite rand_state in E.
    apply IH in E. cbn [map fst layer_draws]. now rewrite draws_add.
Qed.

(** X24.  [stacked_field] advances the generator by one draw per point of
    every coarse grid, whatever the weights, the variability score and the
    values drawn: the state it leaves is the state after
    [sum_k int(rows * 2^(1-k)) * int(cols * 2^(1-k))] draws. *)
Theorem stacked_field_draw_count (vs : Q) (sz : nat * nat) (w : list Q)
        (scales : list Z) (s s' : G) (field : matrix Q) :
  stacked_field vs sz (Some w) scales s = Ok (field, s') ->
  s' = draws (layer_draws sz scales) s.
Proof.
  intro E. apply stacked_field_inv in E. destruct E as (acc & E & _).
  apply stacked_sum_inv in E. destruct E as (w' & E & W).
  destruct (W w eq_refl) as [-> L].
  apply stack_layers_draws in E. rewrite E.
  now rewrite combine_fst by (now symmetry).
Qed.
End LayerDraws.

Lemma stacked_field_draw_count_witness :
  exists field s',
    stacked_field (VW := vs_weights_on_tuple)
                  40 (4, 4)%nat (Some [1 # 2; 1 # 2]) [1; 2]%Z 42%Z
    = Ok (field, s')
    /\ s' = draws (layer_draws (4, 4)%nat [1; 2]%Z) 42%Z.
Proof.
  eexists. eexists. split; [vm_compute; reflexivity|].
  eapply (stacked_field_draw_count (VW := vs_weights_on_tuple)
            40 (4, 4)%nat [1 # 2; 1 # 2] [1; 2]%Z 42%Z).
  vm_compute. reflexivity.
Defined.

(** X25.  The clear mask grows with the clear fraction: when
    [_clip_field] returns for two fractions [f1 <= f2] on one field, every
    pixel that is clear for [f1] is clear for [f2]. *)
Theorem clip_field_monotone (field mask1 mask2 : matrix Q) (f1 f2 : Q)
        (i j : nat) :
  _clip_field field f1 = Ok mask1 ->
  _clip_field field f2 = Ok mask2 ->
  f1 <= f2 -> inside field i j ->
  pix 0 mask1 i j = 1 -> pix 0 mask2 i j = 1.
Proof.
  intros E1 E2 L I.
  destruct (clip_field_inv _ _ _ E1) as (_ & [R0 _] & ->).
  destruct (clip_field_inv _ _ _ E2) as (_ & [_ R1] & ->).
  rewrite !(pix_mmap _ 0 0 _ _ _ I).
  pose proof (quantile_sorted_mono (sort (flat field)) f1 f2
                (sort_sorted _) R0 L R1) as M.
  destruct (clip_pixel_cases (quantile_sorted (sort (flat field)) f1)
                             (pix 0 field i j)) as [[A ->]|[A _]];
    [discriminate|].
  destruct (clip_pixel_cases (quantile_sorted (sort (flat field)) f2)
                             (pix 0 field i j)) as [[B _]|[_ ->]];
    [lra | reflexivity].
Qed.

Lemma clip_field_monotone_witness :
  exists mask1 mask2,
    _clip_field [[1 # 10; 2 # 10; 9 # 10; 8 # 10]] (1 # 4) = Ok mask1
    /\ _clip_field [[1 # 10; 2 # 10; 9 # 10; 8 # 10]] (1 # 2) = Ok mask2
    /\ (pix 0 mask1 0 0 = 1 -> pix 0 mask2 0 0 = 1).
Proof.
  eexists. eexists. split; [vm_compute; reflexivity|].
  split; [vm_compute; reflexivity|].
  apply (clip_field_monotone [[1 # 10; 2 # 10; 9 # 10; 8 # 10]] _ _
                             (1 # 4) (1 # 2) 0 0).
  - vm_compute. reflexivity.
  - vm_compute. reflexivity.
  - vm_compute. discriminate.
  - split; cbn; lia.
Defined.

(** ** stacked_field: only the ratios of the weights matter *)



Lemma flat_rel (R : Q -> Q -> Prop) (m m' : matrix Q) :
  mat_rel R m m' -> Forall2 R (flat m) (flat m').
Proof.
  unfold mat_rel, flat. induction 1 as [|r r' m m' Rr F IH]; [constructor|].
  cbn. now apply Forall2_app.
Qed.

Lemma mmap_rel (R R' : Q -> Q -> Prop) (f g : Q -> Q) (m m' : matrix Q) :
  (forall x y, R x y -> R' (f x) (g y)) ->
  mat_rel R m m' -> mat_rel R' (mmap f m) (mmap g m').
Proof.
  intros H F. unfold mat_rel, mmap in *.
  induction F as [|r r' m m' Rr F IH]; [constructor|].
  cbn. constructor; [|exact IH].
  clear - H Rr. induction Rr; cbn; constructor; auto.
Qed.












Section WeightScale.
Context {G : Type} {RS : RandomState G} {VW : VsWeights}.


End WeightScale.


(** ** _clip_field: the mask depends on the ranks only up to an affine map *)



Lemma nth_map_inside (f : Q -> Q) (l : list Q) (k : nat) :
  (k < length l)%nat -> nth k (map f l) 0 = f (nth k l 0).
Proof.
  intro L. rewrite (nth_indep _ 0 (f 0)) by (now rewrite length_map).
  apply map_nth.
Qed.





(** ** _find_edges: the complement of a mask has the same edges *)

Lemma nth_rel (R : Q -> Q -> Prop) (l l' : list Q) (k : nat) :
  R 0 0 -> Forall2 R l l' -> R (nth k l 0) (nth k l' 0).
Proof.
  intros R0 F. revert k. induction F as [|x y l l' Rx F IH]; intro k.
  - destruct k; exact R0.
  - destruct k; [exact Rx | apply IH].
Qed.

Lemma Forall2_map_same {A B : Type} (R : B -> B -> Prop) (g g' : A -> B)
      (l : list A) :
  (forall i, R (g i) (g' i)) -> Forall2 R (map g l) (map g' l).
Proof. intro H. induction l; cbn; constructor; auto. Qed.

Lemma Forall2_map_both {A B : Type} (S : A -> A -> Prop) (R : B -> B -> Prop)
      (f g : A -> B) (l l' : list A) :
  (forall x y, S x y -> R (f x) (g y)) ->
  Forall2 S l l' -> Forall2 R (map f l) (map g l').
Proof. intros H F. induction F; cbn; constructor; auto. Qed.

Lemma mat_rel_impl (R R' : Q -> Q -> Prop) (m m' : matrix Q) :
  (forall x y, R x y -> R' x y) -> mat_rel R m m' -> mat_rel R' m m'.
Proof.
  intros H F. unfold mat_rel in *. eapply Forall2_impl; [|exact F].
  intros r r' Fr. eapply Forall2_impl; [|exact Fr]. exact H.
Qed.

Lemma Qsum_scaled (c : Q) {A : Type} (g g' : A -> Q) (l : list A) :
  (forall j, g j == c * g' j) -> Qsum (map g l) == c * Qsum (map g' l).
Proof.
  intro H. induction l as [|j l IH]; cbn; [ring|].
  fold (Qsum (map g l)). fold (Qsum (map g' l)). rewrite IH, H. ring.
Qed.

Lemma scaled_zero (c : Q) : (fun x y => x == c * y) 0 0.
Proof. cbn beta. ring. Qed.

Lemma correlate1d_scaled (c : Q) (w line line' : list Q) :
  Forall2 (fun x y => x == c * y) line line' ->
  Forall2 (fun x y => x == c * y) (correlate1d w line) (correlate1d w line').
Proof.
  intro F. unfold correlate1d. rewrite (Forall2_length F).
  apply Forall2_map_same. intro i. cbn beta. apply Qsum_scaled. intro j.
  pose proof (nth_rel (fun x y => x == c * y) line line'
                (reflect (length line')
                         (Z.of_nat i + Z.of_nat j
                          - Z.of_nat (length w / 2)))
                (scaled_zero c) F) as N.
  cbn beta in N. rewrite N. ring.
Qed.

Lemma uniform_filter1d_scaled (c : Q) (width : nat) (line line' : list Q) :
  Forall2 (fun x y => x == c * y) line line' ->
  Forall2 (fun x y => x == c * y)
          (uniform_filter1d width line) (uniform_filter1d width line').
Proof.
  intro F. unfold uniform_filter1d. rewrite (Forall2_length F).
  apply Forall2_map_same. intro i. cbn beta.
  rewrite (Qsum_scaled c
             (fun t => nth (reflect (length line')
                                    (Z.of_nat i - Z.of_nat (width / 2)
                                     + Z.of_nat t)) line 0)
             (fun t => nth (reflect (length line')
                                    (Z.of_nat i - Z.of_nat (width / 2)
                                     + Z.of_nat t)) line' 0)).
  - unfold Qdiv. ring.
  - intro t.
    apply (nth_rel (fun x y => x == c * y) line line');
      [apply scaled_zero | exact F].
Qed.

Lemma transpose_rel (R : Q -> Q -> Prop) (m m' : matrix Q) :
  R 0 0 -> mat_rel R m m' -> mat_rel R (transpose m) (transpose m').
Proof.
  intros R0 F. unfold transpose.
  assert (L : length (hd [] m) = length (hd [] m')).
  { destruct F as [|r r' m m' Fr F]; [reflexivity|].
    cbn. apply (Forall2_length Fr). }
  rewrite L. unfold mat_rel.
  generalize (seq 0 (length (hd [] m'))). intro js.
  induction js as [|j js IH]; cbn; constructor; [|exact IH].
  eapply Forall2_map_both; [|exact F].
  intros r r' Fr. now apply nth_rel.
Qed.

Lemma along_rows_rel (R : Q -> Q -> Prop) (f : list Q -> list Q)
      (m m' : matrix Q) :
  (forall l l', Forall2 R l l' -> Forall2 R (f l) (f l')) ->
  mat_rel R m m' -> mat_rel R (along_rows f m) (along_rows f m').
Proof.
  intros H F. unfold along_rows, mat_rel.
  eapply Forall2_map_both; [|exact F]. exact H.
Qed.

Lemma along_cols_rel (R : Q -> Q -> Prop) (f : list Q -> list Q)
      (m m' : matrix Q) :
  R 0 0 ->
  (forall l l', Forall2 R l l' -> Forall2 R (f l) (f l')) ->
  mat_rel R m m' -> mat_rel R (along_cols f m) (along_cols f m').
Proof.
  intros R0 H F. unfold along_cols.
  apply transpose_rel; [exact R0|].
  apply (along_rows_rel R f); [exact H|].
  now apply transpose_rel.
Qed.

Lemma derivative_of_complement (line : list Q) :
  Forall2 (fun x y => x == (-1) * y)
          (correlate1d [-1; 0; 1] (map (fun x => 1 - x) line))
          (correlate1d [-1; 0; 1] line).
Proof.
  apply (Forall2_by_nth _ 0 0).
  - now rewrite !correlate1d_length, length_map.
  - intros i Hi. rewrite correlate1d_length, length_map in Hi.
    rewrite !correlate1d_3_nth by (now rewrite ?length_map).
    rewrite length_map.
    assert (P : (0 < length line)%nat) by lia.
    rewrite !nth_map_inside by (auto using reflect_lt).
    ring.
Qed.

Lemma sobel_of_complement (m : matrix Q) :
  mat_rel (fun x y => x == (-1) * y)
          (sobel (mmap (fun x => 1 - x) m)) (sobel m).
Proof.
  unfold sobel.
  apply along_cols_rel;
    [apply scaled_zero | intros; now apply correlate1d_scaled|].
  unfold along_rows, mmap, mat_rel. rewrite map_map.
  apply Forall2_map_same. intro row. apply derivative_of_complement.
Qed.

Lemma uniform_filter_rel (m m' : matrix Q) (width : nat) :
  mat_rel Qeq m m' ->
  mat_rel Qeq (uniform_filter m width) (uniform_filter m' width).
Proof.
  intro F.
  apply (mat_rel_impl (fun x y => x == 1 * y)); [intros x y E; rewrite E; ring|].
  apply (mat_rel_impl _ (fun x y => x == 1 * y)) in F;
    [|intros x y E; rewrite E; ring].
  unfold uniform_filter. destruct (width <=? 1)%nat; [exact F|].
  apply along_rows_rel; [intros; now apply uniform_filter1d_scaled|].
  apply along_cols_rel;
    [apply scaled_zero | intros; now apply uniform_filter1d_scaled | exact F].
Qed.

Lemma filter_positive_rel (l l' : list Q) :
  Forall2 Qeq l l' -> Forall2 Qeq (filter (Qltb 0) l) (filter (Qltb 0) l').
Proof.
  induction 1 as [|x y l l' E F IH]; [constructor|].
  cbn [filter]. rewrite (Qltb_proper 0 0 (Qeq_refl 0) x y E).
  destruct (Qltb 0 y); [constructor; assumption | exact IH].
Qed.

Lemma insert_rel (x x' : Q) (l l' : list Q) :
  x == x' -> Forall2 Qeq l l' -> Forall2 Qeq (insert x l) (insert x' l').
Proof.
  intros E F. induction F as [|y y' l l' Ey F IH]; cbn [insert].
  - constructor; [exact E | constructor].
  - assert (B : Qle_bool x y = Qle_bool x' y').
    { apply eq_true_iff_eq. rewrite !Qle_bool_iff. now rewrite E, Ey. }
    rewrite B. destruct (Qle_bool x' y').
    + constructor; [exact E|]. constructor; assumption.
    + constructor; assumption.
Qed.

Lemma sort_rel (l l' : list Q) :
  Forall2 Qeq l l' -> Forall2 Qeq (sort l) (sort l').
Proof.
  induction 1 as [|x y l l' E F IH]; [constructor|].
  cbn [sort]. now apply insert_rel.
Qed.

Lemma quantile_sorted_rel (a a' : list Q) (q : Q) :
  Forall2 Qeq a a' -> quantile_sorted a q == quantile_sorted a' q.
Proof.
  intro F. unfold quantile_sorted. rewrite (Forall2_length F).
  destruct (Qle_bool _ _).
  - apply (nth_rel Qeq); [reflexivity | exact F].
  - unfold lerp.
    rewrite (nth_rel Qeq a a' (Z.to_nat _) (Qeq_refl 0) F).
    rewrite (nth_rel Qeq a a' (S (Z.to_nat _)) (Qeq_refl 0) F).
    reflexivity.
Qed.

Lemma quantile_rel (l l' : list Q) (q b : Q) :
  Forall2 Qeq l' l -> quantile l q = Ok b ->
  exists b', quantile l' q = Ok b' /\ b' == b.
Proof.
  intros F E. unfold quantile in *.
  destruct (negb _); [discriminate|].
  destruct F as [|x y l' l Exy F]; [discriminate|].
  injection E as <-. eexists. split; [reflexivity|].
  apply (quantile_sorted_rel (sort (x :: l')) (sort (y :: l))).
  apply (sort_rel (x :: l') (y :: l)). constructor; assumption.
Qed.

Lemma threshold_rel (b b' : Q) (m m' : matrix Q) :
  b' == b -> mat_rel Qeq m' m -> mmap (Qltb b') m' = mmap (Qltb b) m.
Proof.
  intros E F. unfold mmap, mat_rel in *.
  induction F as [|r' r m' m Fr F IH]; [reflexivity|].
  cbn [map]. rewrite IH. f_equal.
  clear - E Fr. induction Fr as [|x y r' r Exy Fr IHr]; [reflexivity|].
  cbn [map]. now rewrite IHr, (Qltb_proper _ _ E _ _ Exy).
Qed.

(** X28.  Exchanging clear and cloudy does not move the edges.  On the
    complement [1 - mask], [_find_edges] returns whenever it returns on
    the mask, with the same near-boundary mask and an edge map equal entry
    by entry: the Sobel derivative only changes sign. *)
Theorem find_edges_of_complement (base_mask edges : matrix Q)
        (near : matrix bool) (width : nat) :
  _find_edges base_mask width = Ok (edges, near) ->
  exists edges',
    _find_edges (mmap (fun x => 1 - x) base_mask) width = Ok (edges', near)
    /\ mat_eq edges' edges.
Proof.
  intro E. apply find_edges_inv in E. cbv zeta in E.
  destruct E as (baseline & Eq & -> & ->).
  assert (Fe : mat_rel Qeq
                 (mmap Qabs (sobel (mmap (fun x => 1 - x) base_mask)))
                 (mmap Qabs (sobel base_mask))).
  { eapply mmap_rel; [|apply sobel_of_complement].
    intros x y Exy. cbn beta in Exy. rewrite Exy.
    setoid_replace (-1 * y) with (- y) by ring. apply Qabs_opp. }
  set (small := fun x : Q => if Qltb x (1 # 100000) then 0 else x) in *.
  assert (Fs : mat_rel Qeq
                 (mmap small
                    (uniform_filter
                       (mmap Qabs (sobel (mmap (fun x => 1 - x) base_mask)))
                       width))
                 (mmap small
                    (uniform_filter (mmap Qabs (sobel base_mask)) width))).
  { eapply mmap_rel; [|apply uniform_filter_rel, Fe].
    intros x y Exy. unfold small.
    rewrite (Qltb_proper _ _ Exy _ _ (Qeq_refl _)).
    destruct (Qltb y _); [reflexivity | exact Exy]. }
  destruct (quantile_rel _ _ _ _
              (filter_positive_rel _ _ (flat_rel Qeq _ _ Fs)) Eq)
    as (b' & Eq' & Eb).
  eexists. split; [|exact Fe].
  unfold _find_edges. fold small. rewrite Eq'. cbn [bind].
  now rewrite (threshold_rel _ _ _ _ Eb Fs).
Qed.

Lemma find_edges_of_complement_witness :
  exists edges near,
    _find_edges [[0; 0; 0; 0]; [0; 0; 0; 0]; [1; 1; 1; 1]; [1; 1; 1; 0]] 3
    = Ok (edges, near)
    /\ exists edges',
         _find_edges
           (mmap (fun x => 1 - x)
                 [[0; 0; 0; 0]; [0; 0; 0; 0]; [1; 1; 1; 1]; [1; 1; 1; 0]]) 3
         = Ok (edges', near)
         /\ mat_eq edges' edges.
Proof.
  eexists. eexists. split; [vm_compute; reflexivity|].
  apply (find_edges_of_complement
           [[0; 0; 0; 0]; [0; 0; 0; 0]; [1; 1; 1; 1]; [1; 1; 1; 0]] _ _ 3).
  vm_compute. reflexivity.
Defined.
